(** * Sprite detection engine: a shallow embedding of spriteDetection.js

    The development follows the advanced detection module (cache, worker,
    noise filter, flood fill).  Pixel buffers are flat RGBA byte arrays,
    coordinates and indices are integers, and the [while] loops of the
    three flood fills run on a fuel that is shown to be sufficient. *)

From stdpp Require Import list sorting strings pretty.
From Stdlib Require Import ZArith Lia.

Local Open Scope Z_scope.

(** ** Typed arrays and JavaScript values *)

(** [data[i]]: a read outside the array gives [undefined], here [None]. *)
Definition rd (arr : list Z) (i : Z) : option Z :=
  if i <? 0 then None else arr !! Z.to_nat i.

(** [arr[i] = v] on a typed array: a write outside the array is ignored. *)
Definition wr (arr : list Z) (i v : Z) : list Z :=
  if i <? 0 then arr else <[Z.to_nat i := v]> arr.

(** A [Uint8ClampedArray] clamps what is stored in it to a byte. *)
Definition clamp8 (v : Z) : Z := Z.max 0 (Z.min 255 v).

(** Truthiness of an array cell: [undefined] and [0] are falsy. *)
Definition truthy (v : option Z) : bool :=
  match v with
  | Some n => negb (n =? 0)
  | None => false
  end.

(** [new Uint8Array(n)] *)
Definition newUint8Array (n : Z) : list Z := replicate (Z.to_nat n) 0.

(** [a === 0] and [a > 0] on a value that may be [undefined]. *)
Definition isZero (a : option Z) : bool :=
  match a with
  | Some v => v =? 0
  | None => false
  end.

Definition isPositive (a : option Z) : bool :=
  match a with
  | Some v => v >? 0
  | None => false
  end.

(** ** Colors *)

(** The background color is the array [[r, g, b, a]] of four numbers. *)
Record Color := mkColor { cr : Z; cg : Z; cb : Z; ca : Z }.

#[global] Instance Color_eq_dec : EqDecision Color.
Proof. solve_decision. Defined.

(** Four consecutive cells read from the buffer, each possibly [undefined]. *)
Definition Sample : Type := option Z * option Z * option Z * option Z.

Definition sampleAt (data : list Z) (i : Z) : Sample :=
  (rd data i, rd data (i + 1), rd data (i + 2), rd data (i + 3)).

(** [color.join(',')] followed by [split(',').map(Number)]: [undefined]
    joins as the empty string and [Number('')] is [0]. *)
Definition toNumber (v : option Z) : Z := default 0 v.

Definition parseKey (s : Sample) : Color :=
  let '(r, g, b, a) := s in
  mkColor (toNumber r) (toNumber g) (toNumber b) (toNumber a).

(** [Math.abs(r - bgR) + Math.abs(g - bgG) + Math.abs(b - bgB)] *)
Definition rgbDistance (r g b : Z) (bgColor : Color) : Z :=
  Z.abs (r - cr bgColor) + Z.abs (g - cg bgColor) + Z.abs (b - cb bgColor).

(** [isBackgroundColor(data, index, bgColor, tolerance)].  With an
    [undefined] channel the sum is NaN and the last comparison fails. *)
Definition isBackgroundColor (data : list Z) (index : Z) (bgColor : Color)
    (tolerance : Z) : bool :=
  let r := rd data index in
  let g := rd data (index + 1) in
  let b := rd data (index + 2) in
  let a := rd data (index + 3) in
  if isZero a then true
  else if (ca bgColor <? 255) && isPositive a then false
  else match r, g, b with
       | Some r, Some g, Some b => rgbDistance r g b bgColor <=? tolerance
       | _, _, _ => false
       end.

(** [Math.abs(color1[i] - color2[i]) > tolerance] *)
Definition channelFar (a : option Z) (b tolerance : Z) : bool :=
  match a with
  | Some v => Z.abs (v - b) >? tolerance
  | None => false
  end.

(** [colorsSimilar(color1, color2, tolerance)]: all four channels. *)
Definition colorsSimilar (color1 : Sample) (color2 : Color) (tolerance : Z) : bool :=
  let '(r, g, b, a) := color1 in
  if channelFar r (cr color2) tolerance then false
  else if channelFar g (cg color2) tolerance then false
  else if channelFar b (cb color2) tolerance then false
  else if channelFar a (ca color2) tolerance then false
  else true.

(** ** Background color estimation (main thread) *)

(** [for (let i = start; i < stop; i += step)]: the values taken by [i]. *)
Fixpoint strideLoop (fuel : nat) (i stop step : Z) : list Z :=
  match fuel with
  | O => []
  | S f => if i <? stop then i :: strideLoop f (i + step) stop step else []
  end.

Definition borderPixels (data : list Z) (w h : Z) : list Sample :=
  flat_map (fun x =>
              [ sampleAt data ((0 * w + x) * 4);
                sampleAt data (((h - 1) * w + x) * 4) ])
           (strideLoop (Z.to_nat w) 0 w (Z.max 1 (w / 50)))
  ++
  flat_map (fun y =>
              [ sampleAt data ((y * w + 0) * 4);
                sampleAt data ((y * w + (w - 1)) * 4) ])
           (strideLoop (Z.to_nat h) 1 (h - 1) (Z.max 1 (h / 50))).

(** [colorCounts] is an object whose keys are joined colors; its keys are
    kept in insertion order and stand here as the colors they parse to. *)
Fixpoint bumpSimilar (color : Sample) (colorCounts : list (Color * Z))
    : option (list (Color * Z)) :=
  match colorCounts with
  | [] => None
  | (key, n) :: rest =>
      if colorsSimilar color key 5 then Some ((key, n + 1) :: rest)
      else cons (key, n) <$> bumpSimilar color rest
  end.

Definition countColor (colorCounts : list (Color * Z)) (color : Sample)
    : list (Color * Z) :=
  match bumpSimilar color colorCounts with
  | Some counts => counts
  | None => colorCounts ++ [(parseKey color, 1)]
  end.

(** [keys.reduce((a, b) => counts[a] > counts[b] ? a : b)]; an empty
    array makes [reduce] throw. *)
Definition mostCommon {K : Type} (colorCounts : list (K * Z)) : option K :=
  match colorCounts with
  | [] => None
  | first :: rest =>
      Some (fst (fold_left (fun a b => if snd a >? snd b then a else b) rest first))
  end.

Definition detectBackgroundColor (data : list Z) (w h : Z) : option Color :=
  mostCommon (fold_left countColor (borderPixels data w h) []).

(** ** Configuration *)

(** The value of [config.algorithm]: one of the three names of the
    plug-in table, or a name for which the table has no property.  The
    names of the properties that the table inherits from
    [Object.prototype] ([toString], [constructor] and the like) are found
    by the lookup; they are not among the names of this type. *)
Inductive Algorithm :=
| AlgFloodFill
| AlgContour
| AlgAi
| AlgUnregistered (name : string).

#[global] Instance Algorithm_eq_dec : EqDecision Algorithm.
Proof. solve_decision. Defined.

Record DetectionConfig := mkConfig {
  tolerance : Z;
  minSpriteSize : Z;
  use8WayConnectivity : bool;
  enableLogging : bool;
  useWebWorker : bool;
  algorithm : Algorithm;
  enableCache : bool;
  chunkSize : Z;
  useWebGL : bool;
  forceRecalculation : bool;
  enableNoiseReduction : bool;
  noiseThreshold : option Z   (* a number or [undefined] *)
}.

Definition DEFAULT_CONFIG : DetectionConfig :=
  {| tolerance := 10;
     minSpriteSize := 4;
     use8WayConnectivity := false;
     enableLogging := false;
     useWebWorker := true;
     algorithm := AlgFloodFill;
     enableCache := true;
     chunkSize := 1024 * 1024;
     useWebGL := false;
     forceRecalculation := false;
     enableNoiseReduction := true;
     noiseThreshold := Some 2 |}.

(** The object a caller passes: every property may be absent ([None]).
    Numbers are integers; [NaN], and a property that is present with the
    value [undefined] (told apart from an absent one for [noiseThreshold]
    only), are not among the values of this type. *)
Record PartialConfig := mkPartial {
  p_tolerance : option Z;
  p_minSpriteSize : option Z;
  p_use8WayConnectivity : option bool;
  p_enableLogging : option bool;
  p_useWebWorker : option bool;
  p_algorithm : option Algorithm;
  p_enableCache : option bool;
  p_chunkSize : option Z;
  p_useWebGL : option bool;
  p_forceRecalculation : option bool;
  p_enableNoiseReduction : option bool;
  p_noiseThreshold : option (option Z)
}.

Definition emptyConfig : PartialConfig :=
  mkPartial None None None None None None None None None None None None.

(** [{ ...DEFAULT_CONFIG, ...config }] *)
Definition mergeConfig (config : PartialConfig) : DetectionConfig :=
  {| tolerance := default (tolerance DEFAULT_CONFIG) (p_tolerance config);
     minSpriteSize := default (minSpriteSize DEFAULT_CONFIG) (p_minSpriteSize config);
     use8WayConnectivity :=
       default (use8WayConnectivity DEFAULT_CONFIG) (p_use8WayConnectivity config);
     enableLogging := default (enableLogging DEFAULT_CONFIG) (p_enableLogging config);
     useWebWorker := default (useWebWorker DEFAULT_CONFIG) (p_useWebWorker config);
     algorithm := default (algorithm DEFAULT_CONFIG) (p_algorithm config);
     enableCache := default (enableCache DEFAULT_CONFIG) (p_enableCache config);
     chunkSize := default (chunkSize DEFAULT_CONFIG) (p_chunkSize config);
     useWebGL := default (useWebGL DEFAULT_CONFIG) (p_useWebGL config);
     forceRecalculation :=
       default (forceRecalculation DEFAULT_CONFIG) (p_forceRecalculation config);
     enableNoiseReduction :=
       default (enableNoiseReduction DEFAULT_CONFIG) (p_enableNoiseReduction config);
     noiseThreshold := default (noiseThreshold DEFAULT_CONFIG) (p_noiseThreshold config) |}.

(** A merged configuration handed on as the [config] argument. *)
Definition asPartial (c : DetectionConfig) : PartialConfig :=
  {| p_tolerance := Some (tolerance c);
     p_minSpriteSize := Some (minSpriteSize c);
     p_use8WayConnectivity := Some (use8WayConnectivity c);
     p_enableLogging := Some (enableLogging c);
     p_useWebWorker := Some (useWebWorker c);
     p_algorithm := Some (algorithm c);
     p_enableCache := Some (enableCache c);
     p_chunkSize := Some (chunkSize c);
     p_useWebGL := Some (useWebGL c);
     p_forceRecalculation := Some (forceRecalculation c);
     p_enableNoiseReduction := Some (enableNoiseReduction c);
     p_noiseThreshold := Some (noiseThreshold c) |}.

(** ** Images and validation *)

(** An [HTMLImageElement]; [pixels] is the buffer that drawing the image
    on a canvas of its natural size and reading it back gives. *)
Record HTMLImageElement := mkImage {
  naturalWidth : Z;
  naturalHeight : Z;
  complete : bool;
  pixels : list Z
}.

(** [tempCtx.drawImage(imageElement, 0, 0)] followed by
    [tempCtx.getImageData(0, 0, w, h)].  The canvas API throws an
    [IndexSizeError] when the rectangle read has a zero width or height;
    otherwise it gives the [4 * w * h] bytes of the image. *)
Definition getImageData (img : HTMLImageElement) : option (list Z) :=
  if (naturalWidth img =? 0) || (naturalHeight img =? 0) then None
  else Some (pixels img).

Inductive ImageArg :=
| NotAnImage
| ImageElement (img : HTMLImageElement).

Inductive ValidationError :=
| InvalidImageElement
| ImageNotLoaded
| ToleranceOutOfRange
| MinSpriteSizeTooSmall.

(** [validateInputs]: [inl] is the error thrown, [inr] the image that passed. *)
Definition validateInputs (imageElement : ImageArg) (config : PartialConfig)
    : ValidationError + HTMLImageElement :=
  match imageElement with
  | NotAnImage => inl InvalidImageElement
  | ImageElement img =>
      if negb (complete img) then inl ImageNotLoaded
      else if match p_tolerance config with
              | Some t => (t <? 0) || (t >? 255)
              | None => false
              end
      then inl ToleranceOutOfRange
      else if match p_minSpriteSize config with
              | Some m => m <? 1
              | None => false
              end
      then inl MinSpriteSizeTooSmall
      else inr img
  end.

(** ** Flood fill *)

(** A pixel is the pair [[x, y]] that the queues hold. *)
Abbreviation Pixel := (Z * Z)%type.

Definition neighbors4 : list (Z * Z) := [(-1, 0); (1, 0); (0, -1); (0, 1)].

Definition neighbors8 : list (Z * Z) :=
  [(-1, -1); (-1, 0); (-1, 1); (0, -1); (0, 1); (1, -1); (1, 0); (1, 1)].

(** [nx >= 0 && nx < w && ny >= 0 && ny < h] *)
Definition inBounds (w h nx ny : Z) : bool :=
  (0 <=? nx) && (nx <? w) && (0 <=? ny) && (ny <? h).

(** Fuel of the [while (queue.length > 0)] loops: a pixel is queued at
    most once, so the loop body runs at most [w * h] times. *)
Definition loopFuel (w h : Z) : nat := S (Z.to_nat (w * h)).

Record FillState := mkFill {
  fQueue : list Pixel;
  fVisited : list Z;
  fMinX : Z;
  fMinY : Z;
  fMaxX : Z;
  fMaxY : Z;
  fPixelCount : Z
}.

(** The body of [for (const [dx, dy] of neighbors)] in [floodFill]. *)
Definition floodFillVisit (w h : Z) (data : list Z) (bgColor : Color) (tol : Z)
    (cx cy : Z) (st : FillState) (d : Z * Z) : FillState :=
  let nx := cx + fst d in
  let ny := cy + snd d in
  if inBounds w h nx ny then
    let ni := ny * w + nx in
    if negb (truthy (rd (fVisited st) ni))
       && negb (isBackgroundColor data (ni * 4) bgColor tol)
    then {| fQueue := fQueue st ++ [(nx, ny)];
            fVisited := wr (fVisited st) ni 1;
            fMinX := fMinX st; fMinY := fMinY st;
            fMaxX := fMaxX st; fMaxY := fMaxY st;
            fPixelCount := fPixelCount st + 1 |}
    else st
  else st.

Fixpoint floodFillLoop (fuel : nat) (w h : Z) (data : list Z) (bgColor : Color)
    (tol : Z) (neighbors : list (Z * Z)) (st : FillState) : option FillState :=
  match fQueue st with
  | [] => Some st
  | (cx, cy) :: rest =>
      match fuel with
      | O => None
      | S fuel' =>
          let st1 := {| fQueue := rest;
                        fVisited := fVisited st;
                        fMinX := Z.min (fMinX st) cx;
                        fMinY := Z.min (fMinY st) cy;
                        fMaxX := Z.max (fMaxX st) cx;
                        fMaxY := Z.max (fMaxY st) cy;
                        fPixelCount := fPixelCount st |} in
          floodFillLoop fuel' w h data bgColor tol neighbors
            (fold_left (floodFillVisit w h data bgColor tol cx cy) neighbors st1)
      end
  end.

Record FillResult := mkResult {
  minX : Z; minY : Z; maxX : Z; maxY : Z; pixelCount : Z
}.

(** [floodFill(startX, startY)]: the inner helper of [floodFillAlgorithm],
    and, with the captured variables passed as arguments, the worker's
    [floodFill]; the two bodies are the same text.  The visited array is
    shared with the caller, so it is returned with the result. *)
Definition floodFill (startX startY w h : Z) (data visited : list Z)
    (bgColor : Color) (config : DetectionConfig) : option (FillResult * list Z) :=
  let neighbors :=
    if use8WayConnectivity config then neighbors8 else neighbors4 in
  let st0 := {| fQueue := [(startX, startY)];
                fVisited := wr visited (startY * w + startX) 1;
                fMinX := startX; fMinY := startY;
                fMaxX := startX; fMaxY := startY;
                fPixelCount := 1 |} in
  match floodFillLoop (loopFuel w h) w h data bgColor (tolerance config) neighbors st0 with
  | Some st =>
      Some (mkResult (fMinX st) (fMinY st) (fMaxX st) (fMaxY st) (fPixelCount st),
            fVisited st)
  | None => None
  end.

(** ** Noise reduction *)

Record CountState := mkCount {
  cQueue : list Pixel;
  cVisited : list Z;
  cCount : Z
}.

Definition countVisit (w h : Z) (data : list Z) (bgColor : Color) (tol : Z)
    (cx cy : Z) (st : CountState) (d : Z * Z) : CountState :=
  let nx := cx + fst d in
  let ny := cy + snd d in
  if inBounds w h nx ny then
    let ni := ny * w + nx in
    if negb (truthy (rd (cVisited st) ni))
       && negb (isBackgroundColor data (ni * 4) bgColor tol)
    then {| cQueue := cQueue st ++ [(nx, ny)];
            cVisited := wr (cVisited st) ni 1;
            cCount := cCount st + 1 |}
    else st
  else st.

Fixpoint countLoop (fuel : nat) (w h : Z) (data : list Z) (bgColor : Color)
    (tol : Z) (st : CountState) : option CountState :=
  match cQueue st with
  | [] => Some st
  | (cx, cy) :: rest =>
      match fuel with
      | O => None
      | S fuel' =>
          countLoop fuel' w h data bgColor tol
            (fold_left (countVisit w h data bgColor tol cx cy) neighbors4
               {| cQueue := rest; cVisited := cVisited st; cCount := cCount st |})
      end
  end.

(** [countConnectedPixels]: its own visited array, 4-way neighbors. *)
Definition countConnectedPixels (startX startY w h : Z) (data : list Z)
    (bgColor : Color) (tol : Z) : option Z :=
  let st0 := {| cQueue := [(startX, startY)];
                cVisited := wr (newUint8Array (w * h)) (startY * w + startX) 1;
                cCount := 1 |} in
  cCount <$> countLoop (loopFuel w h) w h data bgColor tol st0.

Record MarkState := mkMark {
  mQueue : list Pixel;
  mVisited : list Z;
  mData : list Z
}.

(** The four writes that turn a pixel into the background color. *)
Definition paintPixel (data : list Z) (index : Z) (bgColor : Color) : list Z :=
  wr (wr (wr (wr data index (clamp8 (cr bgColor)))
             (index + 1) (clamp8 (cg bgColor)))
         (index + 2) (clamp8 (cb bgColor)))
     (index + 3) (clamp8 (ca bgColor)).

Definition markVisit (w h : Z) (bgColor : Color) (tol : Z)
    (cx cy : Z) (st : MarkState) (d : Z * Z) : MarkState :=
  let nx := cx + fst d in
  let ny := cy + snd d in
  if inBounds w h nx ny then
    let ni := ny * w + nx in
    if negb (truthy (rd (mVisited st) ni))
       && negb (isBackgroundColor (mData st) (ni * 4) bgColor tol)
    then {| mQueue := mQueue st ++ [(nx, ny)];
            mVisited := wr (mVisited st) ni 1;
            mData := mData st |}
    else st
  else st.

Fixpoint markLoop (fuel : nat) (w h : Z) (bgColor : Color) (tol : Z)
    (st : MarkState) : option MarkState :=
  match mQueue st with
  | [] => Some st
  | (cx, cy) :: rest =>
      match fuel with
      | O => None
      | S fuel' =>
          let index := (cy * w + cx) * 4 in
          markLoop fuel' w h bgColor tol
            (fold_left (markVisit w h bgColor tol cx cy) neighbors4
               {| mQueue := rest;
                  mVisited := mVisited st;
                  mData := paintPixel (mData st) index bgColor |})
      end
  end.

(** [markNoisePixels]: mutates [data] and the caller's [visited]; both
    are returned. *)
Definition markNoisePixels (startX startY w h : Z) (data visited : list Z)
    (bgColor : Color) (tol : Z) : option (list Z * list Z) :=
  let st0 := {| mQueue := [(startX, startY)];
                mVisited := wr visited (startY * w + startX) 1;
                mData := data |} in
  (fun st => (mData st, mVisited st)) <$> markLoop (loopFuel w h) w h bgColor tol st0.

(** A [for] loop whose body may run out of fuel. *)
Fixpoint forEachM {S A : Type} (body : S -> A -> option S) (l : list A) (s : S)
    : option S :=
  match l with
  | [] => Some s
  | a :: l' =>
      match body s a with
      | Some s' => forEachM body l' s'
      | None => None
      end
  end.

(** [config.noiseThreshold || 2] *)
Definition effectiveNoiseThreshold (config : DetectionConfig) : Z :=
  match noiseThreshold config with
  | Some n => if n =? 0 then 2 else n
  | None => 2
  end.

(** The body of the two nested loops of [applyNoiseReduction]; the state
    is the pixel buffer and the filter's own visited array. *)
Definition noisePixel (w h : Z) (bgColor : Color) (tol threshold : Z) (y : Z)
    (st : list Z * list Z) (x : Z) : option (list Z * list Z) :=
  let '(data, visited) := st in
  let i := y * w + x in
  if truthy (rd visited i) || isBackgroundColor data (i * 4) bgColor tol then Some st
  else
    match countConnectedPixels x y w h data bgColor tol with
    | None => None
    | Some connectedPixels =>
        if connectedPixels <=? threshold
        then markNoisePixels x y w h data visited bgColor tol
        else Some st
    end.

(** [applyNoiseReduction]: returns the mutated buffer. *)
Definition applyNoiseReduction (data : list Z) (w h : Z) (bgColor : Color)
    (config : DetectionConfig) : option (list Z) :=
  if negb (enableNoiseReduction config) then Some data
  else
    let threshold := effectiveNoiseThreshold config in
    let visited := newUint8Array (w * h) in
    fst <$> forEachM
              (fun st y =>
                 forEachM (noisePixel w h bgColor (tolerance config) threshold y)
                          (seqZ 0 w) st)
              (seqZ 0 h) (data, visited).

(** ** The flood-fill detection algorithm *)

Record Rect := mkRect { rect_x : Z; rect_y : Z; rect_w : Z; rect_h : Z }.

Record SpriteFrame := mkFrame {
  frame_id : nat;
  frame_name : string;
  frame_rect : Rect;
  frame_type : string
}.

(** The object pushed on [newFrames] for a fill result. *)
Definition makeFrame (newId : nat) (result : FillResult) : SpriteFrame :=
  {| frame_id := newId;
     frame_name := "sprite_" +:+ pretty newId;
     frame_rect := {| rect_x := minX result;
                      rect_y := minY result;
                      rect_w := maxX result - minX result + 1;
                      rect_h := maxY result - minY result + 1 |};
     frame_type := "simple" |}.

Record ScanState := mkScan {
  sVisited : list Z;
  sFrames : list SpriteFrame;
  sProcessed : Z
}.

(** The body of the two nested loops that process the image. *)
Definition scanPixel (w h : Z) (data : list Z) (bgColor : Color)
    (config : DetectionConfig) (y : Z) (st : ScanState) (x : Z) : option ScanState :=
  let i := y * w + x in
  if truthy (rd (sVisited st) i)
     || isBackgroundColor data (i * 4) bgColor (tolerance config)
  then Some st
  else
    match floodFill x y w h data (sVisited st) bgColor config with
    | None => None
    | Some (result, visited) =>
        Some {| sVisited := visited;
                sFrames :=
                  if pixelCount result >=? minSpriteSize config
                  then sFrames st ++ [makeFrame (length (sFrames st)) result]
                  else sFrames st;
                sProcessed := sProcessed st + pixelCount result |}
    end.

(** [for y < h, for x < w]: the scan of [floodFillAlgorithm]; the scan of
    the worker's [processImageData] is the same text. *)
Definition scanImage (w h : Z) (data : list Z) (bgColor : Color)
    (config : DetectionConfig) : option ScanState :=
  forEachM
    (fun st y => forEachM (scanPixel w h data bgColor config y) (seqZ 0 w) st)
    (seqZ 0 h)
    {| sVisited := newUint8Array (w * h); sFrames := []; sProcessed := 0 |}.

(** What a [catch] receives. *)
Inductive Thrown :=
| InvalidInput (e : ValidationError)
| IndexSizeError
| ReduceOfEmptyArray.

(** The errors a promise is rejected with, by the message they carry. *)
Inductive Failure :=
| SpriteDetectionError (cause : Thrown)
| FloodFillError (cause : Thrown)
| WebWorkerError.

(** How a promise settles; [OutOfFuel] is the model's fuel running out,
    which the totality lemmas below exclude. *)
Inductive Outcome (A : Type) :=
| Resolved (a : A)
| Rejected (e : Failure)
| OutOfFuel.

Arguments Resolved {A} a.
Arguments Rejected {A} e.
Arguments OutOfFuel {A}.

Definition floodFillAlgorithm (imageElement : ImageArg) (config : PartialConfig)
    : Outcome (list SpriteFrame) :=
  match validateInputs imageElement config with
  | inl e => Rejected (FloodFillError (InvalidInput e))
  | inr img =>
      let finalConfig := mergeConfig config in
      let w := naturalWidth img in
      let h := naturalHeight img in
      if (w =? 0) || (h =? 0) then Resolved []
      else
        match getImageData img with
        | None => Rejected (FloodFillError IndexSizeError)
        | Some data =>
            match detectBackgroundColor data w h with
            | None => Rejected (FloodFillError ReduceOfEmptyArray)
            | Some bgColor =>
                match (if enableNoiseReduction finalConfig
                       then applyNoiseReduction data w h bgColor finalConfig
                       else Some data) with
                | None => OutOfFuel
                | Some data' =>
                    match scanImage w h data' bgColor finalConfig with
                    | None => OutOfFuel
                    | Some st => Resolved (sFrames st)
                    end
                end
            end
        end
  end.

Definition contourAlgorithm (imageElement : ImageArg) (config : PartialConfig)
    : Outcome (list SpriteFrame) :=
  floodFillAlgorithm imageElement config.

Definition aiDetectionAlgorithm (imageElement : ImageArg) (config : PartialConfig)
    : Outcome (list SpriteFrame) :=
  floodFillAlgorithm imageElement config.

(** The plugin table; a name without an entry reads as [undefined]. *)
Definition detectionAlgorithms (name : Algorithm)
    : option (ImageArg -> PartialConfig -> Outcome (list SpriteFrame)) :=
  match name with
  | AlgFloodFill => Some floodFillAlgorithm
  | AlgContour => Some contourAlgorithm
  | AlgAi => Some aiDetectionAlgorithm
  | AlgUnregistered _ => None
  end.

(** [detectionAlgorithms[config.algorithm] || detectionAlgorithms.floodFill] *)
Definition selectAlgorithm (config : DetectionConfig)
    : ImageArg -> PartialConfig -> Outcome (list SpriteFrame) :=
  default floodFillAlgorithm (detectionAlgorithms (algorithm config)).

(** ** The worker's copy of the algorithm *)

Module Worker.

  (** [colorCounts[key] = (colorCounts[key] || 0) + 1], keys being the
      joined samples, compared exactly. *)
Fixpoint countExact (colorCounts : list (Sample * Z)) (color : Sample)
      : list (Sample * Z) :=
    match colorCounts with
    | [] => [(color, 1)]
    | (key, n) :: rest =>
        if decide (key = color) then (key, n + 1) :: rest
        else (key, n) :: countExact rest color
    end.

Definition detectBackgroundColor (data : list Z) (w h : Z) : option Color :=
    let corners := [(0, 0); (w - 1, 0); (0, h - 1); (w - 1, h - 1)] in
    let colors := map (fun c : Z * Z => sampleAt data ((snd c * w + fst c) * 4)) corners in
    parseKey <$> mostCommon (fold_left countExact colors []).

Record Stats := mkStats { processedPixels : Z; totalPixels : Z }.

  (** [processImageData]: no noise filter, corner background. *)
Definition processImageData (data : list Z) (w h : Z) (config : DetectionConfig)
      : Outcome (list SpriteFrame * Stats) :=
    match detectBackgroundColor data w h with
    | None => Rejected WebWorkerError
    | Some bgColor =>
        match scanImage w h data bgColor config with
        | None => OutOfFuel
        | Some st => Resolved (sFrames st, mkStats (sProcessed st) (w * h))
        end
    end.

End Worker.

(** ** The orchestrator and its cache *)

(** The template string of [getCacheKey] is determined by these six
    values, which stand for it. *)
Record CacheKey := mkKey {
  key_width : Z;
  key_height : Z;
  key_tolerance : Z;
  key_minSpriteSize : Z;
  key_use8WayConnectivity : bool;
  key_algorithm : Algorithm
}.

#[global] Instance CacheKey_eq_dec : EqDecision CacheKey.
Proof. solve_decision. Defined.

Definition getCacheKey (img : HTMLImageElement) (config : DetectionConfig) : CacheKey :=
  {| key_width := naturalWidth img;
     key_height := naturalHeight img;
     key_tolerance := tolerance config;
     key_minSpriteSize := minSpriteSize config;
     key_use8WayConnectivity := use8WayConnectivity config;
     key_algorithm := algorithm config |}.

Definition CACHE_MAX_SIZE : Z := 10.

(** A [Map]: entries in insertion order, keys distinct. *)
Definition Cache : Type := list (CacheKey * list SpriteFrame).

Fixpoint cacheGet (cache : Cache) (key : CacheKey) : option (list SpriteFrame) :=
  match cache with
  | [] => None
  | (k, v) :: rest => if decide (k = key) then Some v else cacheGet rest key
  end.

Definition cacheHas (cache : Cache) (key : CacheKey) : bool :=
  match cacheGet cache key with
  | Some _ => true
  | None => false
  end.

(** [Map.set]: a present key keeps its place, a new key goes last. *)
Fixpoint cacheSet (cache : Cache) (key : CacheKey) (value : list SpriteFrame) : Cache :=
  match cache with
  | [] => [(key, value)]
  | (k, v) :: rest =>
      if decide (k = key) then (k, value) :: rest
      else (k, v) :: cacheSet rest key value
  end.

(** [manageCacheSize]: deletes the first key when over capacity. *)
Definition manageCacheSize (cache : Cache) : Cache :=
  if Z.of_nat (length cache) >? CACHE_MAX_SIZE then
    match cache with
    | [] => []
    | _ :: rest => rest
    end
  else cache.

(** What the browser offers when a worker is asked for: no [Worker]
    constructor, a worker that starts, or a constructor that throws. *)
Inductive WorkerSupport :=
| NoWorkerAPI
| WorkerStarts
| WorkerFailsToStart.

(** The module state: the cache, and a ghost counter of the runs of a
    fill algorithm (on the main thread or in the worker). *)
Record Orchestrator := mkOrch {
  detectionCache : Cache;
  fillRuns : nat
}.

Definition cacheResult (finalConfig : DetectionConfig) (img : HTMLImageElement)
    (result : list SpriteFrame) (st : Orchestrator) : Orchestrator :=
  if enableCache finalConfig then
    {| detectionCache :=
         manageCacheSize
           (cacheSet (detectionCache st) (getCacheKey img finalConfig) result);
       fillRuns := fillRuns st |}
  else st.

Definition countRun (st : Orchestrator) : Orchestrator :=
  {| detectionCache := detectionCache st; fillRuns := S (fillRuns st) |}.

(** [window.Worker] is truthy. *)
Definition hasWorkerAPI (support : WorkerSupport) : bool :=
  match support with
  | NoWorkerAPI => false
  | WorkerStarts | WorkerFailsToStart => true
  end.

(** [processWithWebWorker].  Without a worker the selected algorithm runs
    on the main thread and its promise is passed on as it is; with one,
    the canvas is read (an exception there is caught by the caller's
    [try]), the fill runs in the worker and its frames are cached. *)
Definition processWithWebWorker (support : WorkerSupport) (imageElement : ImageArg)
    (img : HTMLImageElement) (config : DetectionConfig) (st : Orchestrator)
    : Outcome (list SpriteFrame) * Orchestrator :=
  match support with
  | WorkerStarts =>
      match getImageData img with
      | None => (Rejected (SpriteDetectionError IndexSizeError), st)
      | Some data =>
          match Worker.processImageData data (naturalWidth img)
                  (naturalHeight img) config with
          | Resolved (frames, _) =>
              (Resolved frames, cacheResult config img frames (countRun st))
          | Rejected _ => (Rejected WebWorkerError, countRun st)
          | OutOfFuel => (OutOfFuel, countRun st)
          end
      end
  | NoWorkerAPI | WorkerFailsToStart =>
      (selectAlgorithm config imageElement (asPartial config), countRun st)
  end.

Definition detectSpritesFromImage (support : WorkerSupport) (st : Orchestrator)
    (imageElement : ImageArg) (config : PartialConfig)
    : Outcome (list SpriteFrame) * Orchestrator :=
  match validateInputs imageElement config with
  | inl e => (Rejected (SpriteDetectionError (InvalidInput e)), st)
  | inr img =>
      let finalConfig := mergeConfig config in
      match (if enableCache finalConfig && negb (forceRecalculation finalConfig)
             then cacheGet (detectionCache st) (getCacheKey img finalConfig)
             else None) with
      | Some cached => (Resolved cached, st)
      | None =>
          let algorithm := selectAlgorithm finalConfig in
          if useWebWorker finalConfig && hasWorkerAPI support then
            processWithWebWorker support imageElement img finalConfig st
          else
            match algorithm imageElement (asPartial finalConfig) with
            | Resolved result =>
                (Resolved result, cacheResult finalConfig img result (countRun st))
            | other => (other, countRun st)
            end
      end
  end.

(** ** Cache utilities *)

(** [clearDetectionCache]: [detectionCache.clear()]. *)
Definition clearDetectionCache (st : Orchestrator) : Orchestrator :=
  {| detectionCache := []; fillRuns := fillRuns st |}.

(** The object that [getCacheInfo] returns. *)
Record CacheInfo := mkCacheInfo {
  info_size : Z;
  info_maxSize : Z;
  info_keys : list CacheKey
}.

Definition getCacheInfo (st : Orchestrator) : CacheInfo :=
  {| info_size := Z.of_nat (length (detectionCache st));
     info_maxSize := CACHE_MAX_SIZE;
     info_keys := map fst (detectionCache st) |}.

(** ** Processing in chunks *)

(** An [ImageData]: the browser makes none with a zero width or height.
    [chunkSize] is taken to be an integer. *)
Record ImageData := mkImageData {
  image_width : positive;
  image_height : positive;
  image_data : list Z
}.

(** What a promise of the chunk functions is rejected with. *)
Inductive ChunkFailure :=
| RangeError
| ChunkProcessingError (startRow endRow : Z).

(** A relative index of [subarray], clamped to the array. *)
Definition relativeIndex (len i : Z) : Z :=
  if i <? 0 then Z.max (len + i) 0 else Z.min i len.

(** [arr.subarray(begin, end)] *)
Definition subarray (arr : list Z) (begin end_ : Z) : list Z :=
  let len := Z.of_nat (length arr) in
  let from := relativeIndex len begin in
  let to := relativeIndex len end_ in
  take (Z.to_nat (to - from)) (drop (Z.to_nat from) arr).

(** [target.set(source, offset)]: a [RangeError] when the source does not
    fit. *)
Definition typedArraySet (target source : list Z) (offset : Z) : option (list Z) :=
  if (offset <? 0) || (Z.of_nat (length source) + offset >? Z.of_nat (length target))
  then None
  else Some (take (Z.to_nat offset) target ++ source
             ++ drop (Z.to_nat offset + length source) target).

(** [new Uint8ClampedArray(n)]: a [RangeError] for a negative length. *)
Definition newUint8ClampedArray (n : Z) : option (list Z) :=
  if n <? 0 then None else Some (replicate (Z.to_nat n) 0).

(** The body of the copy loop of [processImageChunk]. *)
Definition copyRow (data : list Z) (startRow width : Z) (chunkData : list Z) (y : Z)
    : option (list Z) :=
  let srcY := startRow + y in
  let srcIndex := srcY * width * 4 in
  let destIndex := y * width * 4 in
  typedArraySet chunkData (subarray data srcIndex (srcIndex + width * 4)) destIndex.

(** The array [chunkData] of [processImageChunk] after the copy loop. *)
Definition chunkCopy (data : list Z) (startRow endRow width : Z) : option (list Z) :=
  let chunkHeight := endRow - startRow in
  match newUint8ClampedArray (width * chunkHeight * 4) with
  | None => None
  | Some chunkData => forEachM (copyRow data startRow width) (seqZ 0 chunkHeight) chunkData
  end.

(** [processImageChunk]: the rows are copied and no frame is looked for;
    an exception in the executor rejects the promise. *)
Definition processImageChunk (data : list Z) (startRow endRow width : Z)
    (config : PartialConfig) : ChunkFailure + list SpriteFrame :=
  match chunkCopy data startRow endRow width with
  | None => inl RangeError
  | Some chunkData => inr []
  end.

(** [config.chunkSize || DEFAULT_CONFIG.chunkSize] *)
Definition effectiveChunkSize (config : PartialConfig) : Z :=
  match p_chunkSize config with
  | Some n => if n =? 0 then chunkSize DEFAULT_CONFIG else n
  | None => chunkSize DEFAULT_CONFIG
  end.

(** [for (let startRow = 0; startRow < h; startRow += rowsPerChunk)]: the
    chunks pushed, or [None] when the fuel runs out. *)
Fixpoint chunkLoop (fuel : nat) (startRow rowsPerChunk h : Z) : option (list (Z * Z)) :=
  match fuel with
  | O => None
  | S fuel' =>
      if startRow <? h then
        cons (startRow, Z.min (startRow + rowsPerChunk) h)
          <$> chunkLoop fuel' (startRow + rowsPerChunk) rowsPerChunk h
      else Some []
  end.

Fixpoint processChunksSequentially (data : list Z) (w : Z) (config : PartialConfig)
    (chunks : list (Z * Z)) (allFrames : list SpriteFrame)
    : ChunkFailure + list SpriteFrame :=
  match chunks with
  | [] => inr allFrames
  | (startRow, endRow) :: rest =>
      match processImageChunk data startRow endRow w config with
      | inl _ => inl (ChunkProcessingError startRow endRow)
      | inr chunkFrames =>
          processChunksSequentially data w config rest (allFrames ++ chunkFrames)
      end
  end.

(** [processImageInChunks]; [None] when the fuel does not take the loop
    that lists the chunks to its end. *)
Definition processImageInChunks (fuel : nat) (imageData : ImageData)
    (config : PartialConfig) : option (ChunkFailure + list SpriteFrame) :=
  let w := Z.pos (image_width imageData) in
  let h := Z.pos (image_height imageData) in
  let data := image_data imageData in
  let chunkSize := effectiveChunkSize config in
  let bytesPerPixel := 4 in
  let pixelsPerChunk := chunkSize / bytesPerPixel in
  let rowsPerChunk := pixelsPerChunk / w in
  if rowsPerChunk >=? h then Some (processImageChunk data 0 h w config)
  else
    match chunkLoop fuel 0 rowsPerChunk h with
    | None => None
    | Some chunks => Some (processChunksSequentially data w config chunks [])
    end.

(** ** The grid guess of main.js *)

(** [acc[val] = (acc[val] || 0) + 1] on an object whose keys are positive
    integers (below [2^32 - 1], as the sides of a frame are): such keys
    are enumerated in ascending order, whatever the order of insertion. *)
Fixpoint bumpCount (acc : list (Z * Z)) (val : Z) : list (Z * Z) :=
  match acc with
  | [] => [(val, 1)]
  | (key, n) :: rest =>
      if val =? key then (key, n + 1) :: rest
      else if val <? key then (val, 1) :: (key, n) :: rest
      else (key, n) :: bumpCount rest val
  end.

(** [findMode] of [guessGrid].  [Math.round(val / 4)] of an integer is
    [floor((val + 2) / 4)]; [null] is [None]. *)
Definition findMode (arr : list Z) : option Z :=
  match arr with
  | [] => None
  | _ =>
      let roundedArr := map (fun val => (val + 2) / 4 * 4) arr in
      let counts :=
        fold_left (fun acc val => if val >? 0 then bumpCount acc val else acc)
                  roundedArr [] in
      mostCommon counts
  end.

(** * Specification vocabulary *)

(** ** Pixels, foreground and regions *)

(** [y * w + x], the index of a pixel in the visited array. *)
Definition pixelIndex (w : Z) (p : Pixel) : Z := snd p * w + fst p.

Definition inImage (w h : Z) (p : Pixel) : Prop :=
  0 <= fst p < w /\ 0 <= snd p < h.

(** A pixel is marked when its cell of the visited array is truthy. *)
Definition marked (visited : list Z) (w : Z) (p : Pixel) : bool :=
  truthy (rd visited (pixelIndex w p)).

(** The pixel that the predicate of the fills does not take for
    background. *)
Definition nonBackground (data : list Z) (w : Z) (bgColor : Color) (tol : Z)
    (p : Pixel) : bool :=
  negb (isBackgroundColor data (pixelIndex w p * 4) bgColor tol).

(** Foreground: a pixel of the image that is not background. *)
Definition foreground (w h : Z) (nonBg : Pixel -> bool) (p : Pixel) : bool :=
  inBounds w h (fst p) (snd p) && nonBg p.

Definition offsetBy (p : Pixel) (d : Z * Z) : Pixel :=
  (fst p + fst d, snd p + snd d).

Arguments offsetBy : simpl never.

(** [q] is a neighbor of [p] for the chosen connectivity. *)
Definition stepTo (nbrs : list (Z * Z)) (p q : Pixel) : Prop :=
  exists d, d ∈ nbrs /\ q = offsetBy p d.

(** The region of [s]: what a walk over foreground neighbors reaches. *)
Inductive connected (fg : Pixel -> bool) (nbrs : list (Z * Z)) (s : Pixel)
    : Pixel -> Prop :=
| connected_refl : connected fg nbrs s s
| connected_step p q :
    connected fg nbrs s p -> stepTo nbrs p q -> fg q = true ->
    connected fg nbrs s q.

(** A duplicate-free enumeration of a set of pixels. *)
Definition enumerates (l : list Pixel) (P : Pixel -> Prop) : Prop :=
  NoDup l /\ forall q, q ∈ l <-> P q.

(** The region of [s] has [n] pixels. *)
Definition regionSize (fg : Pixel -> bool) (nbrs : list (Z * Z)) (s : Pixel)
    (n : Z) : Prop :=
  exists l, enumerates l (connected fg nbrs s) /\ Z.of_nat (length l) = n.

(** [r] is the bounding box of the set [P]. *)
Definition boundingBox (P : Pixel -> Prop) (r : Rect) : Prop :=
  (forall q, P q ->
     rect_x r <= fst q < rect_x r + rect_w r /\
     rect_y r <= snd q < rect_y r + rect_h r) /\
  (exists q, P q /\ fst q = rect_x r) /\
  (exists q, P q /\ fst q = rect_x r + rect_w r - 1) /\
  (exists q, P q /\ snd q = rect_y r) /\
  (exists q, P q /\ snd q = rect_y r + rect_h r - 1).

(** The color of a pixel of the buffer, when all four cells are there. *)
Definition pixelColor (data : list Z) (w : Z) (p : Pixel) : option Color :=
  match sampleAt data (pixelIndex w p * 4) with
  | (Some r, Some g, Some b, Some a) => Some (mkColor r g b a)
  | _ => None
  end.

(** ** The breadth-first traversal shared by the three fills

    The traversal of [floodFill], [countConnectedPixels] and
    [markNoisePixels] with the bookkeeping of each left out: it returns
    the pixels in the order in which they leave the queue. *)

Definition bfsVisit (w h : Z) (nonBg : Pixel -> bool) (c : Pixel)
    (st : list Pixel * list Z) (d : Z * Z) : list Pixel * list Z :=
  let n := offsetBy c d in
  if inBounds w h (fst n) (snd n)
     && (negb (marked (snd st) w n) && nonBg n)
  then (fst st ++ [n], wr (snd st) (pixelIndex w n) 1)
  else st.

Fixpoint bfs (fuel : nat) (w h : Z) (nonBg : Pixel -> bool)
    (nbrs : list (Z * Z)) (queue : list Pixel) (visited : list Z)
    : option (list Pixel * list Z) :=
  match queue with
  | [] => Some ([], visited)
  | c :: rest =>
      match fuel with
      | O => None
      | S fuel' =>
          let st := fold_left (bfsVisit w h nonBg c) nbrs (rest, visited) in
          match bfs fuel' w h nonBg nbrs (fst st) (snd st) with
          | Some (deq, vis) => Some (c :: deq, vis)
          | None => None
          end
      end
  end.

(** Cells of the visited array that are still zero. *)
Definition unmarkedCount (visited : list Z) : nat :=
  length (filter (fun v => v = 0) visited).

(** The neighbor offsets that [floodFill] selects. *)
Definition neighborsOf (config : DetectionConfig) : list (Z * Z) :=
  if use8WayConnectivity config then neighbors8 else neighbors4.

(** The rectangle of a frame made from a fill result. *)
Definition resultRect (result : FillResult) : Rect :=
  {| rect_x := minX result;
     rect_y := minY result;
     rect_w := maxX result - minX result + 1;
     rect_h := maxY result - minY result + 1 |}.

(** The buffer after the pixels of [l] were painted, first to last. *)
Definition paintAll (w : Z) (bgColor : Color) (l : list Pixel) (data : list Z)
    : list Z :=
  fold_left (fun d p => paintPixel d (pixelIndex w p * 4) bgColor) l data.

(** The pixels in the order of the two nested scan loops. *)
Definition scanOrder (w h : Z) : list Pixel :=
  flat_map (fun y => map (fun x => (x, y)) (seqZ 0 w)) (seqZ 0 h).

(** Every offset of the list has its opposite in the list. *)
Definition symmetricOffsets (nbrs : list (Z * Z)) : Prop :=
  forall d, d ∈ nbrs -> (- fst d, - snd d) ∈ nbrs.

(** The four cells that painting a pixel with [bgColor] leaves. *)
Definition paintedSample (bgColor : Color) : Sample :=
  (Some (clamp8 (cr bgColor)), Some (clamp8 (cg bgColor)),
   Some (clamp8 (cb bgColor)), Some (clamp8 (ca bgColor))).

(** ** Noise regions *)

(** [p] lies in a 4-connected foreground region of at most [thr] pixels. *)
Definition smallRegion (fg : Pixel -> bool) (thr : Z) (p : Pixel) : Prop :=
  fg p = true /\ exists n, regionSize fg neighbors4 p n /\ n <= thr.

(** The state of the noise filter after the pixels of [Sc] were scanned:
    [M] lists the pixels painted so far, all of them noise regions of the
    original buffer [data0]. *)
Definition noiseInv (w h : Z) (data0 : list Z) (bgColor : Color) (tol thr : Z)
    (Sc : Pixel -> Prop) (st : list Z * list Z) : Prop :=
  let fg0 := foreground w h (nonBackground data0 w bgColor tol) in
  exists M : list Pixel,
    length (snd st) = Z.to_nat (w * h) /\
    fst st = paintAll w bgColor M data0 /\
    (forall p, inImage w h p -> (marked (snd st) w p = true <-> p ∈ M)) /\
    (forall p, p ∈ M -> smallRegion fg0 thr p) /\
    (forall p q, p ∈ M -> connected fg0 neighbors4 p q -> q ∈ M) /\
    (forall p, Sc p -> smallRegion fg0 thr p -> p ∈ M).

(** ** What the scan emits *)

(** The frame with identifier [i] and rectangle [r]. *)
Definition frameAt (i : nat) (r : Rect) : SpriteFrame :=
  {| frame_id := i;
     frame_name := "sprite_" +:+ pretty i;
     frame_rect := r;
     frame_type := "simple" |}.

(** [r] is what a fill of the region of [s] reports. *)
Definition regionStats (fg : Pixel -> bool) (nbrs : list (Z * Z)) (s : Pixel)
    (r : FillResult) : Prop :=
  regionSize fg nbrs s (pixelCount r) /\
  boundingBox (connected fg nbrs s) (resultRect r).

(** The frames pushed for a sequence of fill results. *)
Definition framesFrom (minSize : Z) (results : list FillResult) : list SpriteFrame :=
  fold_left
    (fun frames r =>
       if pixelCount r >=? minSize
       then frames ++ [frameAt (length frames) (resultRect r)]
       else frames)
    results [].

(** Pixels compared by their place in the scan. *)
Definition scansBefore (w : Z) (p q : Pixel) : Prop :=
  pixelIndex w p < pixelIndex w q.

(** [seeds] lists, in scan order, one pixel per foreground region, each
    the first pixel of its region that the scan meets. *)
Definition regionSeeds (w h : Z) (fg : Pixel -> bool) (nbrs : list (Z * Z))
    (seeds : list Pixel) : Prop :=
  StronglySorted (scansBefore w) seeds /\
  (forall s, s ∈ seeds -> fg s = true) /\
  (forall s s', s ∈ seeds -> s' ∈ seeds -> connected fg nbrs s s' -> s = s') /\
  (forall p, fg p = true ->
     exists s, s ∈ seeds /\ connected fg nbrs s p /\
               pixelIndex w s <= pixelIndex w p).

(** The state of the scan after the pixels of the prefix [done], for an
    image whose regions have the seeds [seeds]. *)
Definition seedsInv (w h : Z) (fg : Pixel -> bool) (nbrs : list (Z * Z))
    (minSize : Z) (seeds : list Pixel) (done : list Pixel) (st : ScanState) : Prop :=
  exists seedsDone seedsTodo results,
    seeds = seedsDone ++ seedsTodo /\
    (forall s, s ∈ seedsDone -> s ∈ done) /\
    (forall s, s ∈ seedsTodo -> s ∉ done) /\
    Forall2 (regionStats fg nbrs) seedsDone results /\
    sFrames st = framesFrom minSize results /\
    length (sVisited st) = Z.to_nat (w * h) /\
    (forall p, inImage w h p ->
       (marked (sVisited st) w p = true <->
        exists s, s ∈ seedsDone /\ connected fg nbrs s p)).

(** [f] frames a foreground region of at least [minSize] pixels. *)
Definition frameOfRegion (fg : Pixel -> bool) (nbrs : list (Z * Z)) (minSize : Z)
    (f : SpriteFrame) : Prop :=
  exists s n,
    fg s = true /\ regionSize fg nbrs s n /\ minSize <= n /\
    boundingBox (connected fg nbrs s) (frame_rect f).

(** The state of the scan of any image after the pixels of [Sc]: the
    marked pixels are whole foreground regions, the frames are frames of
    regions, and every marked region that is large enough has its frame. *)
Definition scanInv (w h : Z) (fg : Pixel -> bool) (nbrs : list (Z * Z))
    (minSize : Z) (Sc : Pixel -> Prop) (st : ScanState) : Prop :=
  length (sVisited st) = Z.to_nat (w * h) /\
  (forall p, inImage w h p -> marked (sVisited st) w p = true -> fg p = true) /\
  (forall p q, inImage w h p -> marked (sVisited st) w p = true ->
     connected fg nbrs p q -> marked (sVisited st) w q = true) /\
  (forall p, Sc p -> fg p = true -> marked (sVisited st) w p = true) /\
  Forall (frameOfRegion fg nbrs minSize) (sFrames st) /\
  (forall i f, sFrames st !! i = Some f -> frame_id f = i) /\
  (forall p n, inImage w h p -> marked (sVisited st) w p = true ->
     regionSize fg nbrs p n -> minSize <= n ->
     exists f, f ∈ sFrames st /\ boundingBox (connected fg nbrs p) (frame_rect f)).

(** ** Rectangular blocks *)

Definition inRect (r : Rect) (p : Pixel) : Prop :=
  rect_x r <= fst p < rect_x r + rect_w r /\
  rect_y r <= snd p < rect_y r + rect_h r.

Definition inRectb (r : Rect) (p : Pixel) : bool :=
  (rect_x r <=? fst p) && (fst p <? rect_x r + rect_w r)
  && (rect_y r <=? snd p) && (snd p <? rect_y r + rect_h r).

Definition rectPixels (r : Rect) : list Pixel :=
  flat_map (fun y => map (fun x => (x, y)) (seqZ (rect_x r) (rect_w r)))
           (seqZ (rect_y r) (rect_h r)).

Definition rectArea (r : Rect) : Z := rect_w r * rect_h r.

Definition topLeft (r : Rect) : Pixel := (rect_x r, rect_y r).

(** A block of at least one pixel that lies inside the image. *)
Definition blockInImage (w h : Z) (r : Rect) : Prop :=
  0 < rect_w r /\ 0 < rect_h r /\
  0 <= rect_x r /\ rect_x r + rect_w r <= w /\
  0 <= rect_y r /\ rect_y r + rect_h r <= h.

(** The distance between the columns (rows) of two blocks: [0] when they
    share a column (row), [1] when their nearest columns (rows) touch. *)
Definition gapX (a b : Rect) : Z :=
  Z.max 0 (Z.max (rect_x b - (rect_x a + rect_w a - 1))
                 (rect_x a - (rect_x b + rect_w b - 1))).

Definition gapY (a b : Rect) : Z :=
  Z.max 0 (Z.max (rect_y b - (rect_y a + rect_h a - 1))
                 (rect_y a - (rect_y b + rect_h b - 1))).

(** The blocks touch at a corner and nowhere else. *)
Definition diagonallyAdjacent (a b : Rect) : Prop := gapX a b = 1 /\ gapY a b = 1.

(** No pixel of one block is a 4-neighbor of a pixel of the other, and
    the blocks share no pixel. *)
Definition separated4 (a b : Rect) : Prop := 2 <= gapX a b + gapY a b.

(** The smallest rectangle around two blocks. *)
Definition unionBox (a b : Rect) : Rect :=
  let x0 := Z.min (rect_x a) (rect_x b) in
  let y0 := Z.min (rect_y a) (rect_y b) in
  {| rect_x := x0;
     rect_y := y0;
     rect_w := Z.max (rect_x a + rect_w a) (rect_x b + rect_w b) - x0;
     rect_h := Z.max (rect_y a + rect_h a) (rect_y b + rect_h b) - y0 |}.

(** The pixels of the image that the predicate takes for foreground are
    exactly those of [shape]. *)
Definition foregroundIs (w h : Z) (data : list Z) (bgColor : Color) (tol : Z)
    (shape : Pixel -> bool) : bool :=
  forallb (fun p => Bool.eqb (nonBackground data w bgColor tol p) (shape p))
          (scanOrder w h).

(** A pixel painted with the background color is itself background. *)
Definition selfBackground (bgColor : Color) (tol : Z) : bool :=
  isBackgroundColor
    [clamp8 (cr bgColor); clamp8 (cg bgColor); clamp8 (cb bgColor); clamp8 (ca bgColor)]
    0 bgColor tol.

(** A buffer of [w * h] pixels, every cell a byte. *)
Definition wellFormedBuffer (w h : Z) (data : list Z) : Prop :=
  length data = Z.to_nat (4 * (w * h)) /\ Forall (fun v => 0 <= v <= 255) data.

(** ** Test images *)

Definition colorBytes (c : Color) : list Z := [cr c; cg c; cb c; ca c].

(** The buffer of a [w] by [h] image whose pixel colors are given by [f]. *)
Definition bufferOf (w h : Z) (f : Pixel -> Color) : list Z :=
  flat_map (fun p => colorBytes (f p)) (scanOrder w h).

(** A complete image with the pixel colors [f]. *)
Definition imageOf (w h : Z) (f : Pixel -> Color) : HTMLImageElement :=
  {| naturalWidth := w; naturalHeight := h; complete := true;
     pixels := bufferOf w h f |}.

Definition white : Color := mkColor 255 255 255 255.
Definition red : Color := mkColor 255 0 0 255.
Definition transparent : Color := mkColor 0 0 0 0.
Definition translucentRed : Color := mkColor 255 0 0 128.

(** Blocks of [fgColor] on a ground of [bgColor]. *)
Definition blocksImage (w h : Z) (blocks : list Rect) (fgColor bgColor : Color)
    : HTMLImageElement :=
  imageOf w h (fun p => if existsb (fun b => inRectb b p) blocks then fgColor else bgColor).

(** A configuration that sets [minSpriteSize] and leaves the rest to
    the defaults. *)
Definition withMinSpriteSize (m : Z) : PartialConfig :=
  {| p_tolerance := None; p_minSpriteSize := Some m;
     p_use8WayConnectivity := None; p_enableLogging := None;
     p_useWebWorker := None; p_algorithm := None; p_enableCache := None;
     p_chunkSize := None; p_useWebGL := None; p_forceRecalculation := None;
     p_enableNoiseReduction := None; p_noiseThreshold := None |}.

(** The 10 by 10 image with a red 3 by 3 block at (2, 2) on white. *)
Definition blockExample : HTMLImageElement :=
  blocksImage 10 10 [mkRect 2 2 3 3] red white.

(** A 3 by 3 white image with one red pixel in the middle. *)
Definition speckExample : HTMLImageElement :=
  blocksImage 3 3 [mkRect 1 1 1 1] red white.

(** A configuration that sets [minSpriteSize] and
    [use8WayConnectivity] and leaves the rest to the defaults. *)
Definition withConnectivity (m : Z) (eightWay : bool) : PartialConfig :=
  {| p_tolerance := None; p_minSpriteSize := Some m;
     p_use8WayConnectivity := Some eightWay; p_enableLogging := None;
     p_useWebWorker := None; p_algorithm := None; p_enableCache := None;
     p_chunkSize := None; p_useWebGL := None; p_forceRecalculation := None;
     p_enableNoiseReduction := None; p_noiseThreshold := None |}.

(** Two red 2 by 2 blocks that touch at a corner, on a white 6 by 6 image. *)
Definition diagonalExample : HTMLImageElement :=
  blocksImage 6 6 [mkRect 1 1 2 2; mkRect 3 3 2 2] red white.

(** Two red pixels that touch at a corner, on a white 4 by 4 image. *)
Definition diagonalSpecks : HTMLImageElement :=
  blocksImage 4 4 [mkRect 1 1 1 1; mkRect 2 2 1 1] red white.

(** Every channel of the color is a byte. *)
Definition byteColor (c : Color) : Prop :=
  0 <= cr c <= 255 /\ 0 <= cg c <= 255 /\ 0 <= cb c <= 255 /\ 0 <= ca c <= 255.

(** A 3 by 1 image: a translucent red pixel, a transparent one, and a
    translucent red one. *)
Definition translucentExample : HTMLImageElement :=
  imageOf 3 1 (fun p => if fst p =? 1 then transparent else translucentRed).

(** The configuration [config] with its [noiseThreshold] replaced. *)
Definition setNoiseThreshold (t : option Z) (config : DetectionConfig)
    : DetectionConfig :=
  {| tolerance := tolerance config;
     minSpriteSize := minSpriteSize config;
     use8WayConnectivity := use8WayConnectivity config;
     enableLogging := enableLogging config;
     useWebWorker := useWebWorker config;
     algorithm := algorithm config;
     enableCache := enableCache config;
     chunkSize := chunkSize config;
     useWebGL := useWebGL config;
     forceRecalculation := forceRecalculation config;
     enableNoiseReduction := enableNoiseReduction config;
     noiseThreshold := t |}.

(** A white 4 by 3 image with a red block of two pixels at (1, 1). *)
Definition pairExample : HTMLImageElement :=
  blocksImage 4 3 [mkRect 1 1 2 1] red white.

(** A white 4 by 4 image whose four corner pixels are red. *)
Definition cornersExample : HTMLImageElement :=
  blocksImage 4 4 [mkRect 0 0 1 1; mkRect 3 0 1 1; mkRect 0 3 1 1; mkRect 3 3 1 1]
    red white.

(** The orchestrator of a freshly loaded module. *)
Definition freshOrchestrator : Orchestrator :=
  {| detectionCache := []; fillRuns := 0 |}.

(** ** Invariants of the traversals *)

(** The invariant of the breadth-first traversal from [s] over a
    [visited] array that started as [V0]: [L] lists the pixels queued so
    far, [E] the (pixel, offset) pairs already examined. *)
Record Inv (w h : Z) (nonBg : Pixel -> bool) (nbrs : list (Z * Z))
    (V0 : list Z) (s : Pixel)
    (E : Pixel -> Z * Z -> Prop) (L : list Pixel) (vis : list Z) : Prop := {
  inv_len : length vis = Z.to_nat (w * h);
  inv_nodup : NoDup L;
  inv_marked : forall p, inImage w h p ->
    (marked vis w p = true <-> marked V0 w p = true \/ p ∈ L);
  inv_conn : forall p, p ∈ L -> connected (foreground w h nonBg) nbrs s p;
  inv_start : s ∈ L;
  inv_examined : forall p d,
    E p d -> foreground w h nonBg (offsetBy p d) = true -> offsetBy p d ∈ L
}.

Arguments inv_len {w h nonBg nbrs V0 s E L vis} _.
Arguments inv_nodup {w h nonBg nbrs V0 s E L vis} _.
Arguments inv_marked {w h nonBg nbrs V0 s E L vis} _.
Arguments inv_conn {w h nonBg nbrs V0 s E L vis} _.
Arguments inv_start {w h nonBg nbrs V0 s E L vis} _.
Arguments inv_examined {w h nonBg nbrs V0 s E L vis} _.

(** While [markNoisePixels] paints: the painted buffer [data] and the
    original [data0] classify the unmarked pixels alike. *)
Definition agreeUnmarked (w h : Z) (bgColor : Color) (tol : Z)
    (data0 data vis : list Z) : Prop :=
  forall p, inImage w h p -> marked vis w p = false ->
            nonBackground data w bgColor tol p = nonBackground data0 w bgColor tol p.

(** Every queued pixel is in the image and marked. *)
Definition goodQueue (w h : Z) (q : list Pixel) (vis : list Z) : Prop :=
  forall p, p ∈ q -> inImage w h p /\ marked vis w p = true.

(** ** Cache scenarios *)

(** [Map.set] followed by [manageCacheSize], for each entry in turn. *)
Definition storeAll (cache : Cache) (entries : list (CacheKey * list SpriteFrame))
    : Cache :=
  fold_left (fun c kv => manageCacheSize (cacheSet c (fst kv) (snd kv))) entries cache.

(** One call of [detectSpritesFromImage] after the other, the same
    configuration for each image. *)
Definition detectAll (support : WorkerSupport) (config : PartialConfig)
    (images : list HTMLImageElement) (st : Orchestrator) : Orchestrator :=
  fold_left
    (fun st img => snd (detectSpritesFromImage support st (ImageElement img) config))
    images st.

(** A white image of one row and [n] columns. *)
Definition stripImage (n : Z) : HTMLImageElement := imageOf n 1 (fun _ => white).

(** The configurations agree on the fields that make the cache key. *)
Definition sameCriticalConfig (c1 c2 : DetectionConfig) : Prop :=
  tolerance c1 = tolerance c2 /\
  minSpriteSize c1 = minSpriteSize c2 /\
  use8WayConnectivity c1 = use8WayConnectivity c2 /\
  algorithm c1 = algorithm c2.

(** The object [config] with its [algorithm] property set. *)
Definition setAlgorithm (a : Algorithm) (config : PartialConfig) : PartialConfig :=
  {| p_tolerance := p_tolerance config;
     p_minSpriteSize := p_minSpriteSize config;
     p_use8WayConnectivity := p_use8WayConnectivity config;
     p_enableLogging := p_enableLogging config;
     p_useWebWorker := p_useWebWorker config;
     p_algorithm := Some a;
     p_enableCache := p_enableCache config;
     p_chunkSize := p_chunkSize config;
     p_useWebGL := p_useWebGL config;
     p_forceRecalculation := p_forceRecalculation config;
     p_enableNoiseReduction := p_enableNoiseReduction config;
     p_noiseThreshold := p_noiseThreshold config |}.

(** The object [config] with [forceRecalculation] set. *)
Definition setForce (force : bool) (config : PartialConfig) : PartialConfig :=
  {| p_tolerance := p_tolerance config;
     p_minSpriteSize := p_minSpriteSize config;
     p_use8WayConnectivity := p_use8WayConnectivity config;
     p_enableLogging := p_enableLogging config;
     p_useWebWorker := p_useWebWorker config;
     p_algorithm := p_algorithm config;
     p_enableCache := p_enableCache config;
     p_chunkSize := p_chunkSize config;
     p_useWebGL := p_useWebGL config;
     p_forceRecalculation := Some force;
     p_enableNoiseReduction := p_enableNoiseReduction config;
     p_noiseThreshold := p_noiseThreshold config |}.

(** The configurations agree on every field the fill algorithm reads. *)
Definition sameDetection (c1 c2 : DetectionConfig) : Prop :=
  tolerance c1 = tolerance c2 /\
  minSpriteSize c1 = minSpriteSize c2 /\
  use8WayConnectivity c1 = use8WayConnectivity c2 /\
  enableNoiseReduction c1 = enableNoiseReduction c2 /\
  noiseThreshold c1 = noiseThreshold c2.

(** An [img] element without a source: loaded, and 0 by 0. *)
Definition emptyImage : HTMLImageElement :=
  {| naturalWidth := 0; naturalHeight := 0; complete := true; pixels := [] |}.

(** The object [config] with [enableCache] set. *)
Definition setCache (on : bool) (config : PartialConfig) : PartialConfig :=
  {| p_tolerance := p_tolerance config;
     p_minSpriteSize := p_minSpriteSize config;
     p_use8WayConnectivity := p_use8WayConnectivity config;
     p_enableLogging := p_enableLogging config;
     p_useWebWorker := p_useWebWorker config;
     p_algorithm := p_algorithm config;
     p_enableCache := Some on;
     p_chunkSize := p_chunkSize config;
     p_useWebGL := p_useWebGL config;
     p_forceRecalculation := p_forceRecalculation config;
     p_enableNoiseReduction := p_enableNoiseReduction config;
     p_noiseThreshold := p_noiseThreshold config |}.

(** Eleven entries, one for each of the strips 1 to 11 wide. *)
Definition elevenEntries : list (CacheKey * list SpriteFrame) :=
  (fun n => (getCacheKey (stripImage n) DEFAULT_CONFIG, [])) <$> seqZ 1 11.

(** ** The border of the image *)

(** A pixel of the first or last row or column. *)
Definition onBorder (w h : Z) (p : Pixel) : Prop :=
  inImage w h p /\ (fst p = 0 \/ fst p = w - 1 \/ snd p = 0 \/ snd p = h - 1).

(** ** Frames against the image and against each other *)

(** The object [config] with [use8WayConnectivity] set. *)
Definition setConnectivity (eightWay : bool) (config : PartialConfig) : PartialConfig :=
  {| p_tolerance := p_tolerance config;
     p_minSpriteSize := p_minSpriteSize config;
     p_use8WayConnectivity := Some eightWay;
     p_enableLogging := p_enableLogging config;
     p_useWebWorker := p_useWebWorker config;
     p_algorithm := p_algorithm config;
     p_enableCache := p_enableCache config;
     p_chunkSize := p_chunkSize config;
     p_useWebGL := p_useWebGL config;
     p_forceRecalculation := p_forceRecalculation config;
     p_enableNoiseReduction := p_enableNoiseReduction config;
     p_noiseThreshold := p_noiseThreshold config |}.

(** The rectangle [a] lies within the rectangle [b]. *)
Definition rectInside (a b : Rect) : Prop :=
  rect_x b <= rect_x a /\ rect_x a + rect_w a <= rect_x b + rect_w b /\
  rect_y b <= rect_y a /\ rect_y a + rect_h a <= rect_y b + rect_h b.

(** ** Sessions *)

(** What a page does with the module, one call after the other. *)
Inductive Call :=
| CallDetect (support : WorkerSupport) (imageElement : ImageArg) (config : PartialConfig)
| CallClear.

Definition runCall (st : Orchestrator) (c : Call) : Orchestrator :=
  match c with
  | CallDetect support imageElement config =>
      snd (detectSpritesFromImage support st imageElement config)
  | CallClear => clearDetectionCache st
  end.

Definition runCalls (calls : list Call) (st : Orchestrator) : Orchestrator :=
  fold_left runCall calls st.

(** A white 10 by 10 image. *)
Definition blankExample : HTMLImageElement := blocksImage 10 10 [] red white.

(** The object [{ enableCache: false }]. *)
Definition withoutCache : PartialConfig := setCache false emptyConfig.

(** ** Chunks *)

(** The rows of a chunk [(startRow, endRow)]. *)
Definition chunkRows (c : Z * Z) : list Z := seqZ (fst c) (snd c - fst c).

(** The object [{ chunkSize: n }]. *)
Definition withChunkSize (n : Z) : PartialConfig :=
  {| p_tolerance := None; p_minSpriteSize := None;
     p_use8WayConnectivity := None; p_enableLogging := None;
     p_useWebWorker := None; p_algorithm := None; p_enableCache := None;
     p_chunkSize := Some n; p_useWebGL := None; p_forceRecalculation := None;
     p_enableNoiseReduction := None; p_noiseThreshold := None |}.

(** The [ImageData] of the 10 by 10 image with one block. *)
Definition blockImageData : ImageData :=
  {| image_width := 10; image_height := 10; image_data := pixels blockExample |}.

(** ** The grid guess *)

(** A side rounded to the nearest multiple of 4, halves upwards. *)
Definition roundTo4 (val : Z) : Z := (val + 2) / 4 * 4.

(** How many sides of [arr] round to [k]. *)
Definition roundedTo (k : Z) (arr : list Z) : Z :=
  Z.of_nat (length (filter (fun val => roundTo4 val = k) arr)).

(** The count that the entries hold for the key [k], 0 without an entry. *)
Fixpoint countOf (acc : list (Z * Z)) (k : Z) : Z :=
  match acc with
  | [] => 0
  | (key, n) :: rest => (if k =? key then n else 0) + countOf rest k
  end.

(** ** Counting pixels *)

(** The pixels of the image that the visited array marks. *)
Definition markedPixels (w h : Z) (visited : list Z) : list Pixel :=
  filter (fun p => marked visited w p = true) (scanOrder w h).

(** The foreground pixels of the image. *)
Definition foregroundPixels (w h : Z) (fg : Pixel -> bool) : list Pixel :=
  filter (fun p => fg p = true) (scanOrder w h).

(** The scan so far: the invariant of the scan, and [processedPixels]
    counts the marked pixels. *)
Definition countInv (w h : Z) (fg : Pixel -> bool) (nbrs : list (Z * Z))
    (minSize : Z) (Sc : Pixel -> Prop) (st : ScanState) : Prop :=
  scanInv w h fg nbrs minSize Sc st /\
  sProcessed st = Z.of_nat (length (markedPixels w h (sVisited st))).

(** The object [{ enableNoiseReduction: false }]. *)
Definition withoutNoiseReduction : PartialConfig :=
  {| p_tolerance := None; p_minSpriteSize := None;
     p_use8WayConnectivity := None; p_enableLogging := None;
     p_useWebWorker := None; p_algorithm := None; p_enableCache := None;
     p_chunkSize := None; p_useWebGL := None; p_forceRecalculation := None;
     p_enableNoiseReduction := Some false; p_noiseThreshold := None |}.

(** The bytes of the rows [startRow] to [endRow - 1] of a buffer whose
    rows are [width] pixels long. *)
Definition rowsOf (data : list Z) (startRow endRow width : Z) : list Z :=
  take (Z.to_nat ((endRow - startRow) * width * 4))
       (drop (Z.to_nat (startRow * width * 4)) data).

(** The object [config] with [minSpriteSize] set. *)
Definition setMinSpriteSize (m : Z) (config : PartialConfig) : PartialConfig :=
  {| p_tolerance := p_tolerance config;
     p_minSpriteSize := Some m;
     p_use8WayConnectivity := p_use8WayConnectivity config;
     p_enableLogging := p_enableLogging config;
     p_useWebWorker := p_useWebWorker config;
     p_algorithm := p_algorithm config;
     p_enableCache := p_enableCache config;
     p_chunkSize := p_chunkSize config;
     p_useWebGL := p_useWebGL config;
     p_forceRecalculation := p_forceRecalculation config;
     p_enableNoiseReduction := p_enableNoiseReduction config;
     p_noiseThreshold := p_noiseThreshold config |}.

(** * Proofs *)

(** ** Typed arrays *)

Lemma length_wr arr i v : length (wr arr i v) = length arr.
Proof.
  unfold wr. destruct (i <? 0); [done|]. apply length_insert.
Qed.

Lemma rd_wr_eq arr i v :
  0 <= i -> (Z.to_nat i < length arr)%nat -> rd (wr arr i v) i = Some v.
Proof.
  intros Hi Hlen. unfold rd, wr.
  destruct (i <? 0) eqn:E; [lia|].
  by apply list_lookup_insert_eq.
Qed.

Lemma rd_wr_ne arr i j v : i <> j -> rd (wr arr i v) j = rd arr j.
Proof.
  intros Hne. unfold rd, wr.
  destruct (j <? 0) eqn:Ej; [done|].
  destruct (i <? 0) eqn:Ei; [done|].
  apply list_lookup_insert_ne. lia.
Qed.

Lemma rd_Some_lt arr i v : rd arr i = Some v -> 0 <= i /\ (Z.to_nat i < length arr)%nat.
Proof.
  unfold rd. destruct (i <? 0) eqn:E; [done|].
  intros H. apply lookup_lt_Some in H. lia.
Qed.

Lemma rd_in_range arr i :
  0 <= i -> (Z.to_nat i < length arr)%nat -> exists v, rd arr i = Some v.
Proof.
  intros Hi Hlen. unfold rd. destruct (i <? 0) eqn:E; [lia|].
  destruct (lookup_lt_is_Some_2 arr (Z.to_nat i) Hlen) as [v Hv]. eauto.
Qed.

Lemma rd_newUint8Array n i v : rd (newUint8Array n) i = Some v -> v = 0.
Proof.
  unfold rd, newUint8Array. destruct (i <? 0); [done|].
  intros H. apply lookup_replicate in H. tauto.
Qed.

Lemma length_newUint8Array n : length (newUint8Array n) = Z.to_nat n.
Proof. apply length_replicate. Qed.

(** ** Pixels and their indices *)

Lemma inBounds_spec w h x y : inBounds w h x y = true <-> inImage w h (x, y).
Proof.
  unfold inBounds, inImage; simpl.
  rewrite !andb_true_iff, !Z.leb_le, !Z.ltb_lt. lia.
Qed.

Lemma inBounds_false w h x y : inBounds w h x y = false <-> ~ inImage w h (x, y).
Proof.
  rewrite <- inBounds_spec. destruct (inBounds w h x y); split; congruence.
Qed.

Lemma pixelIndex_range w h p :
  inImage w h p -> 0 <= pixelIndex w p < w * h.
Proof.
  unfold inImage, pixelIndex. destruct p as [x y]; simpl. intros [Hx Hy]. nia.
Qed.

Lemma pixelIndex_inj w h p q :
  inImage w h p -> inImage w h q -> pixelIndex w p = pixelIndex w q -> p = q.
Proof.
  unfold inImage, pixelIndex. destruct p as [x1 y1], q as [x2 y2]; simpl.
  intros [Hx1 Hy1] [Hx2 Hy2] Heq.
  assert (y1 = y2) by nia. subst. f_equal. lia.
Qed.

Lemma pixelIndex_lt_length w h p (visited : list Z) :
  inImage w h p -> length visited = Z.to_nat (w * h) ->
  (Z.to_nat (pixelIndex w p) < length visited)%nat.
Proof.
  intros Hin Hlen. pose proof (pixelIndex_range w h p Hin). lia.
Qed.

(** ** Marks *)

Lemma marked_wr_same w h (visited : list Z) p :
  inImage w h p -> length visited = Z.to_nat (w * h) ->
  marked (wr visited (pixelIndex w p) 1) w p = true.
Proof.
  intros Hin Hlen. unfold marked.
  rewrite rd_wr_eq; [done| |].
  - pose proof (pixelIndex_range w h p Hin). lia.
  - by eapply pixelIndex_lt_length.
Qed.

Lemma marked_wr_other w h (visited : list Z) p q :
  inImage w h p -> inImage w h q -> p <> q ->
  marked (wr visited (pixelIndex w p) 1) w q = marked visited w q.
Proof.
  intros Hp Hq Hne. unfold marked.
  rewrite rd_wr_ne; [done|].
  intros Heq. apply Hne. by eapply pixelIndex_inj.
Qed.

Lemma marked_wr w h (visited : list Z) p q :
  inImage w h p -> inImage w h q -> length visited = Z.to_nat (w * h) ->
  marked (wr visited (pixelIndex w p) 1) w q = true <->
  q = p \/ marked visited w q = true.
Proof.
  intros Hp Hq Hlen. destruct (decide (q = p)) as [->|Hne].
  - rewrite (marked_wr_same w h) by done. tauto.
  - rewrite (marked_wr_other w h) by done. tauto.
Qed.

Lemma marked_newUint8Array n w p : marked (newUint8Array n) w p = false.
Proof.
  unfold marked. destruct (rd _ _) as [v|] eqn:E; [|done].
  apply rd_newUint8Array in E. by subst.
Qed.

Lemma unmarkedCount_insert (visited : list Z) (i : nat) :
  visited !! i = Some 0 ->
  (unmarkedCount (<[i := 1%Z]> visited) + 1 = unmarkedCount visited)%nat.
Proof.
  unfold unmarkedCount. revert i.
  induction visited as [|v vs IH]; intros i H.
  - by destruct i.
  - destruct i as [|i]; simpl in H.
    + inversion H; subst.
      change (<[0%nat := 1]> (0 :: vs)) with (1 :: vs).
      rewrite !filter_cons.
      destruct (decide (1 = 0)); [lia|].
      destruct (decide (0 = 0)); [|lia]. simpl. lia.
    + specialize (IH i H).
      change (<[S i := 1]> (v :: vs)) with (v :: <[i := 1]> vs).
      rewrite !filter_cons.
      destruct (decide (v = 0)); simpl; lia.
Qed.

Lemma unmarkedCount_wr w h (visited : list Z) p :
  inImage w h p -> length visited = Z.to_nat (w * h) ->
  marked visited w p = false ->
  (unmarkedCount (wr visited (pixelIndex w p) 1%Z) + 1 = unmarkedCount visited)%nat.
Proof.
  intros Hin Hlen Hm.
  pose proof (pixelIndex_range w h p Hin) as Hr.
  pose proof (pixelIndex_lt_length w h p visited Hin Hlen) as Hl.
  destruct (rd_in_range visited (pixelIndex w p)) as [v Hv]; [lia|done|].
  unfold marked in Hm. rewrite Hv in Hm. simpl in Hm.
  assert (v = 0) by (destruct (Z.eqb_spec v 0); [done|discriminate]). subst.
  unfold rd in Hv. unfold wr.
  destruct (pixelIndex w p <? 0) eqn:E; [lia|].
  by apply unmarkedCount_insert.
Qed.

Lemma unmarkedCount_le (visited : list Z) :
  (unmarkedCount visited <= length visited)%nat.
Proof. unfold unmarkedCount. apply length_filter. Qed.

(** ** The breadth-first traversal *)

Section Traversal.

  Variables (w h : Z) (nonBg : Pixel -> bool) (nbrs : list (Z * Z)).

  Local Notation "'fg'" := (foreground w h nonBg).

Lemma foreground_inImage p : fg p = true -> inImage w h p.
  Proof.
    unfold foreground. rewrite andb_true_iff. intros [H _].
    apply inBounds_spec in H. by destruct p.
  Qed.

Lemma foreground_nonBg p : fg p = true -> nonBg p = true.
  Proof. unfold foreground. rewrite andb_true_iff. tauto. Qed.

Lemma foreground_intro p : inImage w h p -> nonBg p = true -> fg p = true.
  Proof.
    intros Hin Hn. unfold foreground. rewrite Hn, andb_true_r.
    apply inBounds_spec. by destruct p.
  Qed.

  (** *** Termination: the fuel is enough *)

Lemma bfsVisit_measure c (st : list Pixel * list Z) d :
    length (snd st) = Z.to_nat (w * h) ->
    length (snd (bfsVisit w h nonBg c st d)) = Z.to_nat (w * h) /\
    (unmarkedCount (snd (bfsVisit w h nonBg c st d))
       + length (fst (bfsVisit w h nonBg c st d))
     = unmarkedCount (snd st) + length (fst st))%nat.
  Proof.
    intros Hlen. unfold bfsVisit.
    destruct (inBounds w h _ _) eqn:Hb; simpl; [|done].
    destruct (marked (snd st) w (offsetBy c d)) eqn:Hm; simpl; [done|].
    destruct (nonBg (offsetBy c d)); simpl; [|done].
    apply inBounds_spec in Hb.
    assert (inImage w h (offsetBy c d)) as Hin by (by destruct (offsetBy c d)).
    split; [by rewrite length_wr|].
    rewrite length_app; simpl.
    pose proof (unmarkedCount_wr w h (snd st) _ Hin Hlen Hm). lia.
  Qed.

Lemma fold_bfsVisit_measure c ds (st : list Pixel * list Z) :
    length (snd st) = Z.to_nat (w * h) ->
    length (snd (fold_left (bfsVisit w h nonBg c) ds st)) = Z.to_nat (w * h) /\
    (unmarkedCount (snd (fold_left (bfsVisit w h nonBg c) ds st))
       + length (fst (fold_left (bfsVisit w h nonBg c) ds st))
     = unmarkedCount (snd st) + length (fst st))%nat.
  Proof.
    revert st. induction ds as [|d ds IH]; intros st Hlen; simpl; [done|].
    destruct (bfsVisit_measure c st d Hlen) as [Hl Hm].
    destruct (IH _ Hl) as [Hl' Hm']. split; [done|lia].
  Qed.

Lemma bfs_total fuel queue visited :
    length visited = Z.to_nat (w * h) ->
    (unmarkedCount visited + length queue < fuel)%nat ->
    is_Some (bfs fuel w h nonBg nbrs queue visited).
  Proof.
    revert queue visited.
    induction fuel as [|fuel IH]; intros queue visited Hlen Hfuel; [lia|].
    destruct queue as [|c rest]; simpl; [by eexists|].
    destruct (fold_bfsVisit_measure c nbrs (rest, visited) Hlen) as [Hl Hm].
    simpl in Hfuel, Hm.
    destruct (IH (fst (fold_left (bfsVisit w h nonBg c) nbrs (rest, visited))) _ Hl)
      as [[deq vis] Hr]; [lia|].
    rewrite Hr. by eexists.
  Qed.

Lemma bfs_length fuel queue visited deq vis :
    length visited = Z.to_nat (w * h) ->
    bfs fuel w h nonBg nbrs queue visited = Some (deq, vis) ->
    length vis = Z.to_nat (w * h).
  Proof.
    revert queue visited deq vis.
    induction fuel as [|fuel IH]; intros queue visited deq vis Hlen Hr.
    - destruct queue; simpl in Hr; [|done]. by inversion Hr; subst.
    - destruct queue as [|c rest]; simpl in Hr; [by inversion Hr; subst|].
      destruct (fold_bfsVisit_measure c nbrs (rest, visited) Hlen) as [Hl _].
      destruct (bfs fuel _ _ _ _ _ _) as [[deq' vis']|] eqn:E; [|done].
      inversion Hr; subst. by eapply IH.
  Qed.

  (** *** Correctness: the traversal takes the region out of the queue *)

  Variables (V0 : list Z) (s : Pixel).
  Hypothesis HV0 : length V0 = Z.to_nat (w * h).
  Hypothesis Hs : fg s = true.
  Hypothesis Hfresh : forall q, connected fg nbrs s q -> marked V0 w q = false.

Lemma connected_fg q : connected fg nbrs s q -> fg q = true.
  Proof. by destruct 1. Qed.

  Local Notation "'INV'" := (Inv w h nonBg nbrs V0 s).

Lemma Inv_weaken (E E' : Pixel -> Z * Z -> Prop) L vis :
    (forall p d, E' p d -> E p d) -> INV E L vis -> INV E' L vis.
  Proof. intros HE [? ? ? ? ? Hex]. split; auto. Qed.

Lemma Inv_init :
    INV (fun _ _ => False) [s] (wr V0 (pixelIndex w s) 1).
  Proof.
    pose proof (foreground_inImage s Hs) as Hin.
    split.
    - by rewrite length_wr.
    - apply NoDup_singleton.
    - intros p Hp. rewrite (marked_wr w h) by done.
      rewrite list_elem_of_singleton. tauto.
    - intros p Hp. apply list_elem_of_singleton in Hp. subst. constructor.
    - by apply list_elem_of_singleton.
    - tauto.
  Qed.

Lemma bfsVisit_inv E L q vis c d :
    INV E L vis -> c ∈ L -> d ∈ nbrs ->
    exists new,
      fst (bfsVisit w h nonBg c (q, vis) d) = q ++ new /\
      INV (fun p e => E p e \/ (p = c /\ e = d)) (L ++ new)
          (snd (bfsVisit w h nonBg c (q, vis) d)).
  Proof.
    intros HI Hc Hd. unfold bfsVisit. cbv zeta. cbn [fst snd].
    set (n := offsetBy c d).
    assert (connected fg nbrs s c) as Hcc by (by apply (inv_conn HI)).
    destruct (inBounds w h (fst n) (snd n)
              && (negb (marked vis w n) && nonBg n)) eqn:Hcond.
    - apply andb_true_iff in Hcond as [Hb Hcond].
      apply andb_true_iff in Hcond as [Hm Hn].
      apply negb_true_iff in Hm.
      apply inBounds_spec in Hb.
      assert (inImage w h n) as Hin by (by destruct n).
      assert (fg n = true) as Hfg by (by apply foreground_intro).
      assert (n ∉ L) as HnL.
      { intros HnL. assert (marked vis w n = true); [|congruence].
        apply (inv_marked HI); auto. }
      exists [n]. split; [done|]. cbn [fst snd]. split.
      + rewrite length_wr. apply (inv_len HI).
      + apply NoDup_app. split; [apply (inv_nodup HI)|]. split.
        * intros x Hx Hx'. apply list_elem_of_singleton in Hx'. by subst.
        * apply NoDup_singleton.
      + intros p Hp. rewrite (marked_wr w h) by (done || apply (inv_len HI)).
        rewrite (inv_marked HI p Hp), elem_of_app, list_elem_of_singleton.
        tauto.
      + intros p Hp. apply elem_of_app in Hp as [Hp|Hp].
        * by apply (inv_conn HI).
        * apply list_elem_of_singleton in Hp. subst p.
          eapply connected_step; [exact Hcc| |exact Hfg]. by exists d.
      + apply elem_of_app. left. apply (inv_start HI).
      + intros p e [HE|[-> ->]] Hf.
        * apply elem_of_app. left. by apply (inv_examined HI).
        * apply elem_of_app. right. by apply list_elem_of_singleton.
    - exists []. rewrite !app_nil_r. split; [done|]. cbn [fst snd].
      destruct HI as [Hl Hnd Hmk Hcn Hst Hex]. split; auto.
      intros p e [HE|[-> ->]] Hf; [by apply Hex|].
      fold n in Hf.
      pose proof (foreground_inImage n Hf) as Hin.
      pose proof (foreground_nonBg n Hf) as Hn.
      assert (inBounds w h (fst n) (snd n) = true) as Hb.
      { apply inBounds_spec. by destruct n. }
      rewrite Hb, Hn, andb_true_r in Hcond. simpl in Hcond.
      apply negb_false_iff in Hcond.
      apply Hmk in Hcond as [HV|HL]; [|done|done].
      rewrite Hfresh in HV; [done|].
      eapply connected_step; [exact Hcc| |exact Hf]. by exists d.
  Qed.

Lemma fold_bfsVisit_inv ds E L q vis c :
    INV E L vis -> c ∈ L -> (forall d, d ∈ ds -> d ∈ nbrs) ->
    exists new,
      fst (fold_left (bfsVisit w h nonBg c) ds (q, vis)) = q ++ new /\
      INV (fun p e => E p e \/ (p = c /\ e ∈ ds)) (L ++ new)
          (snd (fold_left (bfsVisit w h nonBg c) ds (q, vis))).
  Proof.
    revert E L q vis.
    induction ds as [|d ds IH]; intros E L q vis HI Hc Hds; simpl.
    - exists []. rewrite !app_nil_r. split; [done|].
      eapply Inv_weaken; [|exact HI]. intros p e [?|[_ He]]; [done|].
      by apply elem_of_nil in He.
    - destruct (bfsVisit_inv E L q vis c d HI Hc) as (new1 & Hq1 & HI1).
      { apply Hds. by left. }
      destruct (bfsVisit w h nonBg c (q, vis) d) as [q1 vis1] eqn:E1.
      simpl in Hq1, HI1. subst q1.
      destruct (IH _ _ (q ++ new1) vis1 HI1) as (new2 & Hq2 & HI2).
      { apply elem_of_app. by left. }
      { intros e He. apply Hds. by right. }
      exists (new1 ++ new2). rewrite Hq2, !app_assoc. split; [done|].
      eapply Inv_weaken; [|exact HI2].
      intros p e [HE|[-> He]]; [by left; left|].
      apply elem_of_cons in He as [->|He]; [left; right; done|right; done].
  Qed.

Lemma bfs_inv fuel D q vis deq vis' :
    INV (fun p e => p ∈ D /\ e ∈ nbrs) (D ++ q) vis ->
    bfs fuel w h nonBg nbrs q vis = Some (deq, vis') ->
    INV (fun p e => p ∈ D ++ deq /\ e ∈ nbrs) (D ++ deq) vis'.
  Proof.
    revert D q vis deq vis'.
    induction fuel as [|fuel IH]; intros D q vis deq vis' HI Hr.
    - destruct q; simpl in Hr; [|done]. inversion Hr; subst.
      rewrite app_nil_r in *. exact HI.
    - destruct q as [|c rest]; simpl in Hr;
        [inversion Hr; subst; rewrite app_nil_r in *; exact HI|].
      destruct (fold_bfsVisit_inv nbrs _ _ rest vis c HI) as (new & Hq & HI1).
      { apply elem_of_app. right. by left. }
      { done. }
      destruct (fold_left (bfsVisit w h nonBg c) nbrs (rest, vis)) as [q1 vis1] eqn:E1.
      simpl in Hq, HI1, Hr. subst q1.
      destruct (bfs fuel w h nonBg nbrs (rest ++ new) vis1) as [[deq1 vis2]|] eqn:E2;
        [|done].
      inversion Hr; subst. clear Hr.
      assert (INV (fun p e => p ∈ D ++ [c] /\ e ∈ nbrs)
                ((D ++ [c]) ++ rest ++ new) vis1) as HI2.
      { replace ((D ++ [c]) ++ rest ++ new) with ((D ++ c :: rest) ++ new)
          by (by rewrite <- !app_assoc).
        eapply Inv_weaken; [|exact HI1].
        intros p e [Hp He]. apply elem_of_app in Hp as [Hp|Hp]; [by left|].
        apply list_elem_of_singleton in Hp. by right. }
      specialize (IH _ _ _ _ _ HI2 E2).
      replace (D ++ c :: deq1) with ((D ++ [c]) ++ deq1)
        by (by rewrite <- app_assoc).
      exact IH.
  Qed.

Lemma Inv_final D vis :
    INV (fun p e => p ∈ D /\ e ∈ nbrs) D vis ->
    forall q, q ∈ D <-> connected fg nbrs s q.
  Proof.
    intros HI q. split; [apply (inv_conn HI)|].
    induction 1 as [|p q Hp IH [d [Hd ->]] Hf].
    - apply (inv_start HI).
    - by apply (inv_examined HI).
  Qed.

  (** The traversal from [s] terminates within the fuel, lists the region
      of [s] without repetition and marks exactly that region. *)
Theorem bfs_spec :
    exists deq vis,
      bfs (loopFuel w h) w h nonBg nbrs [s] (wr V0 (pixelIndex w s) 1)
        = Some (deq, vis) /\
      enumerates deq (connected fg nbrs s) /\
      length vis = Z.to_nat (w * h) /\
      (forall p, inImage w h p ->
         (marked vis w p = true <->
          marked V0 w p = true \/ connected fg nbrs s p)).
  Proof.
    pose proof (foreground_inImage s Hs) as Hin.
    assert (marked V0 w s = false) as Hms by (apply Hfresh; constructor).
    destruct (bfs_total (loopFuel w h) [s] (wr V0 (pixelIndex w s) 1))
      as [[deq vis] Hr].
    { by rewrite length_wr. }
    { pose proof (unmarkedCount_wr w h V0 s Hin HV0 Hms).
      pose proof (unmarkedCount_le V0). unfold loopFuel. simpl. lia. }
    exists deq, vis. split; [done|].
    assert (INV (fun p e => p ∈ [] ++ deq /\ e ∈ nbrs) ([] ++ deq) vis) as HI.
    { eapply bfs_inv; [|exact Hr]. simpl.
      eapply Inv_weaken; [|apply Inv_init]. intros p e [Hp _].
      by apply elem_of_nil in Hp. }
    simpl in HI. pose proof (Inv_final deq vis HI) as Hfin.
    split; [split; [apply (inv_nodup HI)|exact Hfin]|].
    split; [apply (inv_len HI)|].
    intros p Hp. rewrite (inv_marked HI p Hp). by rewrite Hfin.
  Qed.

End Traversal.

(** ** The three fills are the traversal with bookkeeping *)

Lemma fold_min_le l a : fold_left Z.min l a <= a.
Proof.
  revert a. induction l as [|v l IH]; intros a; simpl; [lia|].
  specialize (IH (Z.min a v)). lia.
Qed.

Lemma fold_min_lower l a v : v ∈ l -> fold_left Z.min l a <= v.
Proof.
  revert a. induction l as [|u l IH]; intros a Hv; simpl.
  - by apply elem_of_nil in Hv.
  - apply elem_of_cons in Hv as [->|Hv]; [|by apply IH].
    pose proof (fold_min_le l (Z.min a u)). lia.
Qed.

Lemma fold_min_attained l a : fold_left Z.min l a = a \/ fold_left Z.min l a ∈ l.
Proof.
  revert a. induction l as [|u l IH]; intros a; simpl; [by left|].
  destruct (IH (Z.min a u)) as [H|H].
  - rewrite H. destruct (Z.min_spec a u) as [[_ ->]|[_ ->]]; [by left|].
    right. by left.
  - right. by right.
Qed.

Lemma fold_max_ge l a : a <= fold_left Z.max l a.
Proof.
  revert a. induction l as [|v l IH]; intros a; simpl; [lia|].
  specialize (IH (Z.max a v)). lia.
Qed.

Lemma fold_max_upper l a v : v ∈ l -> v <= fold_left Z.max l a.
Proof.
  revert a. induction l as [|u l IH]; intros a Hv; simpl.
  - by apply elem_of_nil in Hv.
  - apply elem_of_cons in Hv as [->|Hv]; [|by apply IH].
    pose proof (fold_max_ge l (Z.max a u)). lia.
Qed.

Lemma fold_max_attained l a : fold_left Z.max l a = a \/ fold_left Z.max l a ∈ l.
Proof.
  revert a. induction l as [|u l IH]; intros a; simpl; [by left|].
  destruct (IH (Z.max a u)) as [H|H].
  - rewrite H. destruct (Z.max_spec a u) as [[_ ->]|[_ ->]]; [|by left].
    right. by left.
  - right. by right.
Qed.

Section Fills.

  Variables (w h : Z) (bgColor : Color) (tol : Z).

  Local Notation "'nonBg' data" := (nonBackground data w bgColor tol)
    (at level 10, data at level 9).

  (** *** [floodFill] *)

Lemma floodFillVisit_bfs data cx cy st d :
    floodFillVisit w h data bgColor tol cx cy st d =
    {| fQueue := fst (bfsVisit w h (nonBg data) (cx, cy) (fQueue st, fVisited st) d);
       fVisited := snd (bfsVisit w h (nonBg data) (cx, cy) (fQueue st, fVisited st) d);
       fMinX := fMinX st; fMinY := fMinY st;
       fMaxX := fMaxX st; fMaxY := fMaxY st;
       fPixelCount :=
         fPixelCount st
         + Z.of_nat (length (fst (bfsVisit w h (nonBg data) (cx, cy)
                                    (fQueue st, fVisited st) d)))
         - Z.of_nat (length (fQueue st)) |}.
  Proof.
    unfold floodFillVisit, bfsVisit, offsetBy, marked, nonBackground, pixelIndex.
    cbn [fst snd].
    destruct (inBounds w h (cx + fst d) (cy + snd d)); cbn [andb].
    - destruct (negb (truthy _) && negb (isBackgroundColor _ _ _ _));
        cbn [fst snd]; destruct st; cbn; f_equal; rewrite ?length_app; simpl; lia.
    - destruct st; cbn; f_equal; lia.
  Qed.

Lemma fold_floodFillVisit_bfs data cx cy ds st :
    fold_left (floodFillVisit w h data bgColor tol cx cy) ds st =
    {| fQueue := fst (fold_left (bfsVisit w h (nonBg data) (cx, cy)) ds
                        (fQueue st, fVisited st));
       fVisited := snd (fold_left (bfsVisit w h (nonBg data) (cx, cy)) ds
                          (fQueue st, fVisited st));
       fMinX := fMinX st; fMinY := fMinY st;
       fMaxX := fMaxX st; fMaxY := fMaxY st;
       fPixelCount :=
         fPixelCount st
         + Z.of_nat (length (fst (fold_left (bfsVisit w h (nonBg data) (cx, cy)) ds
                                    (fQueue st, fVisited st))))
         - Z.of_nat (length (fQueue st)) |}.
  Proof.
    revert st. induction ds as [|d ds IH]; intros st.
    - destruct st; cbn. f_equal. lia.
    - cbn [fold_left]. rewrite IH, floodFillVisit_bfs. cbn [fQueue fVisited fMinX
        fMinY fMaxX fMaxY fPixelCount].
      destruct (bfsVisit w h (nonBg data) (cx, cy) (fQueue st, fVisited st) d)
        as [q1 v1]; cbn [fst snd].
      f_equal. lia.
  Qed.

Lemma floodFillLoop_bfs data nbrs fuel st :
    floodFillLoop fuel w h data bgColor tol nbrs st =
    match bfs fuel w h (nonBg data) nbrs (fQueue st) (fVisited st) with
    | Some (deq, vis) =>
        Some {| fQueue := [];
                fVisited := vis;
                fMinX := fold_left Z.min (map fst deq) (fMinX st);
                fMinY := fold_left Z.min (map snd deq) (fMinY st);
                fMaxX := fold_left Z.max (map fst deq) (fMaxX st);
                fMaxY := fold_left Z.max (map snd deq) (fMaxY st);
                fPixelCount :=
                  fPixelCount st + Z.of_nat (length deq)
                  - Z.of_nat (length (fQueue st)) |}
    | None => None
    end.
  Proof.
    revert st. induction fuel as [|fuel IH]; intros st.
    - destruct st as [[|[cx cy] rest] vis ? ? ? ? ?]; cbn; [|done].
      do 2 f_equal. lia.
    - destruct st as [[|[cx cy] rest] vis mx my Mx My n]; cbn - [fold_left].
      + do 2 f_equal. lia.
      + rewrite IH, fold_floodFillVisit_bfs.
        cbn [fQueue fVisited fMinX fMinY fMaxX fMaxY fPixelCount].
        destruct (fold_left (bfsVisit w h (nonBg data) (cx, cy)) nbrs (rest, vis))
          as [q1 v1]; cbn [fst snd].
        destruct (bfs fuel w h (nonBg data) nbrs q1 v1) as [[deq vis']|]; [|done].
        cbn. do 2 f_equal. lia.
  Qed.

  (** *** [countConnectedPixels] *)

Lemma countVisit_bfs data cx cy st d :
    countVisit w h data bgColor tol cx cy st d =
    {| cQueue := fst (bfsVisit w h (nonBg data) (cx, cy) (cQueue st, cVisited st) d);
       cVisited := snd (bfsVisit w h (nonBg data) (cx, cy) (cQueue st, cVisited st) d);
       cCount :=
         cCount st
         + Z.of_nat (length (fst (bfsVisit w h (nonBg data) (cx, cy)
                                    (cQueue st, cVisited st) d)))
         - Z.of_nat (length (cQueue st)) |}.
  Proof.
    unfold countVisit, bfsVisit, offsetBy, marked, nonBackground, pixelIndex.
    cbn [fst snd].
    destruct (inBounds w h (cx + fst d) (cy + snd d)); cbn [andb].
    - destruct (negb (truthy _) && negb (isBackgroundColor _ _ _ _));
        cbn [fst snd]; destruct st; cbn; f_equal; rewrite ?length_app; simpl; lia.
    - destruct st; cbn; f_equal; lia.
  Qed.

Lemma fold_countVisit_bfs data cx cy ds st :
    fold_left (countVisit w h data bgColor tol cx cy) ds st =
    {| cQueue := fst (fold_left (bfsVisit w h (nonBg data) (cx, cy)) ds
                        (cQueue st, cVisited st));
       cVisited := snd (fold_left (bfsVisit w h (nonBg data) (cx, cy)) ds
                          (cQueue st, cVisited st));
       cCount :=
         cCount st
         + Z.of_nat (length (fst (fold_left (bfsVisit w h (nonBg data) (cx, cy)) ds
                                    (cQueue st, cVisited st))))
         - Z.of_nat (length (cQueue st)) |}.
  Proof.
    revert st. induction ds as [|d ds IH]; intros st.
    - destruct st; cbn. f_equal. lia.
    - cbn [fold_left]. rewrite IH, countVisit_bfs. cbn [cQueue cVisited cCount].
      destruct (bfsVisit w h (nonBg data) (cx, cy) (cQueue st, cVisited st) d)
        as [q1 v1]; cbn [fst snd].
      f_equal. lia.
  Qed.

Lemma countLoop_bfs data fuel st :
    countLoop fuel w h data bgColor tol st =
    match bfs fuel w h (nonBg data) neighbors4 (cQueue st) (cVisited st) with
    | Some (deq, vis) =>
        Some {| cQueue := [];
                cVisited := vis;
                cCount :=
                  cCount st + Z.of_nat (length deq) - Z.of_nat (length (cQueue st)) |}
    | None => None
    end.
  Proof.
    revert st. induction fuel as [|fuel IH]; intros st.
    - destruct st as [[|[cx cy] rest] vis ?]; cbn; [|done].
      do 2 f_equal. lia.
    - destruct st as [[|[cx cy] rest] vis n]; cbn - [fold_left neighbors4].
      + do 2 f_equal. lia.
      + rewrite IH, fold_countVisit_bfs.
        cbn [cQueue cVisited cCount].
        destruct (fold_left (bfsVisit w h (nonBg data) (cx, cy)) neighbors4 (rest, vis))
          as [q1 v1]; cbn [fst snd].
        destruct (bfs fuel w h (nonBg data) neighbors4 q1 v1) as [[deq vis']|]; [|done].
        cbn. do 2 f_equal. lia.
  Qed.

End Fills.

(** *** [markNoisePixels]: the traversal on a buffer that is being painted *)

Lemma rd_paintPixel_other data i j bgColor :
  (j < i \/ i + 3 < j) -> rd (paintPixel data i bgColor) j = rd data j.
Proof.
  intros H. unfold paintPixel. rewrite !rd_wr_ne by lia. done.
Qed.

Lemma length_paintPixel data i bgColor :
  length (paintPixel data i bgColor) = length data.
Proof. unfold paintPixel. by rewrite !length_wr. Qed.

Lemma isBackgroundColor_paint_other data i j bgColor' bgColor tol :
  i <> j ->
  isBackgroundColor (paintPixel data (i * 4) bgColor') (j * 4) bgColor tol
  = isBackgroundColor data (j * 4) bgColor tol.
Proof.
  intros Hne. unfold isBackgroundColor.
  rewrite !rd_paintPixel_other by lia. done.
Qed.

Section Mark.

  Variables (w h : Z) (bgColor : Color) (tol : Z) (data0 : list Z).

  Local Notation "'nonBg0'" := (nonBackground data0 w bgColor tol).

  Local Notation "'agree'" := (agreeUnmarked w h bgColor tol data0).
  Local Notation "'queued'" := (goodQueue w h).

Lemma bfsVisit_mono nonBg c q vis d p :
    length vis = Z.to_nat (w * h) -> inImage w h p ->
    marked vis w p = true ->
    marked (snd (bfsVisit w h nonBg c (q, vis) d)) w p = true.
  Proof.
    intros Hlen Hp Hm. unfold bfsVisit. cbv zeta. cbn [fst snd].
    destruct (inBounds w h _ _) eqn:Hb; cbn [andb fst snd]; [|done].
    destruct (negb (marked vis w (offsetBy c d)) && nonBg (offsetBy c d));
      cbn [fst snd]; [|done].
    apply inBounds_spec in Hb.
    apply (marked_wr w h); [by destruct (offsetBy c d)|done|done|by right].
  Qed.

Lemma bfsVisit_goodQueue nonBg c q vis d :
    length vis = Z.to_nat (w * h) -> queued q vis ->
    queued (fst (bfsVisit w h nonBg c (q, vis) d))
              (snd (bfsVisit w h nonBg c (q, vis) d)).
  Proof.
    intros Hlen Hq p Hp.
    pose proof (bfsVisit_mono nonBg c q vis d) as Hmono.
    revert Hp Hmono. unfold bfsVisit. cbv zeta. cbn [fst snd].
    destruct (inBounds w h _ _) eqn:Hb; cbn [andb fst snd]; [|intros; by apply Hq].
    destruct (negb (marked vis w (offsetBy c d)) && nonBg (offsetBy c d));
      cbn [fst snd]; [|intros; by apply Hq].
    apply inBounds_spec in Hb.
    assert (inImage w h (offsetBy c d)) as Hin by (by destruct (offsetBy c d)).
    intros Hp Hmono. apply elem_of_app in Hp as [Hp|Hp].
    - destruct (Hq p Hp) as [Hi Hm]. split; [done|]. by apply Hmono.
    - apply list_elem_of_singleton in Hp. subst p. split; [done|].
      by apply (marked_wr_same w h).
  Qed.

Lemma markVisit_bfs cx cy q vis data d :
    agree data vis ->
    markVisit w h bgColor tol cx cy {| mQueue := q; mVisited := vis; mData := data |} d
    = {| mQueue := fst (bfsVisit w h nonBg0 (cx, cy) (q, vis) d);
         mVisited := snd (bfsVisit w h nonBg0 (cx, cy) (q, vis) d);
         mData := data |}.
  Proof.
    intros Hag. unfold markVisit, bfsVisit. cbv zeta.
    cbn [fst snd mQueue mVisited mData].
    change (cx + fst d, cy + snd d) with (offsetBy (cx, cy) d).
    change (cx + fst d) with (fst (offsetBy (cx, cy) d)).
    change (cy + snd d) with (snd (offsetBy (cx, cy) d)).
    set (n := offsetBy (cx, cy) d).
    destruct (inBounds w h (fst n) (snd n)) eqn:Hb; cbn [andb]; [|done].
    apply inBounds_spec in Hb.
    assert (inImage w h n) as Hin by (by destruct n).
    change (truthy (rd vis (snd n * w + fst n))) with (marked vis w n).
    change (negb (isBackgroundColor data ((snd n * w + fst n) * 4) bgColor tol))
      with (nonBackground data w bgColor tol n).
    destruct (marked vis w n) eqn:Hm; cbn [negb andb]; [done|].
    rewrite (Hag n Hin Hm).
    destruct (nonBg0 n); done.
  Qed.

Lemma agreeUnmarked_mono data vis vis' :
    (forall p, inImage w h p -> marked vis w p = true -> marked vis' w p = true) ->
    agree data vis -> agree data vis'.
  Proof.
    intros Hmono Hag p Hp Hm. apply Hag; [done|].
    destruct (marked vis w p) eqn:E; [|done].
    rewrite (Hmono p Hp E) in Hm. done.
  Qed.

Lemma fold_markVisit_bfs cx cy ds q vis data :
    length vis = Z.to_nat (w * h) ->
    agree data vis -> queued q vis ->
    fold_left (markVisit w h bgColor tol cx cy) ds
      {| mQueue := q; mVisited := vis; mData := data |}
    = {| mQueue := fst (fold_left (bfsVisit w h nonBg0 (cx, cy)) ds (q, vis));
         mVisited := snd (fold_left (bfsVisit w h nonBg0 (cx, cy)) ds (q, vis));
         mData := data |}
    /\ agree data (snd (fold_left (bfsVisit w h nonBg0 (cx, cy)) ds (q, vis)))
    /\ queued (fst (fold_left (bfsVisit w h nonBg0 (cx, cy)) ds (q, vis)))
                 (snd (fold_left (bfsVisit w h nonBg0 (cx, cy)) ds (q, vis))).
  Proof.
    revert q vis. induction ds as [|d ds IH]; intros q vis Hlen Hag Hq.
    - done.
    - cbn [fold_left]. rewrite markVisit_bfs by done.
      pose proof (bfsVisit_goodQueue nonBg0 (cx, cy) q vis d Hlen Hq) as Hq1.
      pose proof (bfsVisit_measure w h nonBg0 (cx, cy) (q, vis) d Hlen) as [Hl1 _].
      assert (agree data (snd (bfsVisit w h nonBg0 (cx, cy) (q, vis) d)))
        as Hag1.
      { eapply agreeUnmarked_mono; [|exact Hag]. intros p Hp Hm.
        by apply bfsVisit_mono. }
      destruct (bfsVisit w h nonBg0 (cx, cy) (q, vis) d) as [q1 vis1].
      cbn [fst snd] in *. by apply IH.
  Qed.

Lemma agreeUnmarked_paint data vis c :
    inImage w h c -> marked vis w c = true ->
    agree data vis ->
    agree (paintPixel data (pixelIndex w c * 4) bgColor) vis.
  Proof.
    intros Hc Hm Hag p Hp Hpm. rewrite <- (Hag p Hp Hpm).
    unfold nonBackground. rewrite isBackgroundColor_paint_other; [done|].
    intros Heq. assert (c = p) by (by eapply pixelIndex_inj). subst.
    congruence.
  Qed.

Lemma markLoop_bfs fuel q vis data :
    length vis = Z.to_nat (w * h) ->
    agree data vis -> queued q vis ->
    markLoop fuel w h bgColor tol {| mQueue := q; mVisited := vis; mData := data |}
    = match bfs fuel w h nonBg0 neighbors4 q vis with
      | Some (deq, vis') =>
          Some {| mQueue := []; mVisited := vis';
                  mData := paintAll w bgColor deq data |}
      | None => None
      end.
  Proof.
    revert q vis data.
    induction fuel as [|fuel IH]; intros q vis data Hlen Hag Hq.
    - destruct q as [|[cx cy] rest]; done.
    - destruct q as [|[cx cy] rest]; [done|].
      cbn - [fold_left neighbors4].
      destruct (Hq (cx, cy)) as [Hc Hm]; [by left|].
      assert (queued rest vis) as Hrest.
      { intros p Hp. apply Hq. by right. }
      change ((cy * w + cx) * 4) with (pixelIndex w (cx, cy) * 4).
      pose proof (agreeUnmarked_paint data vis (cx, cy) Hc Hm Hag) as Hag1.
      destruct (fold_markVisit_bfs cx cy neighbors4 rest vis _ Hlen Hag1 Hrest)
        as (Heq & Hag2 & Hq2).
      rewrite Heq.
      pose proof (fold_bfsVisit_measure w h nonBg0 (cx, cy) neighbors4 (rest, vis) Hlen)
        as [Hl2 _].
      destruct (fold_left (bfsVisit w h nonBg0 (cx, cy)) neighbors4 (rest, vis))
        as [q1 vis1].
      cbn [fst snd] in *.
      rewrite IH by done.
      destruct (bfs fuel w h nonBg0 neighbors4 q1 vis1) as [[deq vis']|]; done.
  Qed.

End Mark.

(** *** What painting does to the buffer *)

Lemma rd_paintPixel_same data i bgColor :
  0 <= i -> (Z.to_nat (i + 3) < length data)%nat ->
  sampleAt (paintPixel data i bgColor) i
  = (Some (clamp8 (cr bgColor)), Some (clamp8 (cg bgColor)),
     Some (clamp8 (cb bgColor)), Some (clamp8 (ca bgColor))).
Proof.
  intros Hi Hlen. unfold sampleAt, paintPixel.
  rewrite (rd_wr_ne _ (i + 3) i), (rd_wr_ne _ (i + 2) i), (rd_wr_ne _ (i + 1) i) by lia.
  rewrite (rd_wr_ne _ (i + 3) (i + 1)), (rd_wr_ne _ (i + 2) (i + 1)) by lia.
  rewrite (rd_wr_ne _ (i + 3) (i + 2)) by lia.
  rewrite !rd_wr_eq; rewrite ?length_wr; try lia. done.
Qed.

Lemma length_paintAll w bgColor l data :
  length (paintAll w bgColor l data) = length data.
Proof.
  unfold paintAll. revert data.
  induction l as [|p l IH]; intros data; simpl; [done|].
  by rewrite IH, length_paintPixel.
Qed.

Lemma sampleAt_paintPixel_other data i j bgColor :
  i <> j -> sampleAt (paintPixel data (i * 4) bgColor) (j * 4) = sampleAt data (j * 4).
Proof.
  intros Hne. unfold sampleAt. rewrite !rd_paintPixel_other by lia. done.
Qed.

Lemma sampleAt_paintAll_other w h bgColor l data p :
  (forall q, q ∈ l -> inImage w h q) -> inImage w h p -> p ∉ l ->
  sampleAt (paintAll w bgColor l data) (pixelIndex w p * 4)
  = sampleAt data (pixelIndex w p * 4).
Proof.
  unfold paintAll. revert data.
  induction l as [|q l IH]; intros data Hl Hp Hnot; simpl; [done|].
  rewrite IH.
  - apply sampleAt_paintPixel_other. intros Heq.
    assert (q = p) as ->.
    { eapply pixelIndex_inj; eauto. apply Hl. by left. }
    apply Hnot. by left.
  - intros q' Hq'. apply Hl. by right.
  - done.
  - intros Hin. apply Hnot. by right.
Qed.

Lemma sampleAt_paintAll_same w h bgColor l data p :
  (forall q, q ∈ l -> inImage w h q) -> p ∈ l ->
  (Z.to_nat (4 * (w * h)) <= length data)%nat ->
  sampleAt (paintAll w bgColor l data) (pixelIndex w p * 4)
  = (Some (clamp8 (cr bgColor)), Some (clamp8 (cg bgColor)),
     Some (clamp8 (cb bgColor)), Some (clamp8 (ca bgColor))).
Proof.
  unfold paintAll. revert data.
  induction l as [|q l IH]; intros data Hl Hp Hlen; simpl.
  - by apply elem_of_nil in Hp.
  - assert (inImage w h q) as Hq by (apply Hl; by left).
    assert (forall q', q' ∈ l -> inImage w h q') as Hl' by (intros; apply Hl; by right).
    destruct (decide (p ∈ l)) as [Hin|Hnin].
    + apply IH; [done|done|]. by rewrite length_paintPixel.
    + apply elem_of_cons in Hp as [->|Hp]; [|done].
      pose proof (sampleAt_paintAll_other w h bgColor l
                    (paintPixel data (pixelIndex w q * 4) bgColor) q Hl' Hq Hnin) as E.
      unfold paintAll in E. rewrite E.
      pose proof (pixelIndex_range w h q Hq).
      apply rd_paintPixel_same; lia.
Qed.

(** ** Regions *)

Lemma connected_trans fg nbrs s p q :
  connected fg nbrs s p -> connected fg nbrs p q -> connected fg nbrs s q.
Proof.
  intros Hsp Hpq. induction Hpq as [|p' q' _ IH Hstep Hfg]; [done|].
  by eapply connected_step.
Qed.

Lemma connected_holds fg nbrs s p :
  fg s = true -> connected fg nbrs s p -> fg p = true.
Proof. intros Hs H. by destruct H. Qed.

Lemma stepTo_sym nbrs p q :
  symmetricOffsets nbrs -> stepTo nbrs p q -> stepTo nbrs q p.
Proof.
  intros Hsym [d [Hd ->]]. exists (- fst d, - snd d). split; [by apply Hsym|].
  unfold offsetBy. destruct p as [x y]; simpl. f_equal; lia.
Qed.

Lemma connected_sym fg nbrs s p :
  symmetricOffsets nbrs -> fg s = true ->
  connected fg nbrs s p -> connected fg nbrs p s.
Proof.
  intros Hsym Hs H. induction H as [|p q Hsp IH Hstep Hfg]; [constructor|].
  eapply connected_trans; [|exact IH].
  eapply connected_step; [constructor|by apply stepTo_sym|].
  exact (connected_holds fg nbrs s p Hs Hsp).
Qed.

Lemma connected_same_region fg nbrs s p q :
  symmetricOffsets nbrs -> fg s = true -> connected fg nbrs s p ->
  (connected fg nbrs p q <-> connected fg nbrs s q).
Proof.
  intros Hsym Hs Hsp. split; intros H.
  - by eapply connected_trans.
  - eapply connected_trans; [|exact H]. by apply connected_sym.
Qed.

Lemma neighbors4_symmetric : symmetricOffsets neighbors4.
Proof.
  intros d Hd. unfold neighbors4 in *.
  repeat (apply elem_of_cons in Hd as [->|Hd]; [apply list_elem_of_In; simpl; tauto|]).
  by apply elem_of_nil in Hd.
Qed.

Lemma neighbors8_symmetric : symmetricOffsets neighbors8.
Proof.
  intros d Hd. unfold neighbors8 in *.
  repeat (apply elem_of_cons in Hd as [->|Hd]; [apply list_elem_of_In; simpl; tauto|]).
  by apply elem_of_nil in Hd.
Qed.

Lemma neighborsOf_symmetric config : symmetricOffsets (neighborsOf config).
Proof.
  unfold neighborsOf. destruct (use8WayConnectivity config);
    [apply neighbors8_symmetric|apply neighbors4_symmetric].
Qed.

(** Two predicates that agree on a region and on what touches it have
    the same region. *)
Lemma connected_ext fg fg' nbrs s q :
  (forall p r, connected fg nbrs s p -> stepTo nbrs p r -> fg' r = fg r) ->
  (connected fg' nbrs s q <-> connected fg nbrs s q).
Proof.
  intros Hext. split; intros H.
  - induction H as [|p r Hp IH Hstep Hfg]; [constructor|].
    eapply connected_step; [exact IH|done|]. by rewrite <- (Hext p r).
  - induction H as [|p r Hp IH Hstep Hfg]; [constructor|].
    eapply connected_step; [exact IH|done|]. by rewrite (Hext p r).
Qed.

Lemma enumerates_ext l (P Q : Pixel -> Prop) :
  (forall q, P q <-> Q q) -> enumerates l P -> enumerates l Q.
Proof.
  intros HPQ [Hnd Hl]. split; [done|]. intros q. by rewrite Hl.
Qed.

Lemma enumerates_length l1 l2 (P : Pixel -> Prop) :
  enumerates l1 P -> enumerates l2 P -> length l1 = length l2.
Proof.
  intros [Hnd1 H1] [Hnd2 H2]. apply Permutation_length.
  apply NoDup_Permutation; [done|done|]. intros q. by rewrite H1, H2.
Qed.

Lemma regionSize_unique fg nbrs s n m :
  regionSize fg nbrs s n -> regionSize fg nbrs s m -> n = m.
Proof.
  intros (l1 & H1 & <-) (l2 & H2 & <-). f_equal. by eapply enumerates_length.
Qed.

(** ** Specifications of the three fills *)

Section FillSpecs.

  Variables (w h : Z) (data : list Z) (bgColor : Color).

Lemma floodFill_spec x y visited config :
    let fg := foreground w h (nonBackground data w bgColor (tolerance config)) in
    let region := connected fg (neighborsOf config) (x, y) in
    length visited = Z.to_nat (w * h) ->
    fg (x, y) = true ->
    (forall q, region q -> marked visited w q = false) ->
    exists result vis deq,
      floodFill x y w h data visited bgColor config = Some (result, vis) /\
      enumerates deq region /\
      pixelCount result = Z.of_nat (length deq) /\
      boundingBox region (resultRect result) /\
      length vis = Z.to_nat (w * h) /\
      (forall p, inImage w h p ->
         (marked vis w p = true <-> marked visited w p = true \/ region p)).
  Proof.
    intros fg region Hlen Hs Hfresh.
    destruct (bfs_spec w h _ (neighborsOf config) visited (x, y) Hlen Hs Hfresh)
      as (deq & vis & Hr & Hen & Hl & Hm).
    unfold floodFill. fold (neighborsOf config).
    rewrite floodFillLoop_bfs. cbn [fQueue fVisited fMinX fMinY fMaxX fMaxY fPixelCount].
    change (y * w + x) with (pixelIndex w (x, y)).
    rewrite Hr. eexists _, vis, deq. split; [reflexivity|].
    split; [done|]. cbn [pixelCount fPixelCount]. split; [simpl; lia|].
    split; [|done].
    destruct Hen as [Hnd Hen].
    assert ((x, y) ∈ deq) as Hsd by (apply Hen; constructor).
    unfold boundingBox, resultRect.
    cbn [rect_x rect_y rect_w rect_h minX minY maxX maxY fMinX fMinY fMaxX fMaxY].
    split; [|split; [|split; [|split]]].
    - intros q Hq. apply Hen in Hq.
      pose proof (fold_min_lower (map fst deq) x (fst q)) as H1.
      pose proof (fold_max_upper (map fst deq) x (fst q)) as H2.
      pose proof (fold_min_lower (map snd deq) y (snd q)) as H3.
      pose proof (fold_max_upper (map snd deq) y (snd q)) as H4.
      assert (fst q ∈ map fst deq) by (by apply list_elem_of_fmap_2).
      assert (snd q ∈ map snd deq) by (by apply list_elem_of_fmap_2).
      specialize (H1 ltac:(done)). specialize (H2 ltac:(done)).
      specialize (H3 ltac:(done)). specialize (H4 ltac:(done)). lia.
    - destruct (fold_min_attained (map fst deq) x) as [E|E].
      + exists (x, y). split; [constructor|]. by rewrite E.
      + apply list_elem_of_fmap in E as (q & Eq & Hq).
        exists q. split; [by apply Hen|done].
    - destruct (fold_max_attained (map fst deq) x) as [E|E].
      + exists (x, y). split; [constructor|]. cbn [fst snd]. lia.
      + apply list_elem_of_fmap in E as (q & Eq & Hq).
        exists q. split; [by apply Hen|lia].
    - destruct (fold_min_attained (map snd deq) y) as [E|E].
      + exists (x, y). split; [constructor|]. by rewrite E.
      + apply list_elem_of_fmap in E as (q & Eq & Hq).
        exists q. split; [by apply Hen|done].
    - destruct (fold_max_attained (map snd deq) y) as [E|E].
      + exists (x, y). split; [constructor|]. cbn [fst snd]. lia.
      + apply list_elem_of_fmap in E as (q & Eq & Hq).
        exists q. split; [by apply Hen|lia].
  Qed.

Lemma countConnectedPixels_spec x y tol :
    let fg := foreground w h (nonBackground data w bgColor tol) in
    fg (x, y) = true ->
    exists n,
      countConnectedPixels x y w h data bgColor tol = Some n /\
      regionSize fg neighbors4 (x, y) n.
  Proof.
    intros fg Hs.
    destruct (bfs_spec w h (nonBackground data w bgColor tol) neighbors4
                (newUint8Array (w * h)) (x, y))
      as (deq & vis & Hr & Hen & Hl & Hm).
    { apply length_newUint8Array. }
    { exact Hs. }
    { intros q _. apply marked_newUint8Array. }
    unfold countConnectedPixels. rewrite countLoop_bfs. cbn [cQueue cVisited cCount].
    change (y * w + x) with (pixelIndex w (x, y)).
    rewrite Hr. eexists. split; [reflexivity|].
    exists deq. split; [done|]. simpl. lia.
  Qed.

Lemma markNoisePixels_spec x y visited tol :
    let fg := foreground w h (nonBackground data w bgColor tol) in
    let region := connected fg neighbors4 (x, y) in
    length visited = Z.to_nat (w * h) ->
    fg (x, y) = true ->
    (forall q, region q -> marked visited w q = false) ->
    exists deq vis,
      markNoisePixels x y w h data visited bgColor tol
        = Some (paintAll w bgColor deq data, vis) /\
      enumerates deq region /\
      length vis = Z.to_nat (w * h) /\
      (forall p, inImage w h p ->
         (marked vis w p = true <-> marked visited w p = true \/ region p)).
  Proof.
    intros fg region Hlen Hs Hfresh.
    destruct (bfs_spec w h _ neighbors4 visited (x, y) Hlen Hs Hfresh)
      as (deq & vis & Hr & Hen & Hl & Hm).
    pose proof (foreground_inImage w h _ _ Hs) as Hin.
    unfold markNoisePixels.
    change (y * w + x) with (pixelIndex w (x, y)).
    rewrite (markLoop_bfs w h bgColor tol data).
    - rewrite Hr. exists deq, vis. done.
    - by rewrite length_wr.
    - intros p _ _. done.
    - intros p Hp. apply list_elem_of_singleton in Hp. subst p.
      split; [done|]. by apply (marked_wr_same w h).
  Qed.

End FillSpecs.

(** ** Scan loops *)

Lemma forEachM_app {S A : Type} (body : S -> A -> option S) l1 l2 s :
  forEachM body (l1 ++ l2) s =
  match forEachM body l1 s with
  | Some s' => forEachM body l2 s'
  | None => None
  end.
Proof.
  revert s. induction l1 as [|a l1 IH]; intros s; simpl; [done|].
  destruct (body s a); [apply IH|done].
Qed.

Lemma forEachM_map {S A B : Type} (body : S -> B -> option S) (f : A -> B) l s :
  forEachM body (map f l) s = forEachM (fun s a => body s (f a)) l s.
Proof.
  revert s. induction l as [|a l IH]; intros s; simpl; [done|].
  destruct (body s (f a)); [apply IH|done].
Qed.

(** The nested loops visit the pixels of [scanOrder] one by one. *)
Lemma forEachM_rows {S : Type} (body : Z -> S -> Z -> option S) w ys s :
  forEachM (fun st y => forEachM (body y) (seqZ 0 w) st) ys s =
  forEachM (fun st p => body (snd p) st (fst p))
           (flat_map (fun y => map (fun x => (x, y)) (seqZ 0 w)) ys) s.
Proof.
  revert s. induction ys as [|y ys IH]; intros s; simpl; [done|].
  rewrite forEachM_app, forEachM_map. simpl.
  destruct (forEachM (body y) (seqZ 0 w) s); [apply IH|done].
Qed.

(** A loop whose body keeps an invariant that records the elements done. *)
Lemma forEachM_covers {S A : Type} (body : S -> A -> option S)
    (Inv : (A -> Prop) -> S -> Prop) (good : A -> Prop) :
  (forall (P Q : A -> Prop) s, (forall a, Q a -> P a) -> Inv P s -> Inv Q s) ->
  (forall P s a, Inv P s -> good a ->
     exists s', body s a = Some s' /\ Inv (fun b => P b \/ b = a) s') ->
  forall l P s, Inv P s -> (forall a, a ∈ l -> good a) ->
    exists s', forEachM body l s = Some s' /\ Inv (fun b => P b \/ b ∈ l) s'.
Proof.
  intros Hweak Hstep l. induction l as [|a l IH]; intros P s HI Hgood; simpl.
  - exists s. split; [done|]. eapply Hweak; [|exact HI].
    intros b [?|Hb]; [done|]. by apply elem_of_nil in Hb.
  - destruct (Hstep P s a HI) as (s1 & -> & HI1); [apply Hgood; by left|].
    destruct (IH _ s1 HI1) as (s2 & Hr & HI2); [intros; apply Hgood; by right|].
    exists s2. split; [done|]. eapply Hweak; [|exact HI2].
    intros b [?|Hb]; [by left; left|].
    apply elem_of_cons in Hb as [->|Hb]; [left; by right|by right].
Qed.

Lemma elem_of_scanOrder w h p : p ∈ scanOrder w h <-> inImage w h p.
Proof.
  unfold scanOrder, inImage. rewrite list_elem_of_In, in_flat_map. split.
  - intros (y & Hy & Hp). apply in_map_iff in Hp as (x & <- & Hx).
    apply list_elem_of_In, elem_of_seqZ in Hy, Hx. simpl. lia.
  - intros [Hx Hy]. exists (snd p). split.
    + apply list_elem_of_In, elem_of_seqZ. lia.
    + apply in_map_iff. exists (fst p). split; [by destruct p|].
      apply list_elem_of_In, elem_of_seqZ. lia.
Qed.

(** ** The noise filter *)

Lemma isBackgroundColor_samples d1 d2 i j bgColor tol :
  sampleAt d1 i = sampleAt d2 j ->
  isBackgroundColor d1 i bgColor tol = isBackgroundColor d2 j bgColor tol.
Proof.
  unfold sampleAt, isBackgroundColor. intros H. inversion H as [[H1 H2 H3 H4]].
  by rewrite H1, H2, H3, H4.
Qed.

Lemma isBackgroundColor_sample d1 d2 i bgColor tol :
  sampleAt d1 i = sampleAt d2 i ->
  isBackgroundColor d1 i bgColor tol = isBackgroundColor d2 i bgColor tol.
Proof. apply isBackgroundColor_samples. Qed.

Lemma paintAll_app w bgColor l1 l2 data :
  paintAll w bgColor (l1 ++ l2) data = paintAll w bgColor l2 (paintAll w bgColor l1 data).
Proof. unfold paintAll. apply fold_left_app. Qed.

Lemma foreground_outside w h nonBg p : ~ inImage w h p -> foreground w h nonBg p = false.
Proof.
  intros H. unfold foreground.
  destruct (inBounds w h (fst p) (snd p)) eqn:E; [|done].
  apply inBounds_spec in E. destruct p. done.
Qed.

Lemma inImage_dec w h p : inImage w h p \/ ~ inImage w h p.
Proof. unfold inImage. lia. Qed.

Section Noise.

Variables (w h : Z) (data0 : list Z) (bgColor : Color) (tol thr : Z).
Hypothesis Hdata : (Z.to_nat (4 * (w * h)) <= length data0)%nat.

Local Notation "'fg0'" := (foreground w h (nonBackground data0 w bgColor tol)).

Lemma smallRegion_inImage p : smallRegion fg0 thr p -> inImage w h p.
Proof. intros [H _]. by eapply foreground_inImage. Qed.

(** Outside the painted pixels the buffer classifies as the original. *)
Lemma painted_foreground M p :
  (forall q, q ∈ M -> inImage w h q) -> p ∉ M ->
  foreground w h (nonBackground (paintAll w bgColor M data0) w bgColor tol) p = fg0 p.
Proof.
  intros HM Hp. destruct (inImage_dec w h p) as [Hin|Hout].
  - unfold foreground, nonBackground. f_equal. f_equal.
    apply isBackgroundColor_sample. by eapply sampleAt_paintAll_other.
  - by rewrite !foreground_outside.
Qed.

Lemma noisePixel_inv Sc st x y :
  noiseInv w h data0 bgColor tol thr Sc st -> inImage w h (x, y) ->
  exists st',
    noisePixel w h bgColor tol thr y st x = Some st' /\
    noiseInv w h data0 bgColor tol thr (fun p => Sc p \/ p = (x, y)) st'.
Proof.
  intros (M & Hlen & Hd & Hmk & Hsm & Hcl & Hsc) Hin.
  destruct st as [data vis]. cbn [fst snd] in *.
  assert (forall q, q ∈ M -> inImage w h q) as HMin.
  { intros q Hq. apply smallRegion_inImage. by apply Hsm. }
  unfold noisePixel.
  change (y * w + x) with (pixelIndex w (x, y)).
  change (truthy (rd vis (pixelIndex w (x, y)))) with (marked vis w (x, y)).
  destruct (marked vis w (x, y)) eqn:Hm; cbn [orb].
  { (* already painted *)
    exists (data, vis). split; [done|].
    exists M. cbn [fst snd]. do 5 (split; [done|]).
    intros p [Hp| ->] Hs; [by apply Hsc|]. by apply Hmk. }
  assert ((x, y) ∉ M) as HnM.
  { intros HM. apply Hmk in HM; [congruence|done]. }
  pose proof (painted_foreground M (x, y) HMin HnM) as Hfgs.
  rewrite <- Hd in Hfgs.
  destruct (isBackgroundColor data (pixelIndex w (x, y) * 4) bgColor tol) eqn:Hbg.
  { (* background *)
    exists (data, vis). split; [done|].
    exists M. cbn [fst snd]. do 5 (split; [done|]).
    intros p [Hp| ->] Hs; [by apply Hsc|].
    destruct Hs as [Hf _]. rewrite <- Hfgs in Hf.
    unfold foreground, nonBackground in Hf. rewrite Hbg in Hf.
    by rewrite andb_false_r in Hf. }
  (* a foreground pixel outside the painted regions *)
  assert (foreground w h (nonBackground data w bgColor tol) (x, y) = true) as Hfg'.
  { apply foreground_intro; [done|]. unfold nonBackground. by rewrite Hbg. }
  assert (fg0 (x, y) = true) as Hfg0 by (by rewrite <- Hfgs).
  assert (forall q, connected fg0 neighbors4 (x, y) q -> q ∉ M) as Hout.
  { intros q Hq HqM. apply HnM. apply (Hcl q); [done|].
    apply connected_sym; [apply neighbors4_symmetric|done|done]. }
  assert (forall q,
            connected (foreground w h (nonBackground data w bgColor tol))
              neighbors4 (x, y) q
            <-> connected fg0 neighbors4 (x, y) q) as Hsame.
  { intros q. apply connected_ext. intros p r Hp Hstep.
    rewrite Hd. apply painted_foreground; [done|].
    intros HrM. apply (Hout r); [|done].
    eapply connected_step; [exact Hp|done|]. by apply Hsm. }
  destruct (countConnectedPixels_spec w h data bgColor x y tol Hfg')
    as (n & Hcount & Hsize).
  rewrite Hcount.
  assert (regionSize fg0 neighbors4 (x, y) n) as Hsize0.
  { destruct Hsize as (l & Hen & Hl). exists l. split; [|done].
    eapply enumerates_ext; [|exact Hen]. apply Hsame. }
  destruct (n <=? thr) eqn:Hle.
  - (* a noise region: painted and marked *)
    apply Z.leb_le in Hle.
    destruct (markNoisePixels_spec w h data bgColor x y vis tol Hlen Hfg')
      as (deq & vis' & Hmark & Hen & Hlen' & Hmk').
    { intros q Hq. apply Hsame in Hq.
      destruct (marked vis w q) eqn:E; [|done].
      exfalso. apply (Hout q Hq). apply Hmk; [|done].
      eapply foreground_inImage. eapply connected_holds; [exact Hfg0|exact Hq]. }
    rewrite Hmark. eexists. split; [reflexivity|].
    assert (enumerates deq (connected fg0 neighbors4 (x, y))) as Hen0.
    { eapply enumerates_ext; [|exact Hen]. apply Hsame. }
    destruct Hen0 as [Hnd Hdeq].
    exists (M ++ deq). cbn [fst snd]. split; [done|].
    split; [by rewrite paintAll_app, Hd|].
    split; [|split; [|split]].
    + intros p Hp. rewrite (Hmk' p Hp), elem_of_app, (Hmk p Hp), Hsame, Hdeq. done.
    + intros p Hp. apply elem_of_app in Hp as [Hp|Hp]; [by apply Hsm|].
      apply Hdeq in Hp. split.
      * eapply connected_holds; [exact Hfg0|exact Hp].
      * exists n. split; [|done].
        destruct Hsize0 as (l & [Hndl Hl] & Hlen0). exists l. split; [|done].
        split; [done|]. intros q. rewrite Hl.
        symmetry. apply connected_same_region; [apply neighbors4_symmetric|done|done].
    + intros p q Hp Hpq. apply elem_of_app in Hp as [Hp|Hp].
      * apply elem_of_app. left. by apply (Hcl p).
      * apply elem_of_app. right. apply Hdeq. apply Hdeq in Hp.
        by eapply connected_trans.
    + intros p [Hp| ->] Hs; apply elem_of_app; [left; by apply Hsc|].
      right. apply Hdeq. constructor.
  - (* a region above the threshold: left alone *)
    apply Z.leb_gt in Hle.
    exists (data, vis). split; [done|].
    exists M. cbn [fst snd]. do 5 (split; [done|]).
    intros p [Hp| ->] Hs; [by apply Hsc|].
    destruct Hs as (_ & m & Hm' & Hmle).
    pose proof (regionSize_unique _ _ _ _ _ Hsize0 Hm'). lia.
Qed.

Lemma noiseInv_weaken (P Q : Pixel -> Prop) st :
  (forall p, Q p -> P p) ->
  noiseInv w h data0 bgColor tol thr P st -> noiseInv w h data0 bgColor tol thr Q st.
Proof.
  intros HPQ (M & H1 & H2 & H3 & H4 & H5 & H6).
  exists M. do 5 (split; [done|]). auto.
Qed.

Lemma noiseScan_spec :
  exists data' vis',
    forEachM
      (fun st y => forEachM (noisePixel w h bgColor tol thr y) (seqZ 0 w) st)
      (seqZ 0 h) (data0, newUint8Array (w * h)) = Some (data', vis') /\
    noiseInv w h data0 bgColor tol thr (inImage w h) (data', vis').
Proof.
  rewrite forEachM_rows. fold (scanOrder w h).
  destruct (forEachM_covers
              (fun st (p : Pixel) => noisePixel w h bgColor tol thr (snd p) st (fst p))
              (noiseInv w h data0 bgColor tol thr) (inImage w h))
    with (l := scanOrder w h) (P := fun _ : Pixel => False)
         (s := (data0, newUint8Array (w * h)))
    as ([data' vis'] & Hr & HI).
  - intros P Q s HPQ. by apply noiseInv_weaken.
  - intros P s [x y] HI Hin. by apply noisePixel_inv.
  - exists []. cbn [fst snd]. split; [apply length_newUint8Array|].
    split; [done|]. split; [|split; [|split]].
    + intros p _. rewrite marked_newUint8Array. split; [done|].
      intros Hp. by apply elem_of_nil in Hp.
    + intros p Hp. by apply elem_of_nil in Hp.
    + intros p q Hp. by apply elem_of_nil in Hp.
    + tauto.
  - intros p. apply elem_of_scanOrder.
  - exists data', vis'. split; [done|].
    eapply noiseInv_weaken; [|exact HI]. intros p Hp. right.
    by apply elem_of_scanOrder.
Qed.

End Noise.

(** The noise filter terminates and paints exactly the pixels of the
    4-connected foreground regions of at most [threshold] pixels. *)
Lemma applyNoiseReduction_spec data w h bgColor config :
  let fg0 := foreground w h (nonBackground data w bgColor (tolerance config)) in
  enableNoiseReduction config = true ->
  (Z.to_nat (4 * (w * h)) <= length data)%nat ->
  exists data' M,
    applyNoiseReduction data w h bgColor config = Some data' /\
    data' = paintAll w bgColor M data /\
    (forall p, p ∈ M <-> smallRegion fg0 (effectiveNoiseThreshold config) p).
Proof.
  intros fg0 Hen Hlen. unfold applyNoiseReduction. rewrite Hen. cbn [negb].
  destruct (noiseScan_spec w h data bgColor (tolerance config)
              (effectiveNoiseThreshold config) Hlen)
    as (data' & vis' & Hr & (M & H1 & H2 & H3 & H4 & H5 & H6)).
  rewrite Hr. cbn [fst snd] in *. exists data', M. split; [done|]. split; [done|].
  intros p. split; [apply H4|]. intros Hs. apply H6; [|done].
  destruct Hs as [Hf _]. by eapply foreground_inImage.
Qed.

(** ** The order of the scan *)

Lemma seqZ_sorted m n : StronglySorted Z.lt (seqZ m n).
Proof.
  destruct (Z_lt_le_dec n 0) as [Hn|Hn].
  { rewrite seqZ_nil by lia. constructor. }
  rewrite <- (Z2Nat.id n Hn). generalize (Z.to_nat n). clear. intros k. revert m.
  induction k as [|k IH]; intros m.
  - rewrite seqZ_nil by lia. constructor.
  - rewrite seqZ_cons by lia.
    replace (Z.pred (Z.of_nat (S k))) with (Z.of_nat k) by lia.
    constructor; [apply IH|].
    apply Forall_seqZ. intros. lia.
Qed.

Lemma scanOrder_sorted w h : StronglySorted (scansBefore w) (scanOrder w h).
Proof.
  unfold scanOrder.
  assert (forall ys, StronglySorted Z.lt ys ->
            StronglySorted (scansBefore w)
              (flat_map (fun y => map (fun x => (x, y)) (seqZ 0 w)) ys)) as H.
  { induction ys as [|y ys IH]; intros Hs; simpl; [constructor|].
    apply StronglySorted_inv in Hs as [Hs Hy].
    apply StronglySorted_app_2; [| |by apply IH].
    - intros p q Hp Hq.
      apply list_elem_of_fmap in Hp as (x & -> & Hx).
      apply list_elem_of_In, in_flat_map in Hq as (y' & Hy' & Hq).
      apply list_elem_of_In, list_elem_of_fmap in Hq as (x' & -> & Hx').
      apply elem_of_seqZ in Hx, Hx'.
      rewrite Forall_forall in Hy. apply list_elem_of_In, Hy in Hy'.
      unfold scansBefore, pixelIndex. simpl. nia.
    - apply (StronglySorted_fmap _ Z.lt); [|apply seqZ_sorted].
      intros x x' Hlt. unfold scansBefore, pixelIndex. simpl. lia. }
  apply H, seqZ_sorted.
Qed.

Lemma scanOrder_split w h done a rest :
  scanOrder w h = done ++ a :: rest ->
  inImage w h a /\ (a ∉ done) /\
  (forall b, b ∈ done -> scansBefore w b a) /\
  (forall b, b ∈ rest -> scansBefore w a b) /\
  (forall b, inImage w h b -> b ∈ done \/ b = a \/ b ∈ rest).
Proof.
  intros Heq. pose proof (scanOrder_sorted w h) as Hs. rewrite Heq in Hs.
  assert (forall b, b ∈ done -> scansBefore w b a) as Hdone.
  { intros b Hb. eapply StronglySorted_app_1_elem_of; [exact Hs|done|by left]. }
  split; [|split; [|split; [|split]]].
  - apply elem_of_scanOrder. rewrite Heq. apply elem_of_app. right. by left.
  - intros Ha. specialize (Hdone a Ha). unfold scansBefore in Hdone. lia.
  - done.
  - apply StronglySorted_app_1_r, StronglySorted_inv in Hs as [_ Hr].
    rewrite Forall_forall in Hr. intros b Hb. by apply Hr.
  - intros b Hb. apply elem_of_scanOrder in Hb. rewrite Heq in Hb.
    apply elem_of_app in Hb as [Hb|Hb]; [by left|].
    apply elem_of_cons in Hb as [->|Hb]; auto.
Qed.

(** A loop whose invariant speaks of the prefix already done. *)
Lemma forEachM_prefix {S A : Type} (body : S -> A -> option S)
    (Inv : list A -> S -> Prop) l s0 :
  Inv [] s0 ->
  (forall done a rest s, l = done ++ a :: rest -> Inv done s ->
     exists s', body s a = Some s' /\ Inv (done ++ [a]) s') ->
  exists s', forEachM body l s0 = Some s' /\ Inv l s'.
Proof.
  intros H0 Hstep.
  assert (forall rest done s, l = done ++ rest -> Inv done s ->
            exists s', forEachM body rest s = Some s' /\ Inv l s') as H.
  { induction rest as [|a rest IH]; intros done s Heq HI; simpl.
    - exists s. rewrite app_nil_r in Heq. by subst.
    - destruct (Hstep done a rest s Heq HI) as (s1 & -> & HI1).
      apply (IH (done ++ [a])); [|done]. by rewrite <- app_assoc. }
  by apply (H l []).
Qed.

(** ** One step of the scan *)

Lemma makeFrame_frameAt i r : makeFrame i r = frameAt i (resultRect r).
Proof. done. Qed.

Lemma framesFrom_snoc minSize results r :
  framesFrom minSize (results ++ [r]) =
  if pixelCount r >=? minSize
  then framesFrom minSize results
         ++ [frameAt (length (framesFrom minSize results)) (resultRect r)]
  else framesFrom minSize results.
Proof. unfold framesFrom. by rewrite fold_left_app. Qed.

Section Scan.

Variables (w h : Z) (data : list Z) (bgColor : Color) (config : DetectionConfig).

Local Notation "'fg'" :=
  (foreground w h (nonBackground data w bgColor (tolerance config))).
Local Notation "'nbrs'" := (neighborsOf config).

Lemma scanPixel_skip x y st :
  marked (sVisited st) w (x, y) = true \/ fg (x, y) = false ->
  inImage w h (x, y) ->
  scanPixel w h data bgColor config y st x = Some st.
Proof.
  intros H Hin. unfold scanPixel.
  change (y * w + x) with (pixelIndex w (x, y)).
  change (truthy (rd (sVisited st) (pixelIndex w (x, y))))
    with (marked (sVisited st) w (x, y)).
  destruct H as [->|H]; [done|].
  unfold foreground, nonBackground in H.
  apply inBounds_spec in Hin. cbn [fst snd] in H. rewrite Hin in H.
  cbn [andb] in H. apply negb_false_iff in H. rewrite H. by rewrite orb_true_r.
Qed.

Lemma scanPixel_fill x y st :
  length (sVisited st) = Z.to_nat (w * h) ->
  marked (sVisited st) w (x, y) = false ->
  fg (x, y) = true ->
  (forall q, connected fg nbrs (x, y) q -> marked (sVisited st) w q = false) ->
  exists result vis,
    scanPixel w h data bgColor config y st x
    = Some {| sVisited := vis;
              sFrames :=
                if pixelCount result >=? minSpriteSize config
                then sFrames st ++ [frameAt (length (sFrames st)) (resultRect result)]
                else sFrames st;
              sProcessed := sProcessed st + pixelCount result |} /\
    regionStats fg nbrs (x, y) result /\
    length vis = Z.to_nat (w * h) /\
    (forall p, inImage w h p ->
       (marked vis w p = true <->
        marked (sVisited st) w p = true \/ connected fg nbrs (x, y) p)).
Proof.
  intros Hlen Hm Hfg Hfresh.
  destruct (floodFill_spec w h data bgColor x y (sVisited st) config Hlen Hfg Hfresh)
    as (result & vis & deq & Hr & Hen & Hcount & Hbox & Hl & Hmk).
  exists result, vis. split; [|split; [|done]].
  - unfold scanPixel.
    change (y * w + x) with (pixelIndex w (x, y)).
    change (truthy (rd (sVisited st) (pixelIndex w (x, y))))
      with (marked (sVisited st) w (x, y)).
    rewrite Hm. cbn [orb].
    pose proof (foreground_nonBg _ _ _ _ Hfg) as Hn. unfold nonBackground in Hn.
    apply negb_true_iff in Hn. rewrite Hn, Hr. done.
  - split; [|done]. exists deq. split; [done|]. by rewrite Hcount.
Qed.

(** ** The scan of an image whose regions are known by their seeds *)

Lemma scanPixel_seeds seeds done a rest st :
  regionSeeds w h fg nbrs seeds ->
  scanOrder w h = done ++ a :: rest ->
  seedsInv w h fg nbrs (minSpriteSize config) seeds done st ->
  exists st',
    scanPixel w h data bgColor config (snd a) st (fst a) = Some st' /\
    seedsInv w h fg nbrs (minSpriteSize config) seeds (done ++ [a]) st'.
Proof.
  intros (Hsorted & Hsfg & Hsdist & Hscover) Hsplit
         (sd & todo & results & Hseeds & Hsd & Htodo & Hres & Hfr & Hlen & Hmk).
  destruct (scanOrder_split w h done a rest Hsplit)
    as (Hin & Hnotdone & Hbefore & Hafter & Hall).
  destruct a as [x y]. cbn [fst snd].
  assert (forall s, s ∈ seeds -> inImage w h s) as Hsin.
  { intros s Hs. eapply foreground_inImage. by apply Hsfg. }
  (* a marked or background pixel changes nothing *)
  assert (marked (sVisited st) w (x, y) = true \/ fg (x, y) = false ->
          (x, y) ∉ todo) as Hnottodo.
  { intros [Hm|Hbg] Ht.
    - apply Hmk in Hm as (s & Hs & Hc); [|done].
      assert (s = (x, y)) as ->.
      { apply Hsdist; [| |done]; rewrite Hseeds, elem_of_app; auto. }
      apply Hnotdone. by apply Hsd.
    - rewrite Hsfg in Hbg; [done|]. rewrite Hseeds, elem_of_app. auto. }
  destruct (marked (sVisited st) w (x, y)) eqn:Hm;
    [|destruct (fg (x, y)) eqn:Hfg].
  1,3: (exists st; split; [apply scanPixel_skip; auto|];
        exists sd, todo, results; split; [done|]; split;
        [intros s Hs; apply elem_of_app; left; by apply Hsd|]; split;
        [|done]; intros s Hs Hd; apply elem_of_app in Hd as [Hd|Hd];
        [by apply (Htodo s)|]; apply list_elem_of_singleton in Hd; subst s;
        apply Hnottodo; auto).
  (* an unmarked foreground pixel is the next seed *)
  destruct (Hscover (x, y) Hfg) as (s & Hs & Hc & Hle).
  assert (s ∈ todo) as Hst.
  { rewrite Hseeds in Hs. apply elem_of_app in Hs as [Hs|Hs]; [|done].
    assert (marked (sVisited st) w (x, y) = true); [|congruence].
    apply Hmk; [done|]. by exists s. }
  assert (s = (x, y)) as ->.
  { destruct (Hall s (Hsin s Hs)) as [Hd|[->|Hr]]; [|done|].
    - by apply Htodo in Hd.
    - apply Hafter in Hr. unfold scansBefore in Hr. lia. }
  destruct todo as [|s0 todo']; [by apply elem_of_nil in Hst|].
  assert (s0 = (x, y)) as ->.
  { apply elem_of_cons in Hst as [->|Hst]; [done|].
    rewrite Hseeds in Hsorted.
    apply StronglySorted_app_1_r, StronglySorted_inv in Hsorted as [_ Hs0].
    rewrite Forall_forall in Hs0. specialize (Hs0 _ Hst).
    assert (s0 ∈ seeds) as Hs0in.
    { rewrite Hseeds, elem_of_app. right. by left. }
    destruct (Hall s0 (Hsin s0 Hs0in)) as [Hd|[->|Hr]]; [|done|].
    - exfalso. apply (Htodo s0); [by left|done].
    - apply Hafter in Hr. unfold scansBefore in *. lia. }
  destruct (scanPixel_fill x y st Hlen Hm Hfg) as (result & vis & Hr & Hstats & Hl & Hmk').
  { intros q Hq. destruct (marked (sVisited st) w q) eqn:E; [|done].
    exfalso. apply Hmk in E as (s & Hsd' & Hcs).
    - assert (s = (x, y)) as ->.
      { apply Hsdist; [rewrite Hseeds, elem_of_app; auto|done|].
        eapply connected_trans; [exact Hcs|].
        apply connected_sym; [apply neighborsOf_symmetric|done|done]. }
      apply Hnotdone. by apply Hsd.
    - eapply foreground_inImage. eapply connected_holds; [exact Hfg|exact Hq]. }
  eexists. split; [exact Hr|].
  exists (sd ++ [(x, y)]), todo', (results ++ [result]).
  cbn [sFrames sVisited].
  split; [by rewrite Hseeds, <- app_assoc|].
  split.
  { intros s Hs'. apply elem_of_app in Hs' as [Hs'|Hs']; apply elem_of_app;
      [left; by apply Hsd|right; done]. }
  split.
  { intros s Hs' Hd. apply elem_of_app in Hd as [Hd|Hd].
    - apply (Htodo s); [by right|done].
    - apply list_elem_of_singleton in Hd. subst s.
      rewrite Hseeds in Hsorted.
      apply StronglySorted_app_1_r, StronglySorted_inv in Hsorted as [_ Hs0].
      rewrite Forall_forall in Hs0. specialize (Hs0 _ Hs').
      unfold scansBefore in Hs0. lia. }
  split; [apply Forall2_app; [done|by constructor]|].
  split; [by rewrite framesFrom_snoc, Hfr|].
  split; [done|].
  intros p Hp. rewrite (Hmk' p Hp), (Hmk p Hp). split.
  - intros [(s & Hs' & Hc')|Hc'].
    + exists s. split; [apply elem_of_app; by left|done].
    + exists (x, y). split; [apply elem_of_app; right; by left|done].
  - intros (s & Hs' & Hc'). apply elem_of_app in Hs' as [Hs'|Hs'].
    + left. by exists s.
    + apply list_elem_of_singleton in Hs'. subst s. by right.
Qed.

(** The scan terminates and pushes the frames of the regions, in the
    order of their seeds. *)
Lemma scanImage_seeds seeds :
  regionSeeds w h fg nbrs seeds ->
  exists st results,
    scanImage w h data bgColor config = Some st /\
    Forall2 (regionStats fg nbrs) seeds results /\
    sFrames st = framesFrom (minSpriteSize config) results.
Proof.
  intros Hseeds. unfold scanImage. rewrite forEachM_rows. fold (scanOrder w h).
  destruct (forEachM_prefix
              (fun st (p : Pixel) => scanPixel w h data bgColor config (snd p) st (fst p))
              (seedsInv w h fg nbrs (minSpriteSize config) seeds)
              (scanOrder w h)
              {| sVisited := newUint8Array (w * h); sFrames := []; sProcessed := 0 |})
    as (st & Hr & HI).
  - exists [], seeds, []. cbn [sFrames sVisited].
    split; [done|]. split; [intros s Hs; by apply elem_of_nil in Hs|].
    split; [intros s _ Hs; by apply elem_of_nil in Hs|].
    split; [constructor|]. split; [done|].
    split; [apply length_newUint8Array|].
    intros p _. rewrite marked_newUint8Array. split; [done|].
    intros (s & Hs & _). by apply elem_of_nil in Hs.
  - intros done a rest s Heq HI. by eapply scanPixel_seeds.
  - destruct HI as (sd & todo & results & Hs & Hsd & Htodo & Hres & Hfr & _).
    exists st, results. split; [done|]. split; [|done].
    destruct todo as [|s0 todo]; [by rewrite Hs, app_nil_r|].
    exfalso. apply (Htodo s0); [by left|].
    apply elem_of_scanOrder. destruct Hseeds as (_ & Hsfg & _).
    eapply foreground_inImage. apply Hsfg. rewrite Hs, elem_of_app. right. by left.
Qed.

End Scan.

(** ** The scan of any image *)

Lemma boundingBox_ext (P Q : Pixel -> Prop) r :
  (forall q, P q <-> Q q) -> boundingBox P r -> boundingBox Q r.
Proof.
  intros HPQ (H1 & (q2 & H2 & E2) & (q3 & H3 & E3) & (q4 & H4 & E4) & (q5 & H5 & E5)).
  split; [intros q Hq; by apply H1, HPQ|].
  split; [exists q2; split; [by apply HPQ|done]|].
  split; [exists q3; split; [by apply HPQ|done]|].
  split; [exists q4; split; [by apply HPQ|done]|].
  exists q5; split; [by apply HPQ|done].
Qed.

Section ScanAny.

Variables (w h : Z) (data : list Z) (bgColor : Color) (config : DetectionConfig).

Local Notation "'fg'" :=
  (foreground w h (nonBackground data w bgColor (tolerance config))).
Local Notation "'nbrs'" := (neighborsOf config).
Local Notation "'minSize'" := (minSpriteSize config).

Lemma scanInv_weaken (P Q : Pixel -> Prop) st :
  (forall p, Q p -> P p) ->
  scanInv w h fg nbrs minSize P st -> scanInv w h fg nbrs minSize Q st.
Proof.
  intros HPQ (H1 & H2 & H3 & H4 & H5 & H6 & H7).
  do 3 (split; [done|]). split; [auto|]. done.
Qed.

Lemma scanPixel_inv Sc st x y :
  scanInv w h fg nbrs minSize Sc st -> inImage w h (x, y) ->
  exists st',
    scanPixel w h data bgColor config y st x = Some st' /\
    scanInv w h fg nbrs minSize (fun p => Sc p \/ p = (x, y)) st'.
Proof.
  intros (Hlen & Hmfg & Hcl & Hsc & Hfr & Hid & Hbig) Hin.
  destruct (marked (sVisited st) w (x, y)) eqn:Hm;
    [|destruct (fg (x, y)) eqn:Hfg].
  1,3: (exists st; split; [apply scanPixel_skip; auto|];
        do 3 (split; [done|]); split; [|done];
        intros p [Hp| ->] Hf; [by apply Hsc|congruence]).
  destruct (scanPixel_fill w h data bgColor config x y st Hlen Hm Hfg)
    as (result & vis & Hr & [Hsize Hbox] & Hl & Hmk).
  { intros q Hq. destruct (marked (sVisited st) w q) eqn:E; [|done].
    assert (inImage w h q) as Hqin.
    { eapply foreground_inImage. eapply connected_holds; [exact Hfg|exact Hq]. }
    rewrite <- Hm. symmetry. apply (Hcl q); [done|done|].
    apply connected_sym; [apply neighborsOf_symmetric|done|done]. }
  eexists. split; [exact Hr|]. cbn [sVisited sFrames].
  split; [done|].
  split.
  { intros p Hp Hmp. apply Hmk in Hmp as [Hmp|Hc]; [by apply Hmfg| |done].
    eapply connected_holds; [exact Hfg|exact Hc]. }
  split.
  { intros p q Hp Hmp Hpq.
    assert (inImage w h q) as Hq.
    { eapply foreground_inImage. eapply connected_holds; [|exact Hpq].
      apply Hmk in Hmp as [Hmp|Hc]; [by apply Hmfg| |done].
      eapply connected_holds; [exact Hfg|exact Hc]. }
    apply Hmk; [done|]. apply Hmk in Hmp as [Hmp|Hc]; [| |done].
    - left. by apply (Hcl p).
    - right. by eapply connected_trans. }
  split.
  { intros p [Hp| ->] Hf.
    - apply Hmk; [by eapply foreground_inImage|]. left. by apply Hsc.
    - apply Hmk; [done|]. right. constructor. }
  split.
  { destruct (pixelCount result >=? minSize) eqn:Hge; [|done].
    apply Forall_app. split; [done|]. constructor; [|constructor].
    exists (x, y), (pixelCount result). split; [done|]. split; [done|].
    split; [|done]. apply Z.geb_le in Hge. lia. }
  split.
  { intros i f Hif. destruct (pixelCount result >=? minSize); [|by apply Hid].
    apply lookup_app_Some in Hif as [Hif|[Hge Hif]]; [by apply Hid|].
    apply list_lookup_singleton_Some in Hif as [Hi <-]. cbn [frame_id frameAt]. lia. }
  intros p n Hp Hmp Hn Hmin.
  apply Hmk in Hmp as [Hmp|Hc]; [| |done].
  - destruct (Hbig p n Hp Hmp Hn Hmin) as (f & Hf & Hb). exists f. split; [|done].
    destruct (pixelCount result >=? minSize); [|done]. apply elem_of_app. by left.
  - assert (forall q, connected fg nbrs (x, y) q <-> connected fg nbrs p q) as Hsame.
    { intros q. symmetry.
      apply connected_same_region; [apply neighborsOf_symmetric|done|done]. }
    assert (regionSize fg nbrs (x, y) n) as Hn'.
    { destruct Hn as (l & Hen & Hlen'). exists l. split; [|done].
      eapply enumerates_ext; [|exact Hen]. intros q. by rewrite Hsame. }
    pose proof (regionSize_unique _ _ _ _ _ Hsize Hn') as Heq.
    assert ((pixelCount result >=? minSize) = true) as ->.
    { apply Z.geb_le. lia. }
    eexists. split; [apply elem_of_app; right; by left|].
    cbn [frame_rect frameAt]. eapply boundingBox_ext; [|exact Hbox]. exact Hsame.
Qed.

(** Soundness and completeness of the scan: it terminates on every
    buffer, each frame bounds a region of at least [minSpriteSize]
    foreground pixels, identifiers follow the order of emission, and every
    such region has a frame. *)
Lemma scanImage_sound :
  exists st,
    scanImage w h data bgColor config = Some st /\
    Forall (frameOfRegion fg nbrs minSize) (sFrames st) /\
    (forall i f, sFrames st !! i = Some f -> frame_id f = i) /\
    (forall p n, fg p = true -> regionSize fg nbrs p n -> minSize <= n ->
       exists f, f ∈ sFrames st /\ boundingBox (connected fg nbrs p) (frame_rect f)).
Proof.
  unfold scanImage. rewrite forEachM_rows. fold (scanOrder w h).
  destruct (forEachM_covers
              (fun st (p : Pixel) => scanPixel w h data bgColor config (snd p) st (fst p))
              (scanInv w h fg nbrs minSize) (inImage w h))
    with (l := scanOrder w h) (P := fun _ : Pixel => False)
         (s := {| sVisited := newUint8Array (w * h); sFrames := []; sProcessed := 0 |})
    as (st & Hr & HI).
  - intros P Q s HPQ. by apply scanInv_weaken.
  - intros P s [x y] HI Hin. by apply scanPixel_inv.
  - unfold scanInv. cbn [sVisited sFrames]. split; [apply length_newUint8Array|].
    split; [intros p _; by rewrite marked_newUint8Array|].
    split; [intros p q _; by rewrite marked_newUint8Array|].
    split; [tauto|]. split; [constructor|].
    split; [intros i f Hif; by rewrite lookup_nil in Hif|].
    intros p n _. by rewrite marked_newUint8Array.
  - intros p. apply elem_of_scanOrder.
  - destruct HI as (Hlen & Hmfg & Hcl & Hsc & Hfr & Hid & Hbig).
    exists st. split; [done|]. split; [done|]. split; [done|].
    intros p n Hf Hn Hmin.
    assert (inImage w h p) as Hp by (by eapply foreground_inImage).
    apply (Hbig p n); [done| |done|done].
    apply Hsc; [|done]. right. by apply elem_of_scanOrder.
Qed.

End ScanAny.

(** ** Rectangular blocks *)

Lemma inRectb_spec r p : inRectb r p = true <-> inRect r p.
Proof.
  unfold inRectb, inRect. rewrite !andb_true_iff, !Z.leb_le, !Z.ltb_lt. lia.
Qed.

Lemma inRectb_false r p : inRectb r p = false <-> ~ inRect r p.
Proof. rewrite <- inRectb_spec. destruct (inRectb r p); split; congruence. Qed.

Lemma elem_of_rectPixels r p : p ∈ rectPixels r <-> inRect r p.
Proof.
  unfold rectPixels, inRect. rewrite list_elem_of_In, in_flat_map. split.
  - intros (y & Hy & Hp). apply in_map_iff in Hp as (x & <- & Hx).
    apply list_elem_of_In, elem_of_seqZ in Hy, Hx. simpl. lia.
  - intros [Hx Hy]. exists (snd p). split.
    + apply list_elem_of_In, elem_of_seqZ. lia.
    + apply in_map_iff. exists (fst p). split; [by destruct p|].
      apply list_elem_of_In, elem_of_seqZ. lia.
Qed.

Lemma NoDup_rows (f : Z -> list Z) ys :
  NoDup ys -> (forall y, NoDup (f y)) ->
  NoDup (flat_map (fun y => map (fun x => (x, y)) (f y)) ys).
Proof.
  intros Hys Hf. induction Hys as [|y ys Hy Hys IH]; simpl; [constructor|].
  apply NoDup_app. split; [|split; [|done]].
  - apply (NoDup_fmap_2 (fun x => (x, y))); apply Hf || (intros x1 x2 E; by inversion E).
  - intros p Hp Hq.
    apply list_elem_of_fmap in Hp as (x & -> & Hx).
    apply list_elem_of_In, in_flat_map in Hq as (y' & Hy' & Hq).
    apply in_map_iff in Hq as (x' & E & Hx'). inversion E; subst.
    apply Hy. by apply list_elem_of_In.
Qed.

Lemma NoDup_rectPixels r : NoDup (rectPixels r).
Proof.
  unfold rectPixels. apply (NoDup_rows (fun _ => seqZ (rect_x r) (rect_w r)));
    [apply NoDup_seqZ|intros; apply NoDup_seqZ].
Qed.

Lemma length_rows (f : Z -> list Z) ys n :
  (forall y, length (f y) = n) ->
  length (flat_map (fun y => map (fun x => (x, y)) (f y)) ys) = (length ys * n)%nat.
Proof.
  intros Hf. induction ys as [|y ys IH]; simpl; [done|].
  rewrite length_app, length_map, Hf, IH. lia.
Qed.

Lemma length_rectPixels r :
  0 <= rect_w r -> 0 <= rect_h r ->
  Z.of_nat (length (rectPixels r)) = rectArea r.
Proof.
  intros Hw Hh. unfold rectPixels, rectArea.
  rewrite (length_rows _ _ (Z.to_nat (rect_w r))) by (intros; apply length_seqZ).
  rewrite length_seqZ. lia.
Qed.

Lemma enumerates_rectPixels r : enumerates (rectPixels r) (inRect r).
Proof. split; [apply NoDup_rectPixels|apply elem_of_rectPixels]. Qed.

(** A bounding box is unique. *)
Lemma boundingBox_unique (P : Pixel -> Prop) r1 r2 :
  boundingBox P r1 -> boundingBox P r2 -> r1 = r2.
Proof.
  intros (A1 & (a2 & A2 & E2) & (a3 & A3 & E3) & (a4 & A4 & E4) & (a5 & A5 & E5))
         (B1 & (b2 & B2 & F2) & (b3 & B3 & F3) & (b4 & B4 & F4) & (b5 & B5 & F5)).
  pose proof (A1 _ B2). pose proof (A1 _ B3). pose proof (A1 _ B4). pose proof (A1 _ B5).
  pose proof (B1 _ A2). pose proof (B1 _ A3). pose proof (B1 _ A4). pose proof (B1 _ A5).
  destruct r1 as [x1 y1 w1 h1], r2 as [x2 y2 w2 h2].
  cbn [rect_x rect_y rect_w rect_h] in *. f_equal; lia.
Qed.

Lemma boundingBox_rect r : 0 < rect_w r -> 0 < rect_h r -> boundingBox (inRect r) r.
Proof.
  intros Hw Hh. unfold boundingBox, inRect. split; [done|].
  split; [exists (rect_x r, rect_y r); simpl; lia|].
  split; [exists (rect_x r + rect_w r - 1, rect_y r); simpl; lia|].
  split; [exists (rect_x r, rect_y r); simpl; lia|].
  exists (rect_x r, rect_y r + rect_h r - 1); simpl; lia.
Qed.

Lemma boundingBox_union a b :
  0 < rect_w a -> 0 < rect_h a -> 0 < rect_w b -> 0 < rect_h b ->
  boundingBox (fun p => inRect a p \/ inRect b p) (unionBox a b).
Proof.
  intros Hwa Hha Hwb Hhb. unfold boundingBox, inRect, unionBox.
  cbn [rect_x rect_y rect_w rect_h].
  split; [intros q; lia|].
  split.
  { destruct (Z_le_gt_dec (rect_x a) (rect_x b)).
    - exists (rect_x a, rect_y a); simpl; lia.
    - exists (rect_x b, rect_y b); simpl; lia. }
  split.
  { destruct (Z_le_gt_dec (rect_x a + rect_w a) (rect_x b + rect_w b)).
    - exists (rect_x b + rect_w b - 1, rect_y b); simpl; lia.
    - exists (rect_x a + rect_w a - 1, rect_y a); simpl; lia. }
  split.
  { destruct (Z_le_gt_dec (rect_y a) (rect_y b)).
    - exists (rect_x a, rect_y a); simpl; lia.
    - exists (rect_x b, rect_y b); simpl; lia. }
  destruct (Z_le_gt_dec (rect_y a + rect_h a) (rect_y b + rect_h b)).
  - exists (rect_x b, rect_y b + rect_h b - 1); simpl; lia.
  - exists (rect_x a, rect_y a + rect_h a - 1); simpl; lia.
Qed.

(** A block of foreground pixels is connected from its top-left corner. *)
Lemma rect_connected fg nbrs r q :
  (1, 0) ∈ nbrs -> (0, 1) ∈ nbrs ->
  (forall p, inRect r p -> fg p = true) ->
  inRect r q -> connected fg nbrs (topLeft r) q.
Proof.
  intros Hx Hy Hfg Hq. destruct q as [x y]. unfold inRect in Hq; simpl in Hq.
  assert (forall a : nat, Z.of_nat a < rect_w r ->
            connected fg nbrs (topLeft r) (rect_x r + Z.of_nat a, rect_y r)) as Hrow.
  { induction a as [|a IH]; intros Ha.
    - replace (rect_x r + Z.of_nat 0) with (rect_x r) by lia. constructor.
    - eapply connected_step; [apply IH; lia| |].
      + exists (1, 0). split; [done|]. unfold offsetBy. simpl. f_equal; lia.
      + apply Hfg. unfold inRect. simpl. lia. }
  assert (forall b : nat, Z.of_nat b < rect_h r ->
            connected fg nbrs (topLeft r) (x, rect_y r + Z.of_nat b)) as Hcol.
  { induction b as [|b IH]; intros Hb.
    - replace (rect_y r + Z.of_nat 0) with (rect_y r) by lia.
      replace x with (rect_x r + Z.of_nat (Z.to_nat (x - rect_x r))) by lia.
      apply Hrow. lia.
    - eapply connected_step; [apply IH; lia| |].
      + exists (0, 1). split; [done|]. unfold offsetBy. simpl. f_equal; lia.
      + apply Hfg. unfold inRect. simpl. lia. }
  replace y with (rect_y r + Z.of_nat (Z.to_nat (y - rect_y r))) by lia.
  apply Hcol. lia.
Qed.

Lemma neighborsOf_right config : (1, 0) ∈ neighborsOf config.
Proof.
  unfold neighborsOf. destruct (use8WayConnectivity config);
    apply list_elem_of_In; simpl; tauto.
Qed.

Lemma neighborsOf_down config : (0, 1) ∈ neighborsOf config.
Proof.
  unfold neighborsOf. destruct (use8WayConnectivity config);
    apply list_elem_of_In; simpl; tauto.
Qed.

Lemma topLeft_first w r p :
  0 <= w -> inRect r p -> pixelIndex w (topLeft r) <= pixelIndex w p.
Proof.
  unfold inRect, pixelIndex, topLeft. destruct p as [x y]; simpl. intros. nia.
Qed.

Lemma inRect_inImage w h r p : blockInImage w h r -> inRect r p -> inImage w h p.
Proof. unfold blockInImage, inRect, inImage. lia. Qed.

(** Steps of the two neighbor lists move by one pixel. *)
Lemma stepTo_neighbors4 p q :
  stepTo neighbors4 p q -> Z.abs (fst q - fst p) + Z.abs (snd q - snd p) = 1.
Proof.
  intros (d & Hd & ->). unfold neighbors4 in Hd.
  repeat (apply elem_of_cons in Hd as [->|Hd]; [unfold offsetBy; simpl; lia|]).
  by apply elem_of_nil in Hd.
Qed.

Lemma stepTo_neighbors8 p q :
  stepTo neighbors8 p q -> Z.abs (fst q - fst p) <= 1 /\ Z.abs (snd q - snd p) <= 1.
Proof.
  intros (d & Hd & ->). unfold neighbors8 in Hd.
  repeat (apply elem_of_cons in Hd as [->|Hd]; [unfold offsetBy; simpl; lia|]).
  by apply elem_of_nil in Hd.
Qed.

Lemma gap_distance a b p q :
  inRect a p -> inRect b q ->
  gapX a b <= Z.abs (fst q - fst p) /\ gapY a b <= Z.abs (snd q - snd p).
Proof. unfold inRect, gapX, gapY. lia. Qed.

Lemma separated4_no_step a b p q :
  separated4 a b -> inRect a p -> inRect b q -> ~ stepTo neighbors4 p q.
Proof.
  intros Hsep Hp Hq Hstep. apply stepTo_neighbors4 in Hstep.
  pose proof (gap_distance a b p q Hp Hq). unfold separated4 in Hsep. lia.
Qed.

Lemma separated4_disjoint a b p :
  separated4 a b -> inRect a p -> inRect b p -> False.
Proof.
  intros Hsep Hp Hq. pose proof (gap_distance a b p p Hp Hq).
  unfold separated4 in Hsep. lia.
Qed.

Lemma gapX_sym a b : gapX b a = gapX a b.
Proof. unfold gapX. lia. Qed.

Lemma gapY_sym a b : gapY b a = gapY a b.
Proof. unfold gapY. lia. Qed.

Lemma separated4_sym a b : separated4 a b -> separated4 b a.
Proof. unfold separated4. rewrite gapX_sym, gapY_sym. done. Qed.

Lemma foregroundIs_spec w h data bgColor tol shape :
  foregroundIs w h data bgColor tol shape = true <->
  forall p, inImage w h p -> nonBackground data w bgColor tol p = shape p.
Proof.
  unfold foregroundIs. rewrite forallb_forall. split.
  - intros H p Hp. apply Bool.eqb_prop. apply H.
    by apply list_elem_of_In, elem_of_scanOrder.
  - intros H p Hp. apply list_elem_of_In, elem_of_scanOrder in Hp.
    rewrite (H p Hp). apply Bool.eqb_reflx.
Qed.

(** ** Images with no, one or two regions *)

Section Regions.

Variables (w h : Z) (data : list Z) (bgColor : Color) (config : DetectionConfig).

Local Notation "'fg'" :=
  (foreground w h (nonBackground data w bgColor (tolerance config))).
Local Notation "'nbrs'" := (neighborsOf config).
Local Notation "'minSize'" := (minSpriteSize config).

Lemma scanImage_no_region :
  (forall p, fg p = false) ->
  exists st, scanImage w h data bgColor config = Some st /\ sFrames st = [].
Proof.
  intros Hnone.
  destruct (scanImage_seeds w h data bgColor config []) as (st & results & Hr & Hres & Hfr).
  { split; [constructor|]. split; [intros s Hs; by apply elem_of_nil in Hs|].
    split; [intros s s' Hs; by apply elem_of_nil in Hs|].
    intros p Hp. by rewrite Hnone in Hp. }
  exists st. split; [done|]. apply Forall2_nil_inv_l in Hres. by subst.
Qed.

Lemma scanImage_one_region s :
  fg s = true ->
  (forall p, fg p = true ->
     connected fg nbrs s p /\ pixelIndex w s <= pixelIndex w p) ->
  exists st r,
    scanImage w h data bgColor config = Some st /\
    regionStats fg nbrs s r /\
    sFrames st = if pixelCount r >=? minSize then [frameAt 0 (resultRect r)] else [].
Proof.
  intros Hs Hall.
  destruct (scanImage_seeds w h data bgColor config [s]) as (st & results & Hr & Hres & Hfr).
  { split; [repeat constructor|].
    split; [intros s' Hs'; apply list_elem_of_singleton in Hs'; by subst|].
    split.
    { intros s1 s2 H1 H2 _. apply list_elem_of_singleton in H1, H2. by subst. }
    intros p Hp. exists s. split; [by apply list_elem_of_singleton|by apply Hall]. }
  apply Forall2_cons_inv_l in Hres as (r & rs & Hstats & Hrs & ->).
  apply Forall2_nil_inv_l in Hrs. subst rs.
  exists st, r. split; [done|]. split; [done|].
  rewrite Hfr. unfold framesFrom. simpl. by destruct (pixelCount r >=? minSize).
Qed.

Lemma scanImage_two_regions s1 s2 :
  fg s1 = true -> fg s2 = true ->
  pixelIndex w s1 < pixelIndex w s2 ->
  ~ connected fg nbrs s1 s2 ->
  (forall p, fg p = true ->
     (connected fg nbrs s1 p /\ pixelIndex w s1 <= pixelIndex w p) \/
     (connected fg nbrs s2 p /\ pixelIndex w s2 <= pixelIndex w p)) ->
  exists st r1 r2,
    scanImage w h data bgColor config = Some st /\
    regionStats fg nbrs s1 r1 /\ regionStats fg nbrs s2 r2 /\
    sFrames st = framesFrom minSize [r1; r2].
Proof.
  intros H1 H2 Hlt Hsep Hall.
  destruct (scanImage_seeds w h data bgColor config [s1; s2])
    as (st & results & Hr & Hres & Hfr).
  { split.
    { constructor; [repeat constructor|]. constructor; [done|constructor]. }
    split.
    { intros s Hs. apply elem_of_cons in Hs as [->|Hs]; [done|].
      apply list_elem_of_singleton in Hs. by subst. }
    split.
    { intros s s' Hs Hs' Hc.
      apply elem_of_cons in Hs as [->|Hs];
        [|apply list_elem_of_singleton in Hs; subst s];
        (apply elem_of_cons in Hs' as [->|Hs'];
          [|apply list_elem_of_singleton in Hs'; subst s']); try done.
      exfalso. apply Hsep.
      apply connected_sym; [apply neighborsOf_symmetric|done|done]. }
    intros p Hp. destruct (Hall p Hp) as [[Hc Hle]|[Hc Hle]].
    - exists s1. split; [by left|done].
    - exists s2. split; [right; by left|done]. }
  apply Forall2_cons_inv_l in Hres as (r1 & rs & Hst1 & Hrs & ->).
  apply Forall2_cons_inv_l in Hrs as (r2 & rs' & Hst2 & Hrs' & ->).
  apply Forall2_nil_inv_l in Hrs'. subst rs'.
  by exists st, r1, r2.
Qed.

End Regions.

(** *** Regions of blocks *)

Section BlockRegions.

Variables (w h : Z) (fg : Pixel -> bool) (nbrs : list (Z * Z)).
Hypothesis Hright : (1, 0) ∈ nbrs.
Hypothesis Hdown : (0, 1) ∈ nbrs.

Lemma region_one_block B q :
  (forall p, fg p = true <-> inRect B p) ->
  0 < rect_w B -> 0 < rect_h B ->
  (connected fg nbrs (topLeft B) q <-> inRect B q).
Proof.
  intros Hfg Hw Hh. split.
  - intros Hc. apply Hfg. eapply connected_holds; [|exact Hc].
    apply Hfg. unfold inRect, topLeft. simpl. lia.
  - intros Hq. apply rect_connected; auto. intros p Hp. by apply Hfg.
Qed.

Lemma region_of_two_blocks B1 B2 q :
  (forall p, fg p = true <-> inRect B1 p \/ inRect B2 p) ->
  (forall p r, inRect B1 p -> inRect B2 r -> ~ stepTo nbrs p r) ->
  0 < rect_w B1 -> 0 < rect_h B1 ->
  (connected fg nbrs (topLeft B1) q <-> inRect B1 q).
Proof.
  intros Hfg Hno Hw Hh. split.
  - intros Hc. induction Hc as [|p r Hp IH Hstep Hf].
    + unfold inRect, topLeft. simpl. lia.
    + apply Hfg in Hf as [Hf|Hf]; [done|]. exfalso. by apply (Hno p r).
  - intros Hq. apply rect_connected; auto. intros p Hp. apply Hfg. by left.
Qed.

End BlockRegions.

(** A region that reaches a seed of more than [thr] pixels is no noise. *)
Lemma not_smallRegion fg thr p s n :
  fg s = true -> connected fg neighbors4 s p ->
  regionSize fg neighbors4 s n -> thr < n ->
  ~ smallRegion fg thr p.
Proof.
  intros Hs Hc Hn Hlt (Hp & m & Hm & Hle).
  assert (regionSize fg neighbors4 s m) as Hm'.
  { destruct Hm as (l & Hen & Hl). exists l. split; [|done].
    eapply enumerates_ext; [|exact Hen]. intros q.
    apply connected_same_region; [apply neighbors4_symmetric|done|done]. }
  pose proof (regionSize_unique _ _ _ _ _ Hn Hm'). lia.
Qed.

Lemma regionSize_block fg nbrs B s :
  (forall q, connected fg nbrs s q <-> inRect B q) ->
  0 < rect_w B -> 0 < rect_h B ->
  regionSize fg nbrs s (rectArea B).
Proof.
  intros Hreg Hw Hh. exists (rectPixels B). split.
  - eapply enumerates_ext; [|apply enumerates_rectPixels]. intros q. by rewrite Hreg.
  - apply length_rectPixels; lia.
Qed.

Lemma regionStats_block fg nbrs B s r :
  (forall q, connected fg nbrs s q <-> inRect B q) ->
  0 < rect_w B -> 0 < rect_h B ->
  regionStats fg nbrs s r ->
  pixelCount r = rectArea B /\ resultRect r = B.
Proof.
  intros Hreg Hw Hh [Hsize Hbox]. split.
  - eapply regionSize_unique; [exact Hsize|]. by apply regionSize_block.
  - eapply boundingBox_unique; [exact Hbox|].
    eapply boundingBox_ext; [|by apply boundingBox_rect]. intros q. by rewrite Hreg.
Qed.

(** The foreground of an image is the pixels of [shape]. *)
Lemma foreground_shape w h data bgColor tol shape p :
  (forall q, inImage w h q -> nonBackground data w bgColor tol q = shape q) ->
  (forall q, shape q = true -> inImage w h q) ->
  foreground w h (nonBackground data w bgColor tol) p = shape p.
Proof.
  intros Hshape Hin. destruct (inImage_dec w h p) as [Hp|Hp].
  - rewrite <- (Hshape p Hp). unfold foreground.
    apply inBounds_spec in Hp. destruct p. cbn [fst snd] in *. by rewrite Hp.
  - rewrite foreground_outside by done.
    destruct (shape p) eqn:E; [|done]. exfalso. by apply Hp, Hin.
Qed.

(** ** The algorithm on a valid image *)

Lemma validateInputs_image imageElement config img :
  validateInputs imageElement config = inr img -> imageElement = ImageElement img.
Proof.
  unfold validateInputs. destruct imageElement as [|img']; [done|].
  repeat match goal with |- context [if ?b then _ else _] => destruct b end;
    intros H; inversion H; done.
Qed.

Lemma floodFillAlgorithm_run img config bgColor :
  validateInputs (ImageElement img) config = inr img ->
  naturalWidth img <> 0 -> naturalHeight img <> 0 ->
  detectBackgroundColor (pixels img) (naturalWidth img) (naturalHeight img)
    = Some bgColor ->
  floodFillAlgorithm (ImageElement img) config =
  match (if enableNoiseReduction (mergeConfig config)
         then applyNoiseReduction (pixels img) (naturalWidth img)
                (naturalHeight img) bgColor (mergeConfig config)
         else Some (pixels img)) with
  | None => OutOfFuel
  | Some data' =>
      match scanImage (naturalWidth img) (naturalHeight img) data' bgColor
              (mergeConfig config) with
      | None => OutOfFuel
      | Some st => Resolved (sFrames st)
      end
  end.
Proof.
  intros Hv Hw Hh Hbg. unfold floodFillAlgorithm, getImageData. rewrite Hv.
  apply Z.eqb_neq in Hw, Hh. rewrite Hw, Hh. cbn [orb]. by rewrite Hbg.
Qed.

(** ** The buffer after the noise filter *)

Lemma sampleAt_painted bgColor :
  sampleAt [clamp8 (cr bgColor); clamp8 (cg bgColor); clamp8 (cb bgColor);
            clamp8 (ca bgColor)] 0
  = paintedSample bgColor.
Proof. done. Qed.

Lemma isBackgroundColor_painted data i bgColor tol :
  sampleAt data i = paintedSample bgColor ->
  isBackgroundColor data i bgColor tol = selfBackground bgColor tol.
Proof.
  intros H. unfold selfBackground. apply isBackgroundColor_samples.
  by rewrite H, sampleAt_painted.
Qed.

Lemma foreground_after_noise w h data bgColor tol M p :
  (Z.to_nat (4 * (w * h)) <= length data)%nat ->
  (forall q, q ∈ M -> inImage w h q) ->
  foreground w h (nonBackground (paintAll w bgColor M data) w bgColor tol) p
  = if decide (p ∈ M) then negb (selfBackground bgColor tol)
    else foreground w h (nonBackground data w bgColor tol) p.
Proof.
  intros Hlen HM. destruct (decide (p ∈ M)) as [Hp|Hp].
  - unfold foreground, nonBackground.
    pose proof (HM p Hp) as Hin.
    assert (inBounds w h (fst p) (snd p) = true) as ->.
    { apply inBounds_spec. by destruct p. }
    cbn [andb]. f_equal. apply isBackgroundColor_painted.
    by apply (sampleAt_paintAll_same w h).
  - by apply painted_foreground.
Qed.

(** With no noise region the filter leaves the buffer as it is. *)
Lemma applyNoiseReduction_id data w h bgColor config :
  (Z.to_nat (4 * (w * h)) <= length data)%nat ->
  (forall p, ~ smallRegion (foreground w h (nonBackground data w bgColor (tolerance config)))
               (effectiveNoiseThreshold config) p) ->
  (if enableNoiseReduction config
   then applyNoiseReduction data w h bgColor config
   else Some data) = Some data.
Proof.
  intros Hlen Hnone. destruct (enableNoiseReduction config) eqn:Hen; [|done].
  destruct (applyNoiseReduction_spec data w h bgColor config Hen Hlen)
    as (data' & M & Hr & Hd & HM).
  rewrite Hr, Hd. destruct M as [|p M]; [done|].
  exfalso. apply (Hnone p). apply HM. by left.
Qed.

(** ** One block *)

Section OneBlock.

Variables (w h : Z) (bgColor : Color) (config : DetectionConfig) (B : Rect).
Hypothesis Hblock : blockInImage w h B.

Lemma scanImage_block data :
  (forall p, foreground w h (nonBackground data w bgColor (tolerance config)) p
             = inRectb B p) ->
  exists st,
    scanImage w h data bgColor config = Some st /\
    sFrames st = if rectArea B >=? minSpriteSize config then [frameAt 0 B] else [].
Proof.
  intros Hfg.
  destruct Hblock as (Hw & Hh & Hx & Hxw & Hy & Hyh).
  assert (forall p, foreground w h (nonBackground data w bgColor (tolerance config)) p = true
                    <-> inRect B p) as Hiff.
  { intros p. by rewrite Hfg, inRectb_spec. }
  pose proof (fun q => region_one_block _ (neighborsOf config)
                         (neighborsOf_right config) (neighborsOf_down config)
                         B q Hiff Hw Hh) as Hreg.
  destruct (scanImage_one_region w h data bgColor config (topLeft B))
    as (st & r & Hr & Hstats & Hfr).
  { apply Hiff. unfold inRect, topLeft. simpl. lia. }
  { intros p Hp. apply Hiff in Hp. split; [by apply Hreg|].
    apply topLeft_first; [lia|done]. }
  destruct (regionStats_block _ _ B _ r Hreg Hw Hh Hstats) as [Hc Hb].
  exists st. split; [done|]. by rewrite Hfr, Hc, Hb.
Qed.

Lemma block_regions4 data p :
  (forall q, foreground w h (nonBackground data w bgColor (tolerance config)) q
             = inRectb B q) ->
  inRect B p ->
  regionSize (foreground w h (nonBackground data w bgColor (tolerance config)))
    neighbors4 p (rectArea B).
Proof.
  intros Hfg Hp.
  destruct Hblock as (Hw & Hh & _).
  assert (forall p, foreground w h (nonBackground data w bgColor (tolerance config)) p = true
                    <-> inRect B p) as Hiff.
  { intros q. by rewrite Hfg, inRectb_spec. }
  assert ((1, 0) ∈ neighbors4) as H10 by (apply list_elem_of_In; simpl; tauto).
  assert ((0, 1) ∈ neighbors4) as H01 by (apply list_elem_of_In; simpl; tauto).
  pose proof (fun q => region_one_block _ neighbors4 H10 H01 B q Hiff Hw Hh) as Hreg.
  apply (regionSize_block _ _ B); [|done|done].
  intros q. rewrite <- Hreg.
  apply connected_same_region; [apply neighbors4_symmetric| |by apply Hreg].
  apply Hiff. unfold inRect, topLeft. simpl. lia.
Qed.

End OneBlock.

(** ** Detection of a single block *)

Section SingleBlock.

Variables (w h : Z) (data : list Z) (bgColor : Color) (config : DetectionConfig)
          (B : Rect).
Hypothesis Hlen : length data = Z.to_nat (4 * (w * h)).
Hypothesis Hblock : blockInImage w h B.
Hypothesis Hshape :
  foregroundIs w h data bgColor (tolerance config) (inRectb B) = true.

Local Notation "'fg0'" :=
  (foreground w h (nonBackground data w bgColor (tolerance config))).

Lemma block_foreground p : fg0 p = inRectb B p.
Proof.
  apply foreground_shape.
  - by apply foregroundIs_spec.
  - intros q Hq. apply inRectb_spec in Hq. by eapply inRect_inImage.
Qed.

Lemma block_small thr p :
  smallRegion fg0 thr p <-> inRect B p /\ rectArea B <= thr.
Proof.
  split.
  - intros (Hp & m & Hm & Hle). rewrite block_foreground in Hp.
    apply inRectb_spec in Hp. split; [done|].
    pose proof (block_regions4 w h bgColor config B Hblock data p block_foreground Hp) as Ha.
    pose proof (regionSize_unique _ _ _ _ _ Hm Ha). lia.
  - intros [Hp Hle]. split; [rewrite block_foreground; by apply inRectb_spec|].
    exists (rectArea B). split; [|done].
    by apply (block_regions4 w h bgColor config B Hblock data p block_foreground).
Qed.

(** The noise filter either keeps the block, or, when the block is no
    larger than the threshold, paints it; the painted block is foreground
    no more, unless the background color is not background itself. *)
Lemma block_after_noise :
  exists data',
    (if enableNoiseReduction config
     then applyNoiseReduction data w h bgColor config
     else Some data) = Some data' /\
    ((forall p, foreground w h (nonBackground data' w bgColor (tolerance config)) p
                = inRectb B p) \/
     (enableNoiseReduction config = true /\
      rectArea B <= effectiveNoiseThreshold config /\
      forall p, foreground w h (nonBackground data' w bgColor (tolerance config)) p
                = false)).
Proof.
  assert ((Z.to_nat (4 * (w * h)) <= length data)%nat) as Hle by lia.
  destruct (enableNoiseReduction config) eqn:Hen.
  2: { exists data. split; [done|]. left. apply block_foreground. }
  destruct (Z_lt_le_dec (effectiveNoiseThreshold config) (rectArea B)) as [Hbig|Hsmall].
  { exists data. split.
    - pose proof (applyNoiseReduction_id data w h bgColor config Hle) as Hid.
      rewrite Hen in Hid. apply Hid. intros p Hp. apply block_small in Hp. lia.
    - left. apply block_foreground. }
  destruct (applyNoiseReduction_spec data w h bgColor config Hen Hle)
    as (data' & M & Hr & Hd & HM).
  exists data'. split; [done|].
  assert (forall q, q ∈ M <-> inRect B q) as HMB.
  { intros q. rewrite HM, block_small. tauto. }
  assert (forall q, q ∈ M -> inImage w h q) as HMin.
  { intros q Hq. apply HMB in Hq. by eapply inRect_inImage. }
  destruct (selfBackground bgColor (tolerance config)) eqn:Hself.
  - right. split; [done|]. split; [done|]. intros p.
    rewrite Hd, (foreground_after_noise w h data bgColor _ M p Hle HMin), Hself.
    destruct (decide (p ∈ M)) as [Hp|Hp]; [done|].
    rewrite block_foreground. apply inRectb_false. by rewrite <- HMB.
  - left. intros p.
    rewrite Hd, (foreground_after_noise w h data bgColor _ M p Hle HMin), Hself.
    destruct (decide (p ∈ M)) as [Hp|Hp]; [|apply block_foreground].
    symmetry. apply inRectb_spec. by apply HMB.
Qed.

End SingleBlock.

(** C2, as amended.  For an image whose foreground, against the estimated
    background color, is exactly one block [B] of [k = rectArea B] pixels
    (square or not), detection on the main thread returns the single frame
    [{id: 0, name: "sprite_0", rect: B, type: "simple"}] when
    [minSpriteSize <= k] and the noise filter is off or its threshold is
    below [k]; it returns no frame when [minSpriteSize > k]. *)
Theorem single_block_detection img config bgColor B :
  validateInputs (ImageElement img) config = inr img ->
  length (pixels img) = Z.to_nat (4 * (naturalWidth img * naturalHeight img)) ->
  detectBackgroundColor (pixels img) (naturalWidth img) (naturalHeight img)
    = Some bgColor ->
  blockInImage (naturalWidth img) (naturalHeight img) B ->
  foregroundIs (naturalWidth img) (naturalHeight img) (pixels img) bgColor
    (tolerance (mergeConfig config)) (inRectb B) = true ->
  (minSpriteSize (mergeConfig config) <= rectArea B ->
   enableNoiseReduction (mergeConfig config) = false \/
   effectiveNoiseThreshold (mergeConfig config) < rectArea B ->
   floodFillAlgorithm (ImageElement img) config = Resolved [frameAt 0 B]) /\
  (rectArea B < minSpriteSize (mergeConfig config) ->
   floodFillAlgorithm (ImageElement img) config = Resolved []).
Proof.
  intros Hv Hlen Hbg Hblock Hshape.
  assert (naturalWidth img <> 0 /\ naturalHeight img <> 0) as [Hw Hh].
  { unfold blockInImage in Hblock. lia. }
  rewrite (floodFillAlgorithm_run img config bgColor Hv Hw Hh Hbg).
  destruct (block_after_noise _ _ _ bgColor (mergeConfig config) B Hlen Hblock Hshape)
    as (data' & -> & Hcases).
  split.
  - intros Hmin Hnoise. destruct Hcases as [Hfg|(Hen & Hsmall & _)]; [|lia || (destruct Hnoise; [congruence|lia])].
    destruct (scanImage_block _ _ bgColor (mergeConfig config) B Hblock data' Hfg)
      as (st & -> & ->).
    assert ((rectArea B >=? minSpriteSize (mergeConfig config)) = true) as ->; [|done].
    apply Z.geb_le. lia.
  - intros Hmin. destruct Hcases as [Hfg|(_ & _ & Hnone)].
    + destruct (scanImage_block _ _ bgColor (mergeConfig config) B Hblock data' Hfg)
        as (st & -> & ->).
      assert ((rectArea B >=? minSpriteSize (mergeConfig config)) = false) as ->; [|done].
      rewrite Z.geb_leb. apply Z.leb_gt. lia.
    + destruct (scanImage_no_region _ _ data' bgColor (mergeConfig config) Hnone)
        as (st & -> & ->). done.
Qed.

(** The scenario of the specification: the 10 by 10 image with a 3 by 3
    block at (2, 2) and [minSpriteSize = 4] gives the one frame
    [{x: 2, y: 2, w: 3, h: 3}]. *)
Lemma single_block_example :
  foregroundIs 10 10 (pixels blockExample) white 10 (inRectb (mkRect 2 2 3 3)) = true /\
  floodFillAlgorithm (ImageElement blockExample) (withMinSpriteSize 4)
  = Resolved [ {| frame_id := 0; frame_name := "sprite_0";
                  frame_rect := {| rect_x := 2; rect_y := 2; rect_w := 3; rect_h := 3 |};
                  frame_type := "simple" |} ].
Proof.
  split; [vm_compute; reflexivity|].
  refine (proj1 (single_block_detection blockExample (withMinSpriteSize 4) white
                   (mkRect 2 2 3 3) _ _ _ _ _) _ _).
  - reflexivity.
  - vm_compute; reflexivity.
  - vm_compute; reflexivity.
  - unfold blockInImage; simpl; lia.
  - vm_compute; reflexivity.
  - vm_compute; discriminate.
  - right. vm_compute; reflexivity.
Defined.

(** C2 as stated fails: a block of one pixel with [minSpriteSize = 1]
    ([minSpriteSize <= k]) is removed by the noise filter of the default
    configuration, and detection returns no frame. *)
Lemma single_pixel_block_is_filtered :
  foregroundIs 3 3 (pixels speckExample) white 10 (inRectb (mkRect 1 1 1 1)) = true /\
  detectBackgroundColor (pixels speckExample) 3 3 = Some white /\
  minSpriteSize (mergeConfig (withMinSpriteSize 1)) <= rectArea (mkRect 1 1 1 1) /\
  floodFillAlgorithm (ImageElement speckExample) (withMinSpriteSize 1) = Resolved [].
Proof.
  split; [vm_compute; reflexivity|].
  split; [vm_compute; reflexivity|].
  split; [vm_compute; discriminate|].
  vm_compute; reflexivity.
Qed.

(** ** Detection of two blocks *)

Lemma stepTo_neighbors8_far a b p q :
  2 <= Z.max (gapX a b) (gapY a b) -> inRect a p -> inRect b q ->
  ~ stepTo neighbors8 p q.
Proof.
  intros Hsep Hp Hq Hstep. apply stepTo_neighbors8 in Hstep.
  pose proof (gap_distance a b p q Hp Hq). lia.
Qed.

(** Two blocks that touch at a corner have a pair of diagonal neighbors. *)
Lemma diagonal_link a b :
  0 < rect_w a -> 0 < rect_h a -> 0 < rect_w b -> 0 < rect_h b ->
  diagonallyAdjacent a b ->
  exists p q, inRect a p /\ inRect b q /\ stepTo neighbors8 p q.
Proof.
  intros Hwa Hha Hwb Hhb [Hx Hy]. unfold gapX in Hx. unfold gapY in Hy.
  assert (forall d, d ∈ [(1, 1); (1, -1); (-1, 1); (-1, -1)] -> d ∈ neighbors8) as Hd.
  { intros d Hd. apply list_elem_of_In in Hd. apply list_elem_of_In.
    simpl in *. intuition. }
  destruct (Z_lt_le_dec (rect_x a) (rect_x b)) as [Hxa|Hxa];
    destruct (Z_lt_le_dec (rect_y a) (rect_y b)) as [Hya|Hya].
  - exists (rect_x a + rect_w a - 1, rect_y a + rect_h a - 1), (rect_x b, rect_y b).
    split; [unfold inRect; simpl; lia|]. split; [unfold inRect; simpl; lia|].
    exists (1, 1). split; [apply Hd, list_elem_of_In; simpl; tauto|].
    unfold offsetBy. simpl. f_equal; lia.
  - exists (rect_x a + rect_w a - 1, rect_y a), (rect_x b, rect_y b + rect_h b - 1).
    split; [unfold inRect; simpl; lia|]. split; [unfold inRect; simpl; lia|].
    exists (1, -1). split; [apply Hd, list_elem_of_In; simpl; tauto|].
    unfold offsetBy. simpl. f_equal; lia.
  - exists (rect_x a, rect_y a + rect_h a - 1), (rect_x b + rect_w b - 1, rect_y b).
    split; [unfold inRect; simpl; lia|]. split; [unfold inRect; simpl; lia|].
    exists (-1, 1). split; [apply Hd, list_elem_of_In; simpl; tauto|].
    unfold offsetBy. simpl. f_equal; lia.
  - exists (rect_x a, rect_y a), (rect_x b + rect_w b - 1, rect_y b + rect_h b - 1).
    split; [unfold inRect; simpl; lia|]. split; [unfold inRect; simpl; lia|].
    exists (-1, -1). split; [apply Hd, list_elem_of_In; simpl; tauto|].
    unfold offsetBy. simpl. f_equal; lia.
Qed.

Lemma diagonallyAdjacent_separated4 a b : diagonallyAdjacent a b -> separated4 a b.
Proof. unfold diagonallyAdjacent, separated4. lia. Qed.

Lemma far_separated4 a b : 2 <= Z.max (gapX a b) (gapY a b) -> separated4 a b.
Proof. unfold separated4, gapX, gapY. lia. Qed.

Section TwoBlocks.

Variables (w h : Z) (data : list Z) (bgColor : Color) (config : DetectionConfig)
          (B1 B2 : Rect).
Hypothesis Hb1 : blockInImage w h B1.
Hypothesis Hb2 : blockInImage w h B2.
Hypothesis Hsep : separated4 B1 B2.
Hypothesis Hfg :
  forall p, foreground w h (nonBackground data w bgColor (tolerance config)) p
            = inRectb B1 p || inRectb B2 p.

Local Notation "'fg'" :=
  (foreground w h (nonBackground data w bgColor (tolerance config))).

Lemma two_blocks_iff p : fg p = true <-> inRect B1 p \/ inRect B2 p.
Proof. by rewrite Hfg, orb_true_iff, !inRectb_spec. Qed.

Lemma two_blocks_iff_swap p : fg p = true <-> inRect B2 p \/ inRect B1 p.
Proof. rewrite two_blocks_iff. tauto. Qed.

Lemma two_blocks_disjoint p : inRect B1 p -> inRect B2 p -> False.
Proof. by apply separated4_disjoint. Qed.

(** Blocks with no step between them are two regions. *)
Lemma scanImage_separated_blocks :
  (forall p r, inRect B1 p -> inRect B2 r -> ~ stepTo (neighborsOf config) p r) ->
  scansBefore w (topLeft B1) (topLeft B2) ->
  exists st r1 r2,
    scanImage w h data bgColor config = Some st /\
    sFrames st = framesFrom (minSpriteSize config) [r1; r2] /\
    pixelCount r1 = rectArea B1 /\ resultRect r1 = B1 /\
    pixelCount r2 = rectArea B2 /\ resultRect r2 = B2.
Proof.
  intros Hno Horder.
  destruct Hb1 as (Hw1 & Hh1 & Hx1 & _). destruct Hb2 as (Hw2 & Hh2 & Hx2 & _).
  assert (forall p r, inRect B2 p -> inRect B1 r -> ~ stepTo (neighborsOf config) p r)
    as Hno'.
  { intros p r Hp Hr Hstep. apply (Hno r p Hr Hp).
    by apply stepTo_sym; [apply neighborsOf_symmetric|]. }
  pose proof (fun q => region_of_two_blocks fg (neighborsOf config)
                         (neighborsOf_right config) (neighborsOf_down config)
                         B1 B2 q two_blocks_iff Hno Hw1 Hh1) as Hreg1.
  pose proof (fun q => region_of_two_blocks fg (neighborsOf config)
                         (neighborsOf_right config) (neighborsOf_down config)
                         B2 B1 q two_blocks_iff_swap Hno' Hw2 Hh2) as Hreg2.
  assert (inRect B1 (topLeft B1)) as Ht1 by (unfold inRect, topLeft; simpl; lia).
  assert (inRect B2 (topLeft B2)) as Ht2 by (unfold inRect, topLeft; simpl; lia).
  destruct (scanImage_two_regions w h data bgColor config (topLeft B1) (topLeft B2))
    as (st & r1 & r2 & Hr & Hs1 & Hs2 & Hfr).
  - apply two_blocks_iff. by left.
  - apply two_blocks_iff. by right.
  - exact Horder.
  - intros Hc. apply Hreg1 in Hc. by apply (two_blocks_disjoint (topLeft B2)).
  - intros p Hp. apply two_blocks_iff in Hp as [Hp|Hp].
    + left. split; [by apply Hreg1|]. apply topLeft_first; [|done].
      unfold blockInImage in Hb1. lia.
    + right. split; [by apply Hreg2|]. apply topLeft_first; [|done].
      unfold blockInImage in Hb1. lia.
  - destruct (regionStats_block _ _ B1 _ r1 Hreg1 Hw1 Hh1 Hs1) as [Hc1 Hbx1].
    destruct (regionStats_block _ _ B2 _ r2 Hreg2 Hw2 Hh2 Hs2) as [Hc2 Hbx2].
    by exists st, r1, r2.
Qed.

(** Blocks linked by a step are one region. *)
Lemma scanImage_linked_blocks :
  (exists p q, inRect B1 p /\ inRect B2 q /\ stepTo (neighborsOf config) p q) ->
  scansBefore w (topLeft B1) (topLeft B2) ->
  exists st r,
    scanImage w h data bgColor config = Some st /\
    sFrames st = (if pixelCount r >=? minSpriteSize config
                  then [frameAt 0 (resultRect r)] else []) /\
    pixelCount r = rectArea B1 + rectArea B2 /\
    resultRect r = unionBox B1 B2.
Proof.
  intros (p1 & p2 & Hp1 & Hp2 & Hstep) Horder.
  destruct Hb1 as (Hw1 & Hh1 & Hx1 & _). destruct Hb2 as (Hw2 & Hh2 & Hx2 & _).
  assert (inRect B1 (topLeft B1)) as Ht1 by (unfold inRect, topLeft; simpl; lia).
  assert (inRect B2 (topLeft B2)) as Ht2 by (unfold inRect, topLeft; simpl; lia).
  assert (forall q, inRect B1 q -> connected fg (neighborsOf config) (topLeft B1) q) as Hc1.
  { intros q Hq. apply rect_connected;
      [apply neighborsOf_right|apply neighborsOf_down| |done].
    intros p Hp. apply two_blocks_iff. by left. }
  assert (forall q, inRect B2 q -> connected fg (neighborsOf config) (topLeft B2) q) as Hc2.
  { intros q Hq. apply rect_connected;
      [apply neighborsOf_right|apply neighborsOf_down| |done].
    intros p Hp. apply two_blocks_iff. by right. }
  assert (connected fg (neighborsOf config) (topLeft B1) (topLeft B2)) as Hlink.
  { eapply connected_trans.
    - eapply connected_step; [apply (Hc1 p1 Hp1)|exact Hstep|].
      apply two_blocks_iff. by right.
    - apply connected_sym; [apply neighborsOf_symmetric| |by apply Hc2].
      apply two_blocks_iff. by right. }
  assert (forall q, connected fg (neighborsOf config) (topLeft B1) q
                    <-> inRect B1 q \/ inRect B2 q) as Hreg.
  { intros q. split.
    - intros Hc. apply two_blocks_iff. eapply connected_holds; [|exact Hc].
      apply two_blocks_iff. by left.
    - intros [Hq|Hq]; [by apply Hc1|].
      eapply connected_trans; [exact Hlink|by apply Hc2]. }
  destruct (scanImage_one_region w h data bgColor config (topLeft B1))
    as (st & r & Hr & [Hsize Hbox] & Hfr).
  - apply two_blocks_iff. by left.
  - intros p Hp. split; [apply Hreg; by apply two_blocks_iff|].
    apply two_blocks_iff in Hp as [Hp|Hp].
    + apply topLeft_first; [|done]. unfold blockInImage in Hb1. lia.
    + pose proof (topLeft_first w B2 p ltac:(unfold blockInImage in Hb1; lia) Hp).
      unfold scansBefore in Horder. lia.
  - exists st, r. split; [done|]. split; [done|]. split.
    + eapply regionSize_unique; [exact Hsize|].
      exists (rectPixels B1 ++ rectPixels B2). split.
      * split.
        -- apply NoDup_app. split; [apply NoDup_rectPixels|].
           split; [|apply NoDup_rectPixels].
           intros q Hq1 Hq2. apply elem_of_rectPixels in Hq1, Hq2.
           by apply (two_blocks_disjoint q).
        -- intros q. by rewrite elem_of_app, !elem_of_rectPixels, Hreg.
      * rewrite length_app, Nat2Z.inj_add, !length_rectPixels by lia. done.
    + eapply boundingBox_unique; [exact Hbox|].
      eapply boundingBox_ext; [|by apply boundingBox_union].
      intros q. by rewrite Hreg.
Qed.

(** Neither block is a noise region when both exceed the threshold. *)
Lemma two_blocks_not_small thr p :
  thr < rectArea B1 -> thr < rectArea B2 -> ~ smallRegion fg thr p.
Proof.
  intros Ht1 Ht2 Hsmall.
  destruct Hb1 as (Hw1 & Hh1 & _). destruct Hb2 as (Hw2 & Hh2 & _).
  assert ((1, 0) ∈ neighbors4) as H10 by (apply list_elem_of_In; simpl; tauto).
  assert ((0, 1) ∈ neighbors4) as H01 by (apply list_elem_of_In; simpl; tauto).
  assert (forall p r, inRect B1 p -> inRect B2 r -> ~ stepTo neighbors4 p r) as Hno.
  { intros ? ? ? ?. by eapply separated4_no_step. }
  assert (forall p r, inRect B2 p -> inRect B1 r -> ~ stepTo neighbors4 p r) as Hno'.
  { intros ? ? ? ?. eapply separated4_no_step; [|done|done]. by apply separated4_sym. }
  pose proof (fun q => region_of_two_blocks fg neighbors4 H10 H01
                         B1 B2 q two_blocks_iff Hno Hw1 Hh1) as Hreg1.
  pose proof (fun q => region_of_two_blocks fg neighbors4 H10 H01
                         B2 B1 q two_blocks_iff_swap Hno' Hw2 Hh2) as Hreg2.
  assert (inRect B1 (topLeft B1)) as Hi1 by (unfold inRect, topLeft; simpl; lia).
  assert (inRect B2 (topLeft B2)) as Hi2 by (unfold inRect, topLeft; simpl; lia).
  pose proof Hsmall as [Hp _]. apply two_blocks_iff in Hp as [Hp|Hp].
  - eapply (not_smallRegion fg thr p (topLeft B1) (rectArea B1)); eauto.
    + apply two_blocks_iff. by left.
    + by apply Hreg1.
    + by apply (regionSize_block _ _ B1).
  - eapply (not_smallRegion fg thr p (topLeft B2) (rectArea B2)); eauto.
    + apply two_blocks_iff. by right.
    + by apply Hreg2.
    + by apply (regionSize_block _ _ B2).
Qed.

End TwoBlocks.

Lemma noise_keeps_two_blocks w h data bgColor config B1 B2 :
  length data = Z.to_nat (4 * (w * h)) ->
  blockInImage w h B1 -> blockInImage w h B2 -> separated4 B1 B2 ->
  (forall p, foreground w h (nonBackground data w bgColor (tolerance config)) p
             = inRectb B1 p || inRectb B2 p) ->
  enableNoiseReduction config = false \/
  (effectiveNoiseThreshold config < rectArea B1 /\
   effectiveNoiseThreshold config < rectArea B2) ->
  (if enableNoiseReduction config
   then applyNoiseReduction data w h bgColor config
   else Some data) = Some data.
Proof.
  intros Hlen Hb1 Hb2 Hsep Hfg [Hoff|[Ht1 Ht2]]; [by rewrite Hoff|].
  apply applyNoiseReduction_id; [lia|]. intros p.
  by apply (two_blocks_not_small w h data bgColor config B1 B2).
Qed.

Lemma framesFrom_two minSize r1 r2 :
  minSize <= pixelCount r1 -> minSize <= pixelCount r2 ->
  framesFrom minSize [r1; r2]
  = [frameAt 0 (resultRect r1); frameAt 1 (resultRect r2)].
Proof.
  intros H1 H2. unfold framesFrom. simpl.
  assert ((pixelCount r1 >=? minSize) = true) as -> by (apply Z.geb_le; lia).
  assert ((pixelCount r2 >=? minSize) = true) as -> by (apply Z.geb_le; lia).
  done.
Qed.

(** C5, as amended.  Take an image whose foreground, against the
    estimated background color, is exactly two blocks [B1] and [B2],
    [B1] being met first by the scan, each with at least [minSpriteSize]
    pixels and, when the noise filter is on, more pixels than its
    threshold.  With 4-connectivity, blocks that share no pixel and have no
    4-neighbors in common (in particular blocks that touch at a corner
    only) give the two frames of [B1] and [B2]; with 8-connectivity,
    blocks that touch at a corner give the one frame around both, and
    blocks at least one pixel apart in a row or column direction with no
    diagonal contact give the two frames. *)
Theorem two_blocks_detection img config bgColor B1 B2 :
  validateInputs (ImageElement img) config = inr img ->
  length (pixels img) = Z.to_nat (4 * (naturalWidth img * naturalHeight img)) ->
  detectBackgroundColor (pixels img) (naturalWidth img) (naturalHeight img)
    = Some bgColor ->
  blockInImage (naturalWidth img) (naturalHeight img) B1 ->
  blockInImage (naturalWidth img) (naturalHeight img) B2 ->
  foregroundIs (naturalWidth img) (naturalHeight img) (pixels img) bgColor
    (tolerance (mergeConfig config)) (fun p => inRectb B1 p || inRectb B2 p) = true ->
  scansBefore (naturalWidth img) (topLeft B1) (topLeft B2) ->
  minSpriteSize (mergeConfig config) <= rectArea B1 ->
  minSpriteSize (mergeConfig config) <= rectArea B2 ->
  enableNoiseReduction (mergeConfig config) = false \/
  (effectiveNoiseThreshold (mergeConfig config) < rectArea B1 /\
   effectiveNoiseThreshold (mergeConfig config) < rectArea B2) ->
  (use8WayConnectivity (mergeConfig config) = false -> separated4 B1 B2 ->
   floodFillAlgorithm (ImageElement img) config
   = Resolved [frameAt 0 B1; frameAt 1 B2]) /\
  (use8WayConnectivity (mergeConfig config) = true -> diagonallyAdjacent B1 B2 ->
   floodFillAlgorithm (ImageElement img) config
   = Resolved [frameAt 0 (unionBox B1 B2)]) /\
  (use8WayConnectivity (mergeConfig config) = true ->
   2 <= Z.max (gapX B1 B2) (gapY B1 B2) ->
   floodFillAlgorithm (ImageElement img) config
   = Resolved [frameAt 0 B1; frameAt 1 B2]).
Proof.
  intros Hv Hlen Hbg Hb1 Hb2 Hshape Horder Hm1 Hm2 Hnoise.
  assert (naturalWidth img <> 0 /\ naturalHeight img <> 0) as [Hw Hh].
  { unfold blockInImage in Hb1. lia. }
  rewrite (floodFillAlgorithm_run img config bgColor Hv Hw Hh Hbg).
  assert (forall p, foreground (naturalWidth img) (naturalHeight img)
                      (nonBackground (pixels img) (naturalWidth img) bgColor
                         (tolerance (mergeConfig config))) p
                    = inRectb B1 p || inRectb B2 p) as Hfg.
  { intros p. apply (foreground_shape _ _ _ _ _ (fun p => inRectb B1 p || inRectb B2 p)).
    - by apply foregroundIs_spec.
    - intros q Hq. apply orb_true_iff in Hq as [Hq|Hq]; apply inRectb_spec in Hq.
      + by apply (inRect_inImage _ _ B1).
      + by apply (inRect_inImage _ _ B2). }
  assert (separated4 B1 B2 ->
          (if enableNoiseReduction (mergeConfig config)
           then applyNoiseReduction (pixels img) (naturalWidth img) (naturalHeight img)
                  bgColor (mergeConfig config)
           else Some (pixels img)) = Some (pixels img)) as Hkeep.
  { intros Hsep. by apply (noise_keeps_two_blocks _ _ _ _ _ B1 B2). }
  assert (separated4 B1 B2 ->
          (forall p r, inRect B1 p -> inRect B2 r ->
                       ~ stepTo (neighborsOf (mergeConfig config)) p r) ->
          match scanImage (naturalWidth img) (naturalHeight img) (pixels img) bgColor
                  (mergeConfig config) with
          | Some st => Resolved (sFrames st)
          | None => OutOfFuel
          end = Resolved [frameAt 0 B1; frameAt 1 B2]) as Htwo.
  { intros Hsep Hno.
    destruct (scanImage_separated_blocks _ _ _ bgColor (mergeConfig config) B1 B2
                Hb1 Hb2 Hsep Hfg Hno Horder)
      as (st & r1 & r2 & -> & -> & Hc1 & Hx1 & Hc2 & Hx2).
    rewrite framesFrom_two by lia. by rewrite Hx1, Hx2. }
  split; [|split].
  - intros H4 Hsep. rewrite (Hkeep Hsep). apply (Htwo Hsep).
    unfold neighborsOf. rewrite H4. intros p r Hp Hr. by eapply separated4_no_step.
  - intros H8 Hdiag.
    pose proof (diagonallyAdjacent_separated4 _ _ Hdiag) as Hsep.
    rewrite (Hkeep Hsep).
    destruct (scanImage_linked_blocks _ _ _ bgColor (mergeConfig config) B1 B2
                Hb1 Hb2 Hsep Hfg)
      as (st & r & -> & -> & Hc & Hx); [|done|].
    { unfold neighborsOf. rewrite H8. apply diagonal_link; try done;
        unfold blockInImage in *; lia. }
    assert ((pixelCount r >=? minSpriteSize (mergeConfig config)) = true) as ->.
    { apply Z.geb_le. rewrite Hc. unfold blockInImage, rectArea in *. nia. }
    by rewrite Hx.
  - intros H8 Hfar.
    pose proof (far_separated4 _ _ Hfar) as Hsep.
    rewrite (Hkeep Hsep). apply (Htwo Hsep).
    unfold neighborsOf. rewrite H8. intros p r Hp Hr. by eapply stepTo_neighbors8_far.
Qed.

(** Two 2 by 2 blocks that touch at a corner: two frames with
    4-connectivity, one frame around both with 8-connectivity. *)
Lemma two_blocks_example :
  diagonallyAdjacent (mkRect 1 1 2 2) (mkRect 3 3 2 2) /\
  floodFillAlgorithm (ImageElement diagonalExample) (withConnectivity 4 false)
  = Resolved [frameAt 0 (mkRect 1 1 2 2); frameAt 1 (mkRect 3 3 2 2)] /\
  floodFillAlgorithm (ImageElement diagonalExample) (withConnectivity 4 true)
  = Resolved [frameAt 0 (mkRect 1 1 4 4)].
Proof.
  assert (diagonallyAdjacent (mkRect 1 1 2 2) (mkRect 3 3 2 2)) as Hdiag.
  { split; vm_compute; reflexivity. }
  split; [exact Hdiag|]. split.
  - refine (proj1 (two_blocks_detection diagonalExample (withConnectivity 4 false) white
                     (mkRect 1 1 2 2) (mkRect 3 3 2 2) _ _ _ _ _ _ _ _ _ _) _ _).
    + reflexivity.
    + vm_compute; reflexivity.
    + vm_compute; reflexivity.
    + unfold blockInImage; simpl; lia.
    + unfold blockInImage; simpl; lia.
    + vm_compute; reflexivity.
    + vm_compute; reflexivity.
    + vm_compute; discriminate.
    + vm_compute; discriminate.
    + right. split; vm_compute; reflexivity.
    + reflexivity.
    + vm_compute; discriminate.
  - refine (proj1 (proj2 (two_blocks_detection diagonalExample (withConnectivity 4 true)
                            white (mkRect 1 1 2 2) (mkRect 3 3 2 2)
                            _ _ _ _ _ _ _ _ _ _)) _ _).
    + reflexivity.
    + vm_compute; reflexivity.
    + vm_compute; reflexivity.
    + unfold blockInImage; simpl; lia.
    + unfold blockInImage; simpl; lia.
    + vm_compute; reflexivity.
    + vm_compute; reflexivity.
    + vm_compute; discriminate.
    + vm_compute; discriminate.
    + right. split; vm_compute; reflexivity.
    + reflexivity.
    + exact Hdiag.
Defined.

(** C5 as stated fails: two blocks of one pixel that touch at a corner,
    with [minSpriteSize = 1], are both removed by the noise filter of the
    default configuration; detection returns no frame with 4-connectivity
    (not two) and no frame with 8-connectivity (not one). *)
Lemma diagonal_specks_are_filtered :
  diagonallyAdjacent (mkRect 1 1 1 1) (mkRect 2 2 1 1) /\
  foregroundIs 4 4 (pixels diagonalSpecks) white 10
    (fun p => inRectb (mkRect 1 1 1 1) p || inRectb (mkRect 2 2 1 1) p) = true /\
  floodFillAlgorithm (ImageElement diagonalSpecks) (withConnectivity 1 false)
  = Resolved [] /\
  floodFillAlgorithm (ImageElement diagonalSpecks) (withConnectivity 1 true)
  = Resolved [].
Proof.
  split; [split; vm_compute; reflexivity|].
  split; [vm_compute; reflexivity|].
  split; vm_compute; reflexivity.
Qed.

(** ** The estimated background color is made of bytes of the buffer *)

Lemma rd_byte data i v :
  Forall (fun v => 0 <= v <= 255) data -> rd data i = Some v -> 0 <= v <= 255.
Proof.
  intros Hb. unfold rd. destruct (i <? 0); [done|]. intros H.
  rewrite Forall_forall in Hb. apply Hb. by eapply list_elem_of_lookup_2.
Qed.

Lemma parseKey_byte data i :
  Forall (fun v => 0 <= v <= 255) data -> byteColor (parseKey (sampleAt data i)).
Proof.
  intros Hb. unfold byteColor, parseKey, sampleAt, toNumber. cbn [cr cg cb ca].
  repeat split;
    match goal with
    | |- context [rd data ?j] =>
        destruct (rd data j) as [v|] eqn:E; simpl;
        [pose proof (rd_byte data j v Hb E); lia|lia]
    end.
Qed.

Lemma bumpSimilar_keys color counts counts' :
  bumpSimilar color counts = Some counts' -> map fst counts' = map fst counts.
Proof.
  revert counts'. induction counts as [|[k n] rest IH]; intros counts' H; simpl in H.
  - done.
  - destruct (colorsSimilar color k 5).
    + by inversion H.
    + destruct (bumpSimilar color rest) as [r|] eqn:E; simpl in H; [|done].
      inversion H. simpl. f_equal. by apply IH.
Qed.

Lemma countColor_keys (P : Color -> Prop) counts color :
  Forall P (map fst counts) -> P (parseKey color) ->
  Forall P (map fst (countColor counts color)).
Proof.
  intros Hc Hp. unfold countColor.
  destruct (bumpSimilar color counts) as [c|] eqn:E.
  - by rewrite (bumpSimilar_keys _ _ _ E).
  - rewrite map_app. apply Forall_app. split; [done|]. by repeat constructor.
Qed.

Lemma fold_countColor_keys (P : Color -> Prop) samples counts :
  Forall P (map fst counts) -> Forall (fun s => P (parseKey s)) samples ->
  Forall P (map fst (fold_left countColor samples counts)).
Proof.
  revert counts. induction samples as [|s samples IH]; intros counts Hc Hs; simpl.
  - done.
  - apply Forall_cons in Hs as [Hs Hss]. apply IH; [|done]. by apply countColor_keys.
Qed.

Lemma mostCommon_key {K : Type} (counts : list (K * Z)) k :
  mostCommon counts = Some k -> k ∈ map fst counts.
Proof.
  unfold mostCommon. destruct counts as [|first rest]; [done|].
  intros H. inversion H as [Hk]. clear H Hk.
  assert (forall l a, fst (fold_left (fun a b : K * Z => if snd a >? snd b then a else b) l a)
                      ∈ fst a :: map fst l) as Hfold.
  { induction l as [|b l IH]; intros a; simpl; [by left|].
    specialize (IH (if snd a >? snd b then a else b)).
    destruct (snd a >? snd b).
    - apply elem_of_cons in IH as [->|IH]; [by left|]. right. by right.
    - apply elem_of_cons in IH as [->|IH]; [right; by left|]. right. by right. }
  apply Hfold.
Qed.

Lemma borderPixels_samples data w h :
  Forall (fun s => exists i, s = sampleAt data i) (borderPixels data w h).
Proof.
  unfold borderPixels. apply Forall_app. split.
  - apply Forall_forall. intros s Hs.
    apply list_elem_of_In, in_flat_map in Hs as (x & _ & Hs).
    simpl in Hs. destruct Hs as [<-|[<-|[]]]; eauto.
  - apply Forall_forall. intros s Hs.
    apply list_elem_of_In, in_flat_map in Hs as (x & _ & Hs).
    simpl in Hs. destruct Hs as [<-|[<-|[]]]; eauto.
Qed.

Lemma detectBackgroundColor_bytes data w h bgColor :
  Forall (fun v => 0 <= v <= 255) data ->
  detectBackgroundColor data w h = Some bgColor -> byteColor bgColor.
Proof.
  intros Hb Hd. unfold detectBackgroundColor in Hd. apply mostCommon_key in Hd.
  assert (Forall byteColor
            (map fst (fold_left countColor (borderPixels data w h) []))) as Hall.
  { apply fold_countColor_keys; [constructor|].
    eapply Forall_impl; [apply borderPixels_samples|].
    intros s [i ->]. by apply parseKey_byte. }
  rewrite Forall_forall in Hall. by apply Hall.
Qed.

Lemma clamp8_byte v : 0 <= v <= 255 -> clamp8 v = v.
Proof. unfold clamp8. lia. Qed.

Lemma paintedSample_byte bgColor :
  byteColor bgColor ->
  paintedSample bgColor
  = (Some (cr bgColor), Some (cg bgColor), Some (cb bgColor), Some (ca bgColor)).
Proof.
  intros (Hr & Hg & Hb & Ha). unfold paintedSample. by rewrite !clamp8_byte.
Qed.

(** An opaque or a transparent background color is background itself. *)
Lemma selfBackground_opaque bgColor tol :
  byteColor bgColor -> 0 <= tol -> ca bgColor = 0 \/ ca bgColor = 255 ->
  selfBackground bgColor tol = true.
Proof.
  intros (Hr & Hg & Hb & Ha) Htol Halpha.
  unfold selfBackground, isBackgroundColor. rewrite !clamp8_byte by done.
  change (rd [cr bgColor; cg bgColor; cb bgColor; ca bgColor] (0 + 3))
    with (Some (ca bgColor)).
  change (rd [cr bgColor; cg bgColor; cb bgColor; ca bgColor] (0 + 2))
    with (Some (cb bgColor)).
  change (rd [cr bgColor; cg bgColor; cb bgColor; ca bgColor] (0 + 1))
    with (Some (cg bgColor)).
  change (rd [cr bgColor; cg bgColor; cb bgColor; ca bgColor] 0)
    with (Some (cr bgColor)).
  cbn [isZero isPositive].
  destruct Halpha as [E|E]; rewrite E; [done|].
  cbn. unfold rgbDistance. apply Z.leb_le. lia.
Qed.

Lemma validateInputs_tolerance imageElement config img :
  validateInputs imageElement config = inr img ->
  0 <= tolerance (mergeConfig config) <= 255.
Proof.
  unfold validateInputs, mergeConfig. cbn [tolerance DEFAULT_CONFIG].
  destruct imageElement as [|img']; [done|].
  destruct (negb (complete img')); [done|].
  destruct (p_tolerance config) as [t|]; simpl; [|lia].
  destruct (t <? 0) eqn:E1; [done|]. destruct (t >? 255) eqn:E2; [done|].
  intros _. apply Z.ltb_ge in E1. rewrite Z.gtb_ltb in E2. apply Z.ltb_ge in E2. lia.
Qed.

Lemma validateInputs_minSpriteSize imageElement config img :
  validateInputs imageElement config = inr img ->
  1 <= minSpriteSize (mergeConfig config).
Proof.
  unfold validateInputs, mergeConfig. cbn [minSpriteSize DEFAULT_CONFIG].
  destruct imageElement as [|img']; [done|].
  destruct (negb (complete img')); [done|].
  destruct (match p_tolerance config with Some t => _ | None => _ end); [done|].
  destruct (p_minSpriteSize config) as [m|]; simpl; [|lia].
  destruct (m <? 1) eqn:E1; [done|]. intros _. apply Z.ltb_ge in E1. lia.
Qed.

Lemma pixelColor_sample data w p bgColor :
  sampleAt data (pixelIndex w p * 4)
  = (Some (cr bgColor), Some (cg bgColor), Some (cb bgColor), Some (ca bgColor)) ->
  pixelColor data w p = Some bgColor.
Proof. unfold pixelColor. intros ->. by destruct bgColor. Qed.

(** C4, as amended.  On the main thread, with the noise filter on and an
    estimated background color that is fully opaque or fully transparent:
    the filter terminates; it sets the four channels of every pixel of a
    4-connected foreground region of at most [noiseThreshold || 2] pixels
    to the background color, after which the pixel is background; it
    leaves every other pixel as it was; and every frame of the result
    bounds a region (for the configured connectivity) of at least
    [minSpriteSize] foreground pixels of the filtered buffer, none of
    which belongs to such a small region. *)
Theorem noise_regions_removed img config bgColor :
  let w := naturalWidth img in
  let h := naturalHeight img in
  let final := mergeConfig config in
  let fg0 := foreground w h (nonBackground (pixels img) w bgColor (tolerance final)) in
  let noise := smallRegion fg0 (effectiveNoiseThreshold final) in
  validateInputs (ImageElement img) config = inr img ->
  wellFormedBuffer w h (pixels img) ->
  w <> 0 -> h <> 0 ->
  detectBackgroundColor (pixels img) w h = Some bgColor ->
  enableNoiseReduction final = true ->
  ca bgColor = 0 \/ ca bgColor = 255 ->
  exists data' frames,
    applyNoiseReduction (pixels img) w h bgColor final = Some data' /\
    floodFillAlgorithm (ImageElement img) config = Resolved frames /\
    (forall p, noise p ->
       pixelColor data' w p = Some bgColor /\
       isBackgroundColor data' (pixelIndex w p * 4) bgColor (tolerance final) = true) /\
    (forall p, inImage w h p -> ~ noise p ->
       sampleAt data' (pixelIndex w p * 4) = sampleAt (pixels img) (pixelIndex w p * 4)) /\
    Forall (fun f =>
              exists s n,
                let fg' := foreground w h (nonBackground data' w bgColor (tolerance final)) in
                fg' s = true /\
                regionSize fg' (neighborsOf final) s n /\
                minSpriteSize final <= n /\
                boundingBox (connected fg' (neighborsOf final) s) (frame_rect f) /\
                forall q, connected fg' (neighborsOf final) s q -> ~ noise q)
           frames.
Proof.
  intros w h final fg0 noise Hv [Hlen Hbytes] Hw Hh Hbg Hen Halpha.
  assert ((Z.to_nat (4 * (w * h)) <= length (pixels img))%nat) as Hle by lia.
  pose proof (detectBackgroundColor_bytes _ _ _ _ Hbytes Hbg) as Hbyte.
  pose proof (validateInputs_tolerance _ _ _ Hv) as Htol.
  assert (selfBackground bgColor (tolerance final) = true) as Hself.
  { apply selfBackground_opaque; [done|unfold final; lia|done]. }
  destruct (applyNoiseReduction_spec (pixels img) w h bgColor final Hen Hle)
    as (data' & M & Hr & Hd & HM).
  assert (forall q, q ∈ M -> inImage w h q) as HMin.
  { intros q Hq. apply HM in Hq as [Hq _]. by eapply foreground_inImage. }
  destruct (scanImage_sound w h data' bgColor final) as (st & Hscan & Hframes & _ & _).
  exists data', (sFrames st). split; [done|]. split.
  { rewrite (floodFillAlgorithm_run img config bgColor Hv Hw Hh Hbg).
    fold w h final. by rewrite Hen, Hr, Hscan. }
  split.
  { intros p Hp. apply HM in Hp.
    assert (sampleAt data' (pixelIndex w p * 4) = paintedSample bgColor) as Hs.
    { rewrite Hd. by apply (sampleAt_paintAll_same w h). }
    split.
    - apply pixelColor_sample. by rewrite Hs, paintedSample_byte.
    - by rewrite (isBackgroundColor_painted _ _ _ _ Hs). }
  split.
  { intros p Hp Hn. rewrite Hd. apply (sampleAt_paintAll_other w h); [done|done|].
    intros HpM. by apply Hn, HM. }
  eapply Forall_impl; [exact Hframes|].
  intros f (s & n & Hs & Hn & Hmin & Hbox). exists s, n.
  cbv zeta. split; [done|]. split; [done|]. split; [done|]. split; [done|].
  intros q Hq Hnoise.
  pose proof (connected_holds _ _ _ _ Hs Hq) as Hfq.
  rewrite Hd, (foreground_after_noise w h _ bgColor _ M q Hle HMin), Hself in Hfq.
  destruct (decide (q ∈ M)) as [HqM|HqM]; [done|]. by apply HqM, HM.
Qed.

(** The red pixel of the 3 by 3 example is a noise region: the filter
    paints it white and detection returns no frame, with
    [minSpriteSize = 1]. *)
Lemma noise_regions_example :
  exists data' frames,
    applyNoiseReduction (pixels speckExample) 3 3 white
      (mergeConfig (withMinSpriteSize 1)) = Some data' /\
    floodFillAlgorithm (ImageElement speckExample) (withMinSpriteSize 1)
      = Resolved frames /\
    frames = [] /\
    pixelColor data' 3 (1, 1) = Some white.
Proof.
  destruct (noise_regions_removed speckExample (withMinSpriteSize 1) white)
    as (data' & frames & Hr & Hf & Hpaint & _ & _).
  - reflexivity.
  - split; [vm_compute; reflexivity|].
    vm_compute. repeat constructor; discriminate.
  - vm_compute; discriminate.
  - vm_compute; discriminate.
  - vm_compute; reflexivity.
  - reflexivity.
  - right; reflexivity.
  - exists data', frames. split; [exact Hr|]. split; [exact Hf|]. split.
    + assert (floodFillAlgorithm (ImageElement speckExample) (withMinSpriteSize 1)
              = Resolved []) as E by (vm_compute; reflexivity).
      rewrite E in Hf. by inversion Hf.
    + apply Hpaint.
      apply (block_small 3 3 (pixels speckExample) white
               (mergeConfig (withMinSpriteSize 1)) (mkRect 1 1 1 1)).
      * vm_compute; reflexivity.
      * unfold blockInImage; simpl; lia.
      * vm_compute; reflexivity.
      * split; [unfold inRect; simpl; lia|vm_compute; discriminate].
Defined.

(** C4 as stated fails: in an image whose border is mostly translucent,
    the estimated background color is translucent and every visible pixel
    is foreground.  The region of the single pixel (0, 0) counts one
    pixel, at most the threshold 2, and is painted with the background
    color, yet it stays foreground and detection returns a frame for it
    (and one for the pixel (2, 0)), with [minSpriteSize = 1]. *)
Lemma translucent_noise_region_keeps_its_frame :
  detectBackgroundColor (pixels translucentExample) 3 1 = Some translucentRed /\
  countConnectedPixels 0 0 3 1 (pixels translucentExample) translucentRed 10 = Some 1 /\
  (exists data',
     applyNoiseReduction (pixels translucentExample) 3 1 translucentRed
       (mergeConfig (withMinSpriteSize 1)) = Some data' /\
     pixelColor data' 3 (0, 0) = Some translucentRed /\
     isBackgroundColor data' 0 translucentRed 10 = false) /\
  floodFillAlgorithm (ImageElement translucentExample) (withMinSpriteSize 1)
  = Resolved [frameAt 0 (mkRect 0 0 1 1); frameAt 1 (mkRect 2 0 1 1)].
Proof.
  split; [vm_compute; reflexivity|].
  split; [vm_compute; reflexivity|].
  split; [|vm_compute; reflexivity].
  eexists. split; [vm_compute; reflexivity|].
  split; vm_compute; reflexivity.
Qed.

(** The worker's copy of the algorithm has no noise filter: the red pixel
    of the 3 by 3 example gives a frame there. *)
Lemma worker_skips_noise_filter :
  Worker.processImageData (pixels speckExample) 3 3 (mergeConfig (withMinSpriteSize 1))
  = Resolved ([frameAt 0 (mkRect 1 1 1 1)], Worker.mkStats 1 9).
Proof. vm_compute; reflexivity. Qed.

(** ** A falsy noise threshold *)

(** C10.  With the noise filter on and [noiseThreshold] equal to [0] or
    [undefined], the filter works with the threshold 2: it behaves as with
    [noiseThreshold = 2] on every buffer, it terminates, and it paints
    every 4-connected foreground region of at most 2 pixels with the
    background color. *)
Theorem falsy_noise_threshold_is_two data w h bgColor config :
  let fg0 := foreground w h (nonBackground data w bgColor (tolerance config)) in
  enableNoiseReduction config = true ->
  noiseThreshold config = Some 0 \/ noiseThreshold config = None ->
  (Z.to_nat (4 * (w * h)) <= length data)%nat ->
  effectiveNoiseThreshold config = 2 /\
  applyNoiseReduction data w h bgColor config
  = applyNoiseReduction data w h bgColor (setNoiseThreshold (Some 2) config) /\
  exists data',
    applyNoiseReduction data w h bgColor config = Some data' /\
    forall p n, fg0 p = true -> regionSize fg0 neighbors4 p n -> n <= 2 ->
                sampleAt data' (pixelIndex w p * 4) = paintedSample bgColor.
Proof.
  intros fg0 Hen Hfalsy Hlen.
  assert (effectiveNoiseThreshold config = 2) as Heff.
  { unfold effectiveNoiseThreshold. by destruct Hfalsy as [-> | ->]. }
  split; [done|]. split.
  { unfold applyNoiseReduction. cbn [enableNoiseReduction tolerance setNoiseThreshold].
    rewrite Heff. done. }
  destruct (applyNoiseReduction_spec data w h bgColor config Hen Hlen)
    as (data' & M & Hr & Hd & HM).
  exists data'. split; [done|]. intros p n Hp Hn Hle.
  assert (p ∈ M) as HpM.
  { apply HM. split; [done|]. exists n. split; [done|lia]. }
  rewrite Hd. apply (sampleAt_paintAll_same w h); [|done|done].
  intros q Hq. apply HM in Hq as [Hq _]. by eapply foreground_inImage.
Qed.

(** The block of two red pixels is painted white although the caller set
    [noiseThreshold] to [0]. *)
Lemma falsy_noise_threshold_example :
  exists data',
    applyNoiseReduction (pixels pairExample) 4 3 white
      (setNoiseThreshold (Some 0) DEFAULT_CONFIG) = Some data' /\
    sampleAt data' (pixelIndex 4 (1, 1) * 4) = paintedSample white /\
    sampleAt data' (pixelIndex 4 (2, 1) * 4) = paintedSample white.
Proof.
  destruct (falsy_noise_threshold_is_two (pixels pairExample) 4 3 white
              (setNoiseThreshold (Some 0) DEFAULT_CONFIG))
    as (_ & _ & data' & Hr & Hpaint).
  - reflexivity.
  - left; reflexivity.
  - vm_compute; lia.
  - exists data'. split; [exact Hr|].
    assert (forall p, inRect (mkRect 1 1 2 1) p ->
              sampleAt data' (pixelIndex 4 p * 4) = paintedSample white) as Hall.
    { intros p Hp. apply (Hpaint p (rectArea (mkRect 1 1 2 1))).
      - rewrite (block_foreground 4 3 (pixels pairExample) white
                   (setNoiseThreshold (Some 0) DEFAULT_CONFIG) (mkRect 1 1 2 1)).
        + by apply inRectb_spec.
        + unfold blockInImage; simpl; lia.
        + vm_compute; reflexivity.
      - apply (block_regions4 4 3 white (setNoiseThreshold (Some 0) DEFAULT_CONFIG)
                 (mkRect 1 1 2 1)).
        + unfold blockInImage; simpl; lia.
        + apply block_foreground.
          * unfold blockInImage; simpl; lia.
          * vm_compute; reflexivity.
        + done.
      - vm_compute; discriminate. }
    split; apply Hall; unfold inRect; simpl; lia.
Defined.

(** ** The background predicate *)

(** C1.  For a pixel [(r, g, b, a)] read from the buffer, with [a] a
    byte, [isBackgroundColor] follows three rules in order: the pixel is
    background when [a = 0]; otherwise it is not background when the
    alpha of [bgColor] is below 255; otherwise it is background exactly
    when [|r - bgR| + |g - bgG| + |b - bgB| <= tolerance].  Together: the
    pixel is background if and only if it is transparent, or [bgColor] is
    opaque and the distance is within the tolerance. *)
Theorem isBackgroundColor_rules data index bgColor tol r g b a :
  sampleAt data index = (Some r, Some g, Some b, Some a) ->
  0 <= a <= 255 ->
  (a = 0 -> isBackgroundColor data index bgColor tol = true) /\
  (a <> 0 -> ca bgColor < 255 -> isBackgroundColor data index bgColor tol = false) /\
  (a <> 0 -> 255 <= ca bgColor ->
   isBackgroundColor data index bgColor tol
   = (Z.abs (r - cr bgColor) + Z.abs (g - cg bgColor) + Z.abs (b - cb bgColor)
      <=? tol)) /\
  (isBackgroundColor data index bgColor tol = true <->
   a = 0 \/
   (255 <= ca bgColor /\
    Z.abs (r - cr bgColor) + Z.abs (g - cg bgColor) + Z.abs (b - cb bgColor) <= tol)).
Proof.
  intros Hs Ha. unfold sampleAt in Hs. inversion Hs as [[Hr Hg Hb Haa]].
  unfold isBackgroundColor. rewrite Hr, Hg, Hb, Haa. cbn [isZero isPositive].
  unfold rgbDistance.
  destruct (Z.eqb_spec a 0) as [->|Hne].
  - split; [done|]. split; [done|]. split; [done|]. split; auto.
  - assert ((a >? 0) = true) as -> by (apply Z.gtb_lt; lia).
    rewrite andb_true_r.
    destruct (Z.ltb_spec (ca bgColor) 255) as [Hlt|Hge].
    + split; [done|]. split; [done|]. split; [lia|].
      split; [done|]. intros [?|[? _]]; [done|lia].
    + split; [done|]. split; [lia|]. split; [done|].
      rewrite Z.leb_le. split; [auto|]. intros [?|[_ ?]]; [done|done].
Qed.

(** A gray pixel against an opaque gray background color, two units of
    distance away, with tolerance 5. *)
Lemma isBackgroundColor_example :
  isBackgroundColor [10; 20; 30; 255] 0 (mkColor 12 20 30 255) 5 = true.
Proof.
  apply (isBackgroundColor_rules [10; 20; 30; 255] 0 (mkColor 12 20 30 255) 5
           10 20 30 255).
  - reflexivity.
  - lia.
  - right. split; [simpl; lia|simpl; lia].
Defined.

(** ** The worker's background estimate *)

(** C3 fails in the worker.  In the 4 by 4 image whose corners are red
    and whose other pixels are white, the main-thread estimator, which
    samples the whole border, returns white; the worker's copy, which
    reads the four corners only, returns red.  Detection then differs:
    on the main thread the four red pixels are noise and no frame is
    returned, while the worker takes the white pixels for one sprite. *)
Theorem worker_background_reads_corners_only :
  detectBackgroundColor (pixels cornersExample) 4 4 = Some white /\
  Worker.detectBackgroundColor (pixels cornersExample) 4 4 = Some red /\
  fst (detectSpritesFromImage NoWorkerAPI freshOrchestrator
         (ImageElement cornersExample) emptyConfig)
  = Resolved [] /\
  fst (detectSpritesFromImage WorkerStarts freshOrchestrator
         (ImageElement cornersExample) emptyConfig)
  = Resolved [frameAt 0 (mkRect 0 0 4 4)].
Proof. repeat split; vm_compute; reflexivity. Qed.

(** The worker's estimate is a function of the four corner pixels. *)
Lemma worker_background_from_corners data data' w h :
  sampleAt data ((0 * w + 0) * 4) = sampleAt data' ((0 * w + 0) * 4) ->
  sampleAt data ((0 * w + (w - 1)) * 4) = sampleAt data' ((0 * w + (w - 1)) * 4) ->
  sampleAt data (((h - 1) * w + 0) * 4) = sampleAt data' (((h - 1) * w + 0) * 4) ->
  sampleAt data (((h - 1) * w + (w - 1)) * 4)
  = sampleAt data' (((h - 1) * w + (w - 1)) * 4) ->
  Worker.detectBackgroundColor data w h = Worker.detectBackgroundColor data' w h.
Proof.
  intros H1 H2 H3 H4. unfold Worker.detectBackgroundColor. cbn [map fst snd].
  by rewrite H1, H2, H3, H4.
Qed.

(** ** The cache *)

Lemma cacheGet_None cache key :
  cacheGet cache key = None <-> key ∉ map fst cache.
Proof.
  induction cache as [|[k v] rest IH]; simpl.
  - split; [intros _ H; by apply elem_of_nil in H|done].
  - destruct (decide (k = key)) as [->|Hne].
    + split; [done|]. intros H. exfalso. apply H. by left.
    + rewrite IH. split.
      * intros H Hin. apply elem_of_cons in Hin as [?|?]; [by subst|done].
      * intros H Hin. apply H. by right.
Qed.

Lemma cacheSet_fresh cache key value :
  key ∉ map fst cache -> cacheSet cache key value = cache ++ [(key, value)].
Proof.
  induction cache as [|[k v] rest IH]; simpl; intros Hnot; [done|].
  destruct (decide (k = key)) as [->|Hne].
  - exfalso. apply Hnot. by left.
  - f_equal. apply IH. intros Hin. apply Hnot. by right.
Qed.

Lemma cacheSet_keys cache key value :
  key ∈ map fst cache -> map fst (cacheSet cache key value) = map fst cache.
Proof.
  induction cache as [|[k v] rest IH]; simpl; intros Hin.
  - by apply elem_of_nil in Hin.
  - destruct (decide (k = key)) as [->|Hne]; [done|].
    simpl. f_equal. apply IH. apply elem_of_cons in Hin as [?|?]; [by subst|done].
Qed.

Lemma cacheGet_cacheSet cache key value :
  cacheGet (cacheSet cache key value) key = Some value.
Proof.
  induction cache as [|[k v] rest IH]; simpl.
  - by rewrite decide_True.
  - destruct (decide (k = key)) as [->|Hne]; simpl.
    + by rewrite decide_True.
    + by rewrite decide_False.
Qed.

Lemma length_cacheSet cache key value :
  (length (cacheSet cache key value) <= S (length cache))%nat /\
  (key ∈ map fst cache -> length (cacheSet cache key value) = length cache).
Proof.
  induction cache as [|[k v] rest [IH1 IH2]]; simpl.
  - split; [lia|]. intros H. by apply elem_of_nil in H.
  - destruct (decide (k = key)) as [->|Hne]; simpl; [split; [lia|done]|].
    split; [lia|]. intros Hin. f_equal. apply IH2.
    apply elem_of_cons in Hin as [?|?]; [by subst|done].
Qed.

Lemma manageCacheSize_small cache :
  (length cache <= 10)%nat -> manageCacheSize cache = cache.
Proof.
  intros H. unfold manageCacheSize, CACHE_MAX_SIZE.
  destruct (Z.of_nat (length cache) >? 10) eqn:E; [|done].
  apply Z.gtb_lt in E. lia.
Qed.

Lemma manageCacheSize_over cache :
  (10 < length cache)%nat -> manageCacheSize cache = drop 1 cache.
Proof.
  intros H. unfold manageCacheSize, CACHE_MAX_SIZE.
  destruct (Z.of_nat (length cache) >? 10) eqn:E.
  - by destruct cache.
  - rewrite Z.gtb_ltb in E. apply Z.ltb_ge in E. lia.
Qed.

(** Storing in a cache within capacity keeps it within capacity. *)
Lemma store_bounded cache key value :
  (length cache <= 10)%nat ->
  (length (manageCacheSize (cacheSet cache key value)) <= 10)%nat.
Proof.
  intros H. pose proof (length_cacheSet cache key value) as [Hle _].
  destruct (decide (length (cacheSet cache key value) <= 10)%nat) as [Hs|Hs].
  - by rewrite manageCacheSize_small.
  - rewrite manageCacheSize_over by lia. rewrite length_drop. lia.
Qed.

(** The entry just stored is in the cache afterwards. *)
Lemma store_lookup cache key value :
  (length cache <= 10)%nat ->
  cacheGet (manageCacheSize (cacheSet cache key value)) key = Some value.
Proof.
  intros H. pose proof (length_cacheSet cache key value) as [Hle Hsame].
  destruct (decide (length (cacheSet cache key value) <= 10)%nat) as [Hs|Hs].
  - rewrite manageCacheSize_small by done. apply cacheGet_cacheSet.
  - rewrite manageCacheSize_over by lia.
    assert (key ∉ map fst cache) as Hfresh.
    { intros Hin. rewrite (Hsame Hin) in Hs. lia. }
    rewrite cacheSet_fresh by done.
    destruct cache as [|[k v] rest]; [simpl in *; lia|].
    simpl. rewrite drop_0.
    pose proof (cacheGet_cacheSet rest key value) as Hg.
    rewrite cacheSet_fresh in Hg; [done|].
    intros Hin. apply Hfresh. by right.
Qed.

Lemma storeAll_snoc cache entries e :
  storeAll cache (entries ++ [e])
  = manageCacheSize (cacheSet (storeAll cache entries) (fst e) (snd e)).
Proof. unfold storeAll. by rewrite fold_left_app. Qed.

(** Distinct keys stored one after the other in an empty cache: the last
    ten stay, in the order of their insertion. *)
Lemma storeAll_fifo entries :
  NoDup (map fst entries) ->
  storeAll [] entries = drop (length entries - 10) entries.
Proof.
  induction entries as [|[k v] es IH] using rev_ind; intros Hnd; [done|].
  rewrite map_app in Hnd. apply NoDup_app in Hnd as (Hnd & Hfresh & _).
  rewrite storeAll_snoc, (IH Hnd). cbn [fst snd].
  assert (k ∉ map fst es) as Hk.
  { intros Hin. apply (Hfresh k Hin). by left. }
  assert (k ∉ map fst (drop (length es - 10) es)) as Hk'.
  { intros Hin. apply Hk. apply list_elem_of_fmap in Hin as (e & -> & He).
    apply list_elem_of_fmap. exists e. split; [done|].
    revert He. apply subseteq_drop. }
  rewrite cacheSet_fresh by done. rewrite length_app. simpl.
  destruct (decide (length es < 10)%nat) as [Hlt|Hge].
  - replace (length es - 10)%nat with 0%nat by lia.
    replace (length es + 1 - 10)%nat with 0%nat by lia.
    rewrite !drop_0. apply manageCacheSize_small. rewrite length_app. simpl. lia.
  - rewrite manageCacheSize_over
      by (rewrite length_app, length_drop; simpl; lia).
    rewrite <- drop_app_le by lia. rewrite drop_drop. f_equal. lia.
Qed.

(** ** The orchestrator and the cache *)

(** A cache hit resolves with the cached frames and changes nothing:
    no fill runs and the cache keeps its order. *)
Lemma cache_hit support st img config cached :
  validateInputs (ImageElement img) config = inr img ->
  enableCache (mergeConfig config) = true ->
  forceRecalculation (mergeConfig config) = false ->
  cacheGet (detectionCache st) (getCacheKey img (mergeConfig config)) = Some cached ->
  detectSpritesFromImage support st (ImageElement img) config = (Resolved cached, st).
Proof.
  intros Hv Hc Hf Hg. unfold detectSpritesFromImage.
  by rewrite Hv, Hc, Hf, Hg.
Qed.

Lemma cacheResult_bounded config img result st :
  (length (detectionCache st) <= 10)%nat ->
  (length (detectionCache (cacheResult config img result (countRun st))) <= 10)%nat.
Proof.
  intros H. unfold cacheResult. destruct (enableCache config); [|done].
  cbn [detectionCache countRun]. by apply store_bounded.
Qed.

(** No call lets the cache grow beyond its capacity. *)
Lemma detect_cache_bounded support st imageElement config :
  (length (detectionCache st) <= 10)%nat ->
  (length (detectionCache (snd (detectSpritesFromImage support st imageElement config)))
   <= 10)%nat.
Proof.
  intros H. unfold detectSpritesFromImage, processWithWebWorker.
  destruct (validateInputs imageElement config) as [e|img]; [done|].
  destruct (if enableCache (mergeConfig config) && _ then _ else _); [done|].
  destruct (useWebWorker (mergeConfig config) && hasWorkerAPI support).
  - destruct support; cbn [snd]; try done.
    destruct (getImageData img); [|done].
    destruct (Worker.processImageData _ _ _ _) as [[frames stats]| |]; cbn [snd];
      [by apply cacheResult_bounded|done|done].
  - destruct (selectAlgorithm _ _ _); cbn [snd];
      [by apply cacheResult_bounded|done|done].
Qed.

(** A call changes the cache in one way only: it stores the frames it
    resolves with under the key of the call, and then [manageCacheSize]
    runs. *)
Lemma detect_cache_step support st imageElement config :
  let after := detectSpritesFromImage support st imageElement config in
  detectionCache (snd after) = detectionCache st \/
  exists img result,
    imageElement = ImageElement img /\
    fst after = Resolved result /\
    detectionCache (snd after)
    = manageCacheSize
        (cacheSet (detectionCache st) (getCacheKey img (mergeConfig config)) result).
Proof.
  cbv zeta. unfold detectSpritesFromImage, processWithWebWorker.
  destruct imageElement as [|img]; [by left|].
  destruct (validateInputs (ImageElement img) config) as [e|img'] eqn:Hv; [by left|].
  assert (img' = img) as ->.
  { revert Hv. unfold validateInputs.
    repeat match goal with |- context [if ?b then _ else _] => destruct b end;
      by intros [= ->]. }
  destruct (if enableCache (mergeConfig config) && _ then _ else _); [by left|].
  assert (forall result,
            detectionCache (cacheResult (mergeConfig config) img result (countRun st))
            = detectionCache st \/
            detectionCache (cacheResult (mergeConfig config) img result (countRun st))
            = manageCacheSize
                (cacheSet (detectionCache st) (getCacheKey img (mergeConfig config))
                   result)) as Hstore.
  { intros result. unfold cacheResult.
    destruct (enableCache (mergeConfig config)); [by right|by left]. }
  destruct (useWebWorker (mergeConfig config) && hasWorkerAPI support).
  - destruct support; cbn [fst snd]; [by left| |by left].
    destruct (getImageData img); [|by left].
    destruct (Worker.processImageData _ _ _ _) as [[frames stats]| |]; cbn [fst snd];
      [|by left|by left].
    destruct (Hstore frames) as [H|H]; [by left|right]. by exists img, frames.
  - destruct (selectAlgorithm _ _ _) as [result| |]; cbn [fst snd];
      [|by left|by left].
    destruct (Hstore result) as [H|H]; [by left|right]. by exists img, result.
Qed.

(** ** The algorithm reads five fields of its configuration *)

Lemma forEachM_ext {S A : Type} (f g : S -> A -> option S) l s :
  (forall s x, f s x = g s x) -> forEachM f l s = forEachM g l s.
Proof.
  intros Hfg. revert s. induction l as [|a l IH]; intros s; simpl; [done|].
  rewrite Hfg. destruct (g s a); [apply IH|done].
Qed.

Lemma mergeConfig_asPartial c : mergeConfig (asPartial c) = c.
Proof. by destruct c. Qed.

Lemma validateInputs_asPartial imageElement c1 c2 :
  sameDetection c1 c2 ->
  validateInputs imageElement (asPartial c1) = validateInputs imageElement (asPartial c2).
Proof.
  intros (Ht & Hm & _). unfold validateInputs, asPartial. cbn [p_tolerance p_minSpriteSize].
  by rewrite Ht, Hm.
Qed.

Lemma floodFill_config x y w h data visited bgColor c1 c2 :
  sameDetection c1 c2 ->
  floodFill x y w h data visited bgColor c1 = floodFill x y w h data visited bgColor c2.
Proof. intros (Ht & _ & He & _). unfold floodFill. by rewrite Ht, He. Qed.

Lemma applyNoiseReduction_config data w h bgColor c1 c2 :
  sameDetection c1 c2 ->
  applyNoiseReduction data w h bgColor c1 = applyNoiseReduction data w h bgColor c2.
Proof.
  intros (Ht & _ & _ & Hn & Hthr). unfold applyNoiseReduction, effectiveNoiseThreshold.
  by rewrite Ht, Hn, Hthr.
Qed.

Lemma scanImage_config w h data bgColor c1 c2 :
  sameDetection c1 c2 ->
  scanImage w h data bgColor c1 = scanImage w h data bgColor c2.
Proof.
  intros Hs. unfold scanImage. apply forEachM_ext. intros st y.
  apply forEachM_ext. intros st' x. unfold scanPixel.
  rewrite (floodFill_config _ _ _ _ _ _ _ c1 c2 Hs).
  destruct Hs as (Ht & Hm & _). by rewrite Ht, Hm.
Qed.

Lemma floodFillAlgorithm_config imageElement c1 c2 :
  sameDetection c1 c2 ->
  floodFillAlgorithm imageElement (asPartial c1)
  = floodFillAlgorithm imageElement (asPartial c2).
Proof.
  intros Hs. unfold floodFillAlgorithm.
  rewrite (validateInputs_asPartial imageElement c1 c2 Hs), !mergeConfig_asPartial.
  destruct (validateInputs imageElement (asPartial c2)) as [e|img]; [done|].
  cbv zeta. destruct (_ || _); [done|].
  destruct (getImageData img) as [data|]; [|done].
  destruct (detectBackgroundColor _ _ _) as [bgColor|]; [|done].
  rewrite (applyNoiseReduction_config _ _ _ _ c1 c2 Hs).
  pose proof Hs as (_ & _ & _ & Hn & _). rewrite Hn.
  destruct (if enableNoiseReduction c2 then _ else _) as [data'|]; [|done].
  by rewrite (scanImage_config _ _ _ _ c1 c2 Hs).
Qed.

Lemma processImageData_config data w h c1 c2 :
  sameDetection c1 c2 ->
  Worker.processImageData data w h c1 = Worker.processImageData data w h c2.
Proof.
  intros Hs. unfold Worker.processImageData.
  destruct (Worker.detectBackgroundColor data w h) as [bgColor|]; [|done].
  by rewrite (scanImage_config _ _ _ _ c1 c2 Hs).
Qed.

(** Every entry of the plug-in table, and the default for a name without
    an entry, is the flood fill. *)
Lemma selectAlgorithm_floodFill config : selectAlgorithm config = floodFillAlgorithm.
Proof. unfold selectAlgorithm. by destruct (algorithm config). Qed.

Lemma sameDetection_setAlgorithm a b config :
  sameDetection (mergeConfig (setAlgorithm a config))
                (mergeConfig (setAlgorithm b config)).
Proof. by repeat split. Qed.

Lemma validateInputs_setAlgorithm imageElement a config :
  validateInputs imageElement (setAlgorithm a config) = validateInputs imageElement config.
Proof. done. Qed.

(** The outcome of a call depends on the [algorithm] field through the
    cache key only, and through it only where the cache is consulted. *)
Lemma detect_setAlgorithm support st img a b config :
  (enableCache (mergeConfig config) = true ->
   forceRecalculation (mergeConfig config) = false ->
   cacheGet (detectionCache st) (getCacheKey img (mergeConfig (setAlgorithm a config)))
   = cacheGet (detectionCache st) (getCacheKey img (mergeConfig (setAlgorithm b config)))) ->
  fst (detectSpritesFromImage support st (ImageElement img) (setAlgorithm a config))
  = fst (detectSpritesFromImage support st (ImageElement img) (setAlgorithm b config)).
Proof.
  intros Hc. unfold detectSpritesFromImage. rewrite !validateInputs_setAlgorithm.
  destruct (validateInputs (ImageElement img) config) as [e|img'] eqn:Hv; [done|].
  apply validateInputs_image in Hv. injection Hv as <-.
  cbv zeta. rewrite !selectAlgorithm_floodFill.
  pose proof (sameDetection_setAlgorithm a b config) as Hs.
  change (enableCache (mergeConfig (setAlgorithm a config)))
    with (enableCache (mergeConfig config)).
  change (enableCache (mergeConfig (setAlgorithm b config)))
    with (enableCache (mergeConfig config)).
  change (forceRecalculation (mergeConfig (setAlgorithm a config)))
    with (forceRecalculation (mergeConfig config)).
  change (forceRecalculation (mergeConfig (setAlgorithm b config)))
    with (forceRecalculation (mergeConfig config)).
  change (useWebWorker (mergeConfig (setAlgorithm a config)))
    with (useWebWorker (mergeConfig (setAlgorithm b config))).
  assert ((if enableCache (mergeConfig config)
              && negb (forceRecalculation (mergeConfig config))
           then cacheGet (detectionCache st)
                  (getCacheKey img (mergeConfig (setAlgorithm a config)))
           else None)
          = (if enableCache (mergeConfig config)
                && negb (forceRecalculation (mergeConfig config))
             then cacheGet (detectionCache st)
                    (getCacheKey img (mergeConfig (setAlgorithm b config)))
             else None)) as ->.
  { destruct (enableCache (mergeConfig config)) eqn:Ec; [|done].
    destruct (forceRecalculation (mergeConfig config)) eqn:Ef; [done|].
    cbn [andb negb]. by apply Hc. }
  destruct (if enableCache _ && _ then _ else _); [done|].
  destruct (useWebWorker _ && hasWorkerAPI support).
  - unfold processWithWebWorker. rewrite !selectAlgorithm_floodFill.
    destruct support; cbn [fst].
    + apply (floodFillAlgorithm_config _ _ _ Hs).
    + destruct (getImageData img) as [data|]; [|done].
      rewrite (processImageData_config _ _ _ _ _ Hs).
      by destruct (Worker.processImageData _ _ _ _) as [[frames stats]| |].
    + apply (floodFillAlgorithm_config _ _ _ Hs).
  - rewrite (floodFillAlgorithm_config _ _ _ Hs).
    by destruct (floodFillAlgorithm _ _).
Qed.

(** C8, as amended.  For [a] one of [contour] and [ai]: the two functions
    are [floodFillAlgorithm]; the algorithm that the orchestrator selects
    for [a], and the worker's copy, give what they give for [floodFill]
    with the other fields unchanged; and so does a call of
    [detectSpritesFromImage] in a state whose cache, where the call
    consults it, answers the key of [a] as it answers the key of
    [floodFill] (an empty cache, for one). *)
Theorem unimplemented_algorithms_delegate_to_floodFill a :
  a = AlgContour \/ a = AlgAi ->
  contourAlgorithm = floodFillAlgorithm /\
  aiDetectionAlgorithm = floodFillAlgorithm /\
  (forall imageElement config,
     selectAlgorithm (mergeConfig (setAlgorithm a config)) imageElement
       (asPartial (mergeConfig (setAlgorithm a config)))
     = floodFillAlgorithm imageElement
         (asPartial (mergeConfig (setAlgorithm AlgFloodFill config)))) /\
  (forall data w h config,
     Worker.processImageData data w h (mergeConfig (setAlgorithm a config))
     = Worker.processImageData data w h (mergeConfig (setAlgorithm AlgFloodFill config))) /\
  (forall support st img config,
     (enableCache (mergeConfig config) = true ->
      forceRecalculation (mergeConfig config) = false ->
      cacheGet (detectionCache st)
        (getCacheKey img (mergeConfig (setAlgorithm a config)))
      = cacheGet (detectionCache st)
          (getCacheKey img (mergeConfig (setAlgorithm AlgFloodFill config)))) ->
     fst (detectSpritesFromImage support st (ImageElement img) (setAlgorithm a config))
     = fst (detectSpritesFromImage support st (ImageElement img)
              (setAlgorithm AlgFloodFill config))).
Proof.
  intros Ha. split; [done|]. split; [done|]. split; [|split].
  - intros imageElement config.
    assert (selectAlgorithm (mergeConfig (setAlgorithm a config)) = floodFillAlgorithm)
      as -> by (by destruct Ha as [-> | ->]).
    apply floodFillAlgorithm_config, sameDetection_setAlgorithm.
  - intros data w h config.
    apply processImageData_config, sameDetection_setAlgorithm.
  - intros support st img config. apply detect_setAlgorithm.
Qed.

(** On the main thread, where the [algorithm] field is read. *)
Lemma contour_detection_example :
  fst (detectSpritesFromImage NoWorkerAPI freshOrchestrator
         (ImageElement blockExample) (setAlgorithm AlgContour emptyConfig))
  = fst (detectSpritesFromImage NoWorkerAPI freshOrchestrator
           (ImageElement blockExample) (setAlgorithm AlgFloodFill emptyConfig)).
Proof.
  apply (proj2 (proj2 (proj2 (proj2
           (unimplemented_algorithms_delegate_to_floodFill AlgContour
              (or_introl eq_refl)))))).
  intros _ _. reflexivity.
Defined.

(** C8 as stated fails: the cache key holds the name of the algorithm
    and not the pixels.  After a [floodFill] call on the 10 by 10 image
    with one block, a call on the white 10 by 10 image finds that entry
    with [algorithm = floodFill] and resolves with the frame of the
    block, while with [algorithm = contour] (and with [ai]) it misses the
    cache, fills, and resolves with no frame. *)
Lemma cached_entry_separates_contour_from_floodFill :
  let st := snd (detectSpritesFromImage NoWorkerAPI freshOrchestrator
                   (ImageElement blockExample) (setAlgorithm AlgFloodFill emptyConfig)) in
  fst (detectSpritesFromImage NoWorkerAPI st (ImageElement blankExample)
         (setAlgorithm AlgFloodFill emptyConfig))
  = Resolved [frameAt 0 (mkRect 2 2 3 3)] /\
  fst (detectSpritesFromImage NoWorkerAPI st (ImageElement blankExample)
         (setAlgorithm AlgContour emptyConfig))
  = Resolved [] /\
  fst (detectSpritesFromImage NoWorkerAPI st (ImageElement blankExample)
         (setAlgorithm AlgAi emptyConfig))
  = Resolved [].
Proof. by vm_compute. Qed.

(** ** Validation and images without pixels *)

Lemma validation_fails_fast support st imageElement config e :
  validateInputs imageElement config = inl e ->
  detectSpritesFromImage support st imageElement config
  = (Rejected (SpriteDetectionError (InvalidInput e)), st).
Proof. intros Hv. unfold detectSpritesFromImage. by rewrite Hv. Qed.

(** A tolerance outside of [0, 255] or a minimum size below 1 is thrown
    back, whatever the image. *)
Lemma validateInputs_rejects imageElement config :
  (exists t, p_tolerance config = Some t /\ (t < 0 \/ 255 < t)) \/
  (exists m, p_minSpriteSize config = Some m /\ m < 1) ->
  exists e, validateInputs imageElement config = inl e.
Proof.
  intros H. unfold validateInputs. destruct imageElement as [|img]; [by eexists|].
  destruct (negb (complete img)); [by eexists|].
  destruct H as [(t & -> & Ht)|(m & -> & Hm)].
  - replace ((t <? 0) || (t >? 255)) with true; [by eexists|].
    symmetry. apply orb_true_iff. destruct Ht; [left; lia|right; lia].
  - destruct (match p_tolerance config with Some _ => _ | None => _ end); [by eexists|].
    replace (m <? 1) with true by (symmetry; lia). by eexists.
Qed.

Lemma validateInputs_accepts img config :
  complete img = true ->
  (forall t, p_tolerance config = Some t -> 0 <= t <= 255) ->
  (forall m, p_minSpriteSize config = Some m -> 1 <= m) ->
  validateInputs (ImageElement img) config = inr img.
Proof.
  intros Hc Ht Hm. unfold validateInputs. rewrite Hc. cbn [negb].
  destruct (p_tolerance config) as [t|].
  - specialize (Ht t eq_refl).
    replace ((t <? 0) || (t >? 255)) with false
      by (symmetry; apply orb_false_iff; lia).
    destruct (p_minSpriteSize config) as [m|]; [|done].
    specialize (Hm m eq_refl). by replace (m <? 1) with false by (symmetry; lia).
  - destruct (p_minSpriteSize config) as [m|]; [|done].
    specialize (Hm m eq_refl). by replace (m <? 1) with false by (symmetry; lia).
Qed.

(** What passed validation passes it again after the merge with the
    defaults. *)
Lemma validateInputs_merged img config :
  validateInputs (ImageElement img) config = inr img ->
  validateInputs (ImageElement img) (asPartial (mergeConfig config)) = inr img.
Proof.
  unfold validateInputs, asPartial, mergeConfig.
  cbn [p_tolerance p_minSpriteSize tolerance minSpriteSize DEFAULT_CONFIG].
  destruct (negb (complete img)); [done|].
  destruct (p_tolerance config) as [t|]; simpl;
    [destruct ((t <? 0) || (t >? 255)); [done|]|];
    (destruct (p_minSpriteSize config) as [m|]; simpl;
     [by destruct (m <? 1)|done]).
Qed.

(** The guard of [floodFillAlgorithm]. *)
Lemma zero_dimension_floodFill img config :
  validateInputs (ImageElement img) config = inr img ->
  naturalWidth img = 0 \/ naturalHeight img = 0 ->
  floodFillAlgorithm (ImageElement img) config = Resolved [].
Proof.
  intros Hv Hz. unfold floodFillAlgorithm. rewrite Hv. cbv zeta.
  replace ((naturalWidth img =? 0) || (naturalHeight img =? 0)) with true; [done|].
  symmetry. apply orb_true_iff. destruct Hz; [left|right]; lia.
Qed.

(** X21.  Where the fill runs on the main thread (no worker asked for,
    no worker API, or a worker that fails to start), a call that passes
    validation and misses the cache on an image of zero width or height
    resolves with the empty list. *)
Lemma zero_dimension_main_thread support st img config :
  validateInputs (ImageElement img) config = inr img ->
  naturalWidth img = 0 \/ naturalHeight img = 0 ->
  useWebWorker (mergeConfig config) = false \/ support <> WorkerStarts ->
  cacheGet (detectionCache st) (getCacheKey img (mergeConfig config)) = None ->
  fst (detectSpritesFromImage support st (ImageElement img) config) = Resolved [].
Proof.
  intros Hv Hz Hmain Hmiss. unfold detectSpritesFromImage. rewrite Hv, Hmiss.
  cbv zeta. rewrite selectAlgorithm_floodFill.
  pose proof (zero_dimension_floodFill img _ (validateInputs_merged img config Hv) Hz)
    as Hrun.
  replace (if enableCache (mergeConfig config) && _ then None else None)
    with (@None (list SpriteFrame)) by (by destruct (_ && _)).
  destruct (useWebWorker (mergeConfig config) && hasWorkerAPI support) eqn:E.
  - unfold processWithWebWorker. rewrite selectAlgorithm_floodFill.
    apply andb_true_iff in E as [Hw Hs].
    destruct support; cbn [fst]; [done| |done].
    destruct Hmain as [Hm|Hm]; [congruence|done].
  - by rewrite Hrun.
Qed.

(** X22.  On the worker path the canvas of an image of zero width or
    height is read without the guard: a call that passes validation and
    misses the cache is rejected with the [IndexSizeError] of
    [getImageData], and the state is left as it was. *)
Lemma zero_dimension_worker st img config :
  validateInputs (ImageElement img) config = inr img ->
  naturalWidth img = 0 \/ naturalHeight img = 0 ->
  useWebWorker (mergeConfig config) = true ->
  cacheGet (detectionCache st) (getCacheKey img (mergeConfig config)) = None ->
  detectSpritesFromImage WorkerStarts st (ImageElement img) config
  = (Rejected (SpriteDetectionError IndexSizeError), st).
Proof.
  intros Hv Hz Hw Hmiss. unfold detectSpritesFromImage. rewrite Hv, Hmiss, Hw.
  cbv zeta.
  replace (if enableCache (mergeConfig config) && _ then None else None)
    with (@None (list SpriteFrame)) by (by destruct (_ && _)).
  cbn [hasWorkerAPI andb]. unfold processWithWebWorker, getImageData.
  replace ((naturalWidth img =? 0) || (naturalHeight img =? 0)) with true; [done|].
  symmetry. apply orb_true_iff. destruct Hz; [left|right]; lia.
Qed.

(** C9.  A tolerance outside of [0, 255] or a minimum sprite size below
    1 rejects the call and leaves the state as it was, no fill having
    run.  The loaded image without a source, 0 by 0, passes validation
    with the default configuration: where no worker is on offer it is
    given the empty list; where a worker starts, the call is rejected
    with the canvas's [IndexSizeError]. *)
Theorem zero_dimension_image_is_rejected_with_a_worker :
  (forall support st imageElement config,
     (exists t, p_tolerance config = Some t /\ (t < 0 \/ 255 < t)) \/
     (exists m, p_minSpriteSize config = Some m /\ m < 1) ->
     exists e, detectSpritesFromImage support st imageElement config
               = (Rejected (SpriteDetectionError (InvalidInput e)), st)) /\
  validateInputs (ImageElement emptyImage) emptyConfig = inr emptyImage /\
  fst (detectSpritesFromImage NoWorkerAPI freshOrchestrator
         (ImageElement emptyImage) emptyConfig) = Resolved [] /\
  fst (detectSpritesFromImage WorkerFailsToStart freshOrchestrator
         (ImageElement emptyImage) emptyConfig) = Resolved [] /\
  detectSpritesFromImage WorkerStarts freshOrchestrator
    (ImageElement emptyImage) emptyConfig
  = (Rejected (SpriteDetectionError IndexSizeError), freshOrchestrator).
Proof.
  split; [|by vm_compute].
  intros support st imageElement config H.
  destruct (validateInputs_rejects imageElement config H) as [e He].
  exists e. by apply validation_fails_fast.
Qed.

(** ** Two calls in a row *)

Lemma getCacheKey_same img1 img2 c1 c2 :
  naturalWidth img1 = naturalWidth img2 ->
  naturalHeight img1 = naturalHeight img2 ->
  sameCriticalConfig c1 c2 ->
  getCacheKey img1 c1 = getCacheKey img2 c2.
Proof.
  intros Hw Hh (Ht & Hm & He & Ha). unfold getCacheKey.
  by rewrite Hw, Hh, Ht, Hm, He, Ha.
Qed.

Lemma cacheResult_lookup config img result st :
  enableCache config = true ->
  (length (detectionCache st) <= 10)%nat ->
  cacheGet (detectionCache (cacheResult config img result (countRun st)))
    (getCacheKey img config) = Some result.
Proof.
  intros Hc Hlen. unfold cacheResult. rewrite Hc. cbn [detectionCache countRun].
  by apply store_lookup.
Qed.

(** A call that resolves leaves its result under its key, unless the
    worker failed to start. *)
Lemma resolved_call_is_cached support st img config result st1 :
  useWebWorker (mergeConfig config) = false \/ support <> WorkerFailsToStart ->
  (length (detectionCache st) <= 10)%nat ->
  enableCache (mergeConfig config) = true ->
  detectSpritesFromImage support st (ImageElement img) config = (Resolved result, st1) ->
  cacheGet (detectionCache st1) (getCacheKey img (mergeConfig config)) = Some result.
Proof.
  intros Hpath Hlen Hc. unfold detectSpritesFromImage.
  destruct (validateInputs (ImageElement img) config) as [e|img'] eqn:Hv; [done|].
  apply validateInputs_image in Hv. injection Hv as <-. cbv zeta.
  destruct (if enableCache (mergeConfig config) && _ then _ else _)
    as [cached|] eqn:Hhit.
  - intros [= <- <-].
    destruct (enableCache (mergeConfig config) && _); [done|discriminate].
  - destruct (useWebWorker (mergeConfig config) && hasWorkerAPI support) eqn:E.
    + apply andb_true_iff in E as [Hw Hs]. unfold processWithWebWorker.
      destruct support; [done| |destruct Hpath; congruence].
      destruct (getImageData img) as [data|]; [|done].
      destruct (Worker.processImageData _ _ _ _) as [[frames stats]| |]; [|done|done].
      intros [= <- <-]. by apply cacheResult_lookup.
    + destruct (selectAlgorithm _ _ _) as [r| |]; [|done|done].
      intros [= <- <-]. by apply cacheResult_lookup.
Qed.

(** X19.  In the state that a call leaves when it resolves on a path
    that caches (any path but the one of a worker that fails to start)
    with [enableCache] on, the next call on an image of the same
    dimensions, whatever its pixels, with the same four critical fields,
    [enableCache] on and [forceRecalculation] off, whatever its remaining
    fields and whatever the worker support, resolves with the frames of
    the first call; it runs no fill and leaves the state as it is. *)
Lemma second_call_hits_cache support support' st img1 img2 config1 config2 result st1 :
  useWebWorker (mergeConfig config1) = false \/ support <> WorkerFailsToStart ->
  (length (detectionCache st) <= 10)%nat ->
  enableCache (mergeConfig config1) = true ->
  enableCache (mergeConfig config2) = true ->
  forceRecalculation (mergeConfig config2) = false ->
  naturalWidth img1 = naturalWidth img2 ->
  naturalHeight img1 = naturalHeight img2 ->
  sameCriticalConfig (mergeConfig config1) (mergeConfig config2) ->
  validateInputs (ImageElement img2) config2 = inr img2 ->
  detectSpritesFromImage support st (ImageElement img1) config1 = (Resolved result, st1) ->
  detectSpritesFromImage support' st1 (ImageElement img2) config2 = (Resolved result, st1).
Proof.
  intros Hpath Hlen Hc1 Hc2 Hf Hw Hh Hcrit Hv Hfirst.
  apply cache_hit; [done..|].
  rewrite <- (getCacheKey_same img1 img2 _ _ Hw Hh Hcrit).
  by eapply resolved_call_is_cached.
Qed.

(** X20.  With [forceRecalculation] the cache is not asked: on an image
    with pixels a call that passes validation runs a fill, whatever the
    cache holds. *)
Lemma forced_call_runs_again support st img config :
  validateInputs (ImageElement img) config = inr img ->
  forceRecalculation (mergeConfig config) = true ->
  naturalWidth img <> 0 -> naturalHeight img <> 0 ->
  fillRuns (snd (detectSpritesFromImage support st (ImageElement img) config))
  = S (fillRuns st).
Proof.
  intros Hv Hf Hw Hh. unfold detectSpritesFromImage. rewrite Hv, Hf. cbv zeta.
  rewrite andb_false_r.
  assert (forall result s,
            fillRuns (cacheResult (mergeConfig config) img result (countRun s))
            = S (fillRuns s)) as Hrun.
  { intros result s. unfold cacheResult. by destruct (enableCache _). }
  destruct (useWebWorker (mergeConfig config) && hasWorkerAPI support).
  - unfold processWithWebWorker, getImageData.
    replace ((naturalWidth img =? 0) || (naturalHeight img =? 0)) with false
      by (symmetry; apply orb_false_iff; lia).
    destruct support; cbn [snd]; [done| |done].
    destruct (Worker.processImageData _ _ _ _) as [[frames stats]| |]; cbn [snd];
      [apply Hrun|done|done].
  - destruct (selectAlgorithm _ _ _); cbn [snd]; [apply Hrun|done|done].
Qed.

(** C6.  The default configuration twice on the 10 by 10 image with one
    block, the constructor of the worker throwing: the first call resolves
    with the frame and leaves the cache empty, and the second call runs
    the fill again.  Without a worker API the same two calls run one fill,
    and so they do with a worker that starts. *)
Theorem fallback_result_is_not_cached :
  let call support st :=
    detectSpritesFromImage support st (ImageElement blockExample) emptyConfig in
  let first := call WorkerFailsToStart freshOrchestrator in
  let second := call WorkerFailsToStart (snd first) in
  fst first = Resolved [frameAt 0 (mkRect 2 2 3 3)] /\
  detectionCache (snd first) = [] /\
  fillRuns (snd first) = 1%nat /\
  fst second = Resolved [frameAt 0 (mkRect 2 2 3 3)] /\
  fillRuns (snd second) = 2%nat /\
  fillRuns (snd (call NoWorkerAPI (snd (call NoWorkerAPI freshOrchestrator)))) = 1%nat /\
  fillRuns (snd (call WorkerStarts (snd (call WorkerStarts freshOrchestrator)))) = 1%nat.
Proof. by vm_compute. Qed.

(** ** The cache over many calls *)

Lemma key_widths_of_strips :
  map (fun kv => key_width (fst kv))
    (detectionCache
       (detectAll NoWorkerAPI emptyConfig (stripImage <$> seqZ 1 11) freshOrchestrator))
  = seqZ 2 10.
Proof. by vm_compute. Qed.

(** A hit on the first key before the eleventh is stored does not save
    it from eviction. *)
Lemma hit_does_not_refresh :
  let filled :=
    detectAll NoWorkerAPI emptyConfig (stripImage <$> seqZ 1 10) freshOrchestrator in
  let hit := detectAll NoWorkerAPI emptyConfig [stripImage 1] filled in
  let after := detectAll NoWorkerAPI emptyConfig [stripImage 11] hit in
  hit = filled /\
  map (fun kv => key_width (fst kv)) (detectionCache filled) = seqZ 1 10 /\
  map (fun kv => key_width (fst kv)) (detectionCache after) = seqZ 2 10.
Proof. by vm_compute. Qed.

(** C7.  The cache never holds more than 10 entries after a call; a call
    changes the cache by one [Map.set] followed by [manageCacheSize], or
    not at all; distinct keys stored one after the other leave the last
    10 of them, in the order of their insertion, the earliest having been
    evicted first; a cache hit leaves the cache as it was; and setting a
    key that is present keeps its place. *)
Theorem cache_is_bounded_fifo :
  (forall support st imageElement config,
     (length (detectionCache st) <= 10)%nat ->
     (length (detectionCache
                (snd (detectSpritesFromImage support st imageElement config)))
      <= 10)%nat) /\
  (forall support st imageElement config,
     let after := detectSpritesFromImage support st imageElement config in
     detectionCache (snd after) = detectionCache st \/
     exists img result,
       imageElement = ImageElement img /\
       fst after = Resolved result /\
       detectionCache (snd after)
       = manageCacheSize
           (cacheSet (detectionCache st) (getCacheKey img (mergeConfig config))
              result)) /\
  (forall entries,
     NoDup (map fst entries) ->
     storeAll [] entries = drop (length entries - 10) entries) /\
  (forall support st img config cached,
     validateInputs (ImageElement img) config = inr img ->
     enableCache (mergeConfig config) = true ->
     forceRecalculation (mergeConfig config) = false ->
     cacheGet (detectionCache st) (getCacheKey img (mergeConfig config)) = Some cached ->
     snd (detectSpritesFromImage support st (ImageElement img) config) = st) /\
  (forall cache key value,
     key ∈ map fst cache ->
     map fst (cacheSet cache key value) = map fst cache).
Proof.
  split; [apply detect_cache_bounded|].
  split; [apply detect_cache_step|].
  split; [apply storeAll_fifo|].
  split; [|apply cacheSet_keys].
  intros support st img config cached Hv Hc Hf Hg.
  by rewrite (cache_hit support st img config cached).
Qed.

Lemma eleven_keys_example : storeAll [] elevenEntries = drop 1 elevenEntries.
Proof.
  apply (proj1 (proj2 (proj2 cache_is_bounded_fifo)) elevenEntries).
  refine (bool_decide_unpack _ _). by vm_compute.
Defined.

(** * The three fills, as their callers see them *)

Lemma scanOrder_rectPixels w h : scanOrder w h = rectPixels (mkRect 0 0 w h).
Proof. done. Qed.

(** A set of pixels of the image has at most [w * h] members. *)
Lemma enumerates_in_image w h l (P : Pixel -> Prop) :
  enumerates l P -> (forall q, P q -> inImage w h q) ->
  Z.of_nat (length l) <= Z.max 0 w * Z.max 0 h.
Proof.
  intros [Hnd Hl] Hin.
  assert (l ⊆+ scanOrder w h) as Hsub.
  { apply NoDup_submseteq; [done|]. intros q Hq. apply elem_of_scanOrder, Hin.
    by apply Hl. }
  apply submseteq_length in Hsub.
  assert (Z.of_nat (length (scanOrder w h)) = Z.max 0 w * Z.max 0 h) as Hlen.
  { unfold scanOrder.
    rewrite (length_rows _ _ (Z.to_nat w)) by (intros; apply length_seqZ).
    rewrite length_seqZ. lia. }
  lia.
Qed.

Lemma region_in_image w h nonBg nbrs s q :
  foreground w h nonBg s = true ->
  connected (foreground w h nonBg) nbrs s q -> inImage w h q.
Proof.
  intros Hs Hq. apply (foreground_inImage w h nonBg).
  by apply (connected_holds _ nbrs s).
Qed.

(** X1.  [floodFill] from a foreground pixel whose region is still
    unvisited ends; it returns the number of pixels of the region (for
    the connectivity of the configuration) and the least and greatest
    column and row of the region, and the visited array it leaves marks
    the region besides what was marked before. *)
Theorem floodFill_returns_region w h data bgColor config x y visited :
  let fg := foreground w h (nonBackground data w bgColor (tolerance config)) in
  let region := connected fg (neighborsOf config) (x, y) in
  length visited = Z.to_nat (w * h) ->
  fg (x, y) = true ->
  (forall q, region q -> marked visited w q = false) ->
  exists result visited',
    floodFill x y w h data visited bgColor config = Some (result, visited') /\
    regionSize fg (neighborsOf config) (x, y) (pixelCount result) /\
    1 <= pixelCount result <= w * h /\
    (forall q, region q ->
       minX result <= fst q <= maxX result /\ minY result <= snd q <= maxY result) /\
    (exists q, region q /\ fst q = minX result) /\
    (exists q, region q /\ fst q = maxX result) /\
    (exists q, region q /\ snd q = minY result) /\
    (exists q, region q /\ snd q = maxY result) /\
    length visited' = length visited /\
    (forall p, inImage w h p ->
       (marked visited' w p = true <-> marked visited w p = true \/ region p)).
Proof.
  intros fg region Hlen Hs Hfresh.
  destruct (floodFill_spec w h data bgColor x y visited config Hlen Hs Hfresh)
    as (result & vis & deq & Hrun & Henum & Hcount & Hbox & Hlen' & Hmark).
  exists result, vis. split; [done|].
  split; [by exists deq|].
  destruct Hbox as (Hall & (q1 & R1 & E1) & (q2 & R2 & E2) & (q3 & R3 & E3)
                    & (q4 & R4 & E4)).
  cbn [resultRect rect_x rect_y rect_w rect_h] in *.
  split.
  - pose proof (enumerates_in_image w h deq _ Henum
                  (fun q => region_in_image w h _ _ (x, y) q Hs)) as Hle.
    assert (inImage w h (x, y)) as [Hx Hy] by (by eapply foreground_inImage).
    cbn [fst snd] in Hx, Hy.
    assert ((x, y) ∈ deq) as Hin by (apply Henum; constructor).
    destruct deq; [by apply elem_of_nil in Hin|]. simpl in *. lia.
  - split; [intros q Hq; specialize (Hall q Hq); lia|].
    split; [by exists q1|]. split; [exists q2; split; [done|lia]|].
    split; [by exists q3|]. split; [exists q4; split; [done|lia]|].
    split; [congruence|done].
Qed.

Lemma floodFill_region_example :
  exists visited',
    floodFill 2 2 10 10 (pixels blockExample) (newUint8Array 100) white DEFAULT_CONFIG
    = Some ({| minX := 2; minY := 2; maxX := 4; maxY := 4; pixelCount := 9 |}, visited').
Proof.
  destruct (floodFill_returns_region 10 10 (pixels blockExample) white DEFAULT_CONFIG
              2 2 (newUint8Array 100))
    as (result & visited' & Hrun & _); [reflexivity|by vm_compute| |].
  - intros q _. apply marked_newUint8Array.
  - exists visited'. rewrite Hrun. f_equal. f_equal.
    revert Hrun. vm_compute. by intros [= <- _].
Defined.

(** X2.  [countConnectedPixels] from a foreground pixel ends and returns
    the number of pixels of the 4-connected region of that pixel, which
    is at least 1 and at most [w * h]. *)
Theorem countConnectedPixels_counts_region w h data bgColor tol x y :
  let fg := foreground w h (nonBackground data w bgColor tol) in
  fg (x, y) = true ->
  exists n,
    countConnectedPixels x y w h data bgColor tol = Some n /\
    regionSize fg neighbors4 (x, y) n /\
    1 <= n <= w * h.
Proof.
  intros fg Hs.
  destruct (countConnectedPixels_spec w h data bgColor x y tol Hs)
    as (n & Hrun & Hsize).
  exists n. split; [done|]. split; [done|].
  destruct Hsize as (l & Henum & <-).
  pose proof (enumerates_in_image w h l _ Henum
                (fun q => region_in_image w h _ _ (x, y) q Hs)) as Hle.
  assert (inImage w h (x, y)) as [Hx Hy] by (by eapply foreground_inImage).
  cbn [fst snd] in Hx, Hy.
  assert ((x, y) ∈ l) as Hin by (apply Henum; constructor).
  destruct l; [by apply elem_of_nil in Hin|]. simpl in *. lia.
Qed.

Lemma countConnectedPixels_example :
  countConnectedPixels 3 3 10 10 (pixels blockExample) white 10 = Some 9.
Proof.
  destruct (countConnectedPixels_counts_region 10 10 (pixels blockExample) white 10 3 3)
    as (n & Hrun & _); [by vm_compute|].
  rewrite Hrun. revert Hrun. vm_compute. by intros [= <-].
Defined.

(** X3.  [markNoisePixels] from a foreground pixel whose 4-connected
    region is unvisited ends; in the buffer it leaves, every pixel of the
    region holds the background color (clamped to bytes), every other
    pixel of the image holds what it held, the length is unchanged; and
    the visited array marks the region besides what was marked. *)
Theorem markNoisePixels_paints_region w h data bgColor tol x y visited :
  let fg := foreground w h (nonBackground data w bgColor tol) in
  let region := connected fg neighbors4 (x, y) in
  length visited = Z.to_nat (w * h) ->
  (Z.to_nat (4 * (w * h)) <= length data)%nat ->
  fg (x, y) = true ->
  (forall q, region q -> marked visited w q = false) ->
  exists data' visited',
    markNoisePixels x y w h data visited bgColor tol = Some (data', visited') /\
    length data' = length data /\
    (forall p, region p ->
       sampleAt data' (pixelIndex w p * 4) = paintedSample bgColor) /\
    (forall p, inImage w h p -> ~ region p ->
       sampleAt data' (pixelIndex w p * 4) = sampleAt data (pixelIndex w p * 4)) /\
    (forall p, inImage w h p ->
       (marked visited' w p = true <-> marked visited w p = true \/ region p)).
Proof.
  intros fg region Hlen Hdata Hs Hfresh.
  destruct (markNoisePixels_spec w h data bgColor x y visited tol Hlen Hs Hfresh)
    as (deq & vis & Hrun & [Hnd Hdeq] & Hlen' & Hmark).
  exists (paintAll w bgColor deq data), vis.
  assert (forall q, q ∈ deq -> inImage w h q) as Hin.
  { intros q Hq. apply (region_in_image w h _ neighbors4 (x, y) q Hs). by apply Hdeq. }
  split; [done|]. split; [apply length_paintAll|].
  split; [|split; [|done]].
  - intros p Hp. apply (sampleAt_paintAll_same w h); [done| |done]. by apply Hdeq.
  - intros p Hp Hnot. apply (sampleAt_paintAll_other w h); [done|done|].
    intros Hp'. by apply Hnot, Hdeq.
Qed.

Lemma markNoisePixels_example :
  exists data' visited',
    markNoisePixels 1 1 3 3 (pixels speckExample) (newUint8Array 9) white 10
    = Some (data', visited') /\
    sampleAt data' (pixelIndex 3 (1, 1) * 4) = paintedSample white.
Proof.
  destruct (markNoisePixels_paints_region 3 3 (pixels speckExample) white 10 1 1
              (newUint8Array 9))
    as (data' & visited' & Hrun & _ & Hpaint & _);
    [reflexivity|vm_compute; lia|by vm_compute| |].
  - intros q _. apply marked_newUint8Array.
  - exists data', visited'. split; [done|]. apply Hpaint. constructor.
Defined.

(** * The background color estimate *)

Lemma strideLoop_range fuel i stop step x :
  0 <= step -> x ∈ strideLoop fuel i stop step -> i <= x < stop.
Proof.
  intros Hstep. revert i. induction fuel as [|fuel IH]; intros i Hx; simpl in Hx.
  - by apply elem_of_nil in Hx.
  - destruct (i <? stop) eqn:E; [|by apply elem_of_nil in Hx].
    apply Z.ltb_lt in E. apply elem_of_cons in Hx as [->|Hx]; [lia|].
    apply IH in Hx. lia.
Qed.

(** Every sample of the estimator is read at a pixel of the border. *)
Lemma borderPixels_onBorder data w h :
  0 < w -> 0 < h ->
  Forall (fun s => exists p, onBorder w h p /\ s = sampleAt data (pixelIndex w p * 4))
         (borderPixels data w h).
Proof.
  intros Hw Hh. unfold borderPixels. apply Forall_app. split.
  - apply Forall_forall. intros s Hs.
    apply list_elem_of_In, in_flat_map in Hs as (x & Hx & Hs).
    apply list_elem_of_In, strideLoop_range in Hx; [|lia].
    simpl in Hs. destruct Hs as [<-|[<-|[]]].
    + exists (x, 0). split; [|done]. unfold onBorder, inImage. simpl. lia.
    + exists (x, h - 1). split; [|done]. unfold onBorder, inImage. simpl. lia.
  - apply Forall_forall. intros s Hs.
    apply list_elem_of_In, in_flat_map in Hs as (y & Hy & Hs).
    apply list_elem_of_In, strideLoop_range in Hy; [|lia].
    simpl in Hs. destruct Hs as [<-|[<-|[]]].
    + exists (0, y). split; [|done]. unfold onBorder, inImage. simpl. lia.
    + exists (w - 1, y). split; [|done]. unfold onBorder, inImage. simpl. lia.
Qed.

Lemma borderPixels_first data w h :
  0 < w -> exists rest, borderPixels data w h = sampleAt data ((0 * w + 0) * 4) :: rest.
Proof.
  intros Hw. unfold borderPixels.
  destruct (Z.to_nat w) as [|n] eqn:E; [lia|]. simpl.
  replace (0 <? w) with true by (symmetry; lia). simpl. eauto.
Qed.

Lemma countColor_nonempty counts color : countColor counts color <> [].
Proof.
  unfold countColor. destruct (bumpSimilar color counts) as [c|] eqn:E.
  - destruct counts as [|[k n] rest]; [done|]. simpl in E.
    destruct (colorsSimilar color k 5); [by inversion E|].
    destruct (bumpSimilar color rest); by inversion E.
  - by destruct counts.
Qed.

Lemma fold_countColor_nonempty samples counts :
  counts <> [] -> fold_left countColor samples counts <> [].
Proof.
  revert counts. induction samples as [|s samples IH]; intros counts Hc; simpl; [done|].
  apply IH, countColor_nonempty.
Qed.

(** With at least one column the estimator has a sample to count: the
    [reduce] over the keys does not throw. *)
Lemma detectBackgroundColor_some data w h :
  0 < w -> exists bgColor, detectBackgroundColor data w h = Some bgColor.
Proof.
  intros Hw. unfold detectBackgroundColor.
  destruct (borderPixels_first data w h Hw) as [rest ->]. simpl.
  pose proof (fold_countColor_nonempty rest (countColor [] (sampleAt data ((0 * w + 0) * 4)))
                (countColor_nonempty _ _)) as Hne.
  destruct (fold_left countColor rest _) as [|first others]; [done|].
  simpl. eauto.
Qed.

(** In a buffer that holds the whole image, the four cells of a pixel
    are there. *)
Lemma pixelColor_defined data w h p :
  (Z.to_nat (4 * (w * h)) <= length data)%nat -> inImage w h p ->
  pixelColor data w p = Some (parseKey (sampleAt data (pixelIndex w p * 4))).
Proof.
  intros Hlen [Hx Hy]. unfold pixelColor, sampleAt, pixelIndex in *.
  destruct p as [x y]. cbn [fst snd] in *.
  assert (0 <= (y * w + x) * 4 /\ (y * w + x) * 4 + 3 < 4 * (w * h)) as [H0 H3] by nia.
  destruct (rd_in_range data ((y * w + x) * 4)) as [r ->]; [lia|lia|].
  destruct (rd_in_range data ((y * w + x) * 4 + 1)) as [g ->]; [lia|lia|].
  destruct (rd_in_range data ((y * w + x) * 4 + 2)) as [b ->]; [lia|lia|].
  destruct (rd_in_range data ((y * w + x) * 4 + 3)) as [a ->]; [lia|lia|].
  done.
Qed.

(** X4.  For an image of at least one pixel whose buffer holds all of
    it, [detectBackgroundColor] returns a color (its [reduce] does not
    throw), and that color is the color of a pixel of the first or last
    row or column. *)
Theorem background_is_a_border_color data w h :
  0 < w -> 0 < h ->
  (Z.to_nat (4 * (w * h)) <= length data)%nat ->
  exists bgColor p,
    detectBackgroundColor data w h = Some bgColor /\
    onBorder w h p /\
    pixelColor data w p = Some bgColor.
Proof.
  intros Hw Hh Hlen.
  destruct (detectBackgroundColor_some data w h Hw) as [bgColor Hbg].
  pose proof Hbg as Hkey. unfold detectBackgroundColor in Hkey.
  apply mostCommon_key in Hkey.
  assert (Forall (fun c => exists p, onBorder w h p /\ pixelColor data w p = Some c)
            (map fst (fold_left countColor (borderPixels data w h) []))) as Hall.
  { apply fold_countColor_keys; [constructor|].
    eapply Forall_impl; [by apply borderPixels_onBorder|].
    intros s (p & Hp & ->). exists p. split; [done|].
    apply (pixelColor_defined data w h); [done|apply Hp]. }
  rewrite Forall_forall in Hall. destruct (Hall bgColor Hkey) as (p & Hp & Hc).
  by exists bgColor, p.
Qed.

Lemma background_of_block_example :
  exists bgColor p,
    detectBackgroundColor (pixels blockExample) 10 10 = Some bgColor /\
    onBorder 10 10 p /\
    pixelColor (pixels blockExample) 10 p = Some bgColor.
Proof.
  apply (background_is_a_border_color (pixels blockExample) 10 10); [lia|lia|].
  vm_compute. lia.
Defined.

Lemma colorsSimilar_self r g b a tol :
  0 <= tol ->
  colorsSimilar (Some r, Some g, Some b, Some a) (mkColor r g b a) tol = true.
Proof.
  intros Ht. unfold colorsSimilar, channelFar. cbn [cr cg cb ca].
  rewrite !Z.sub_diag. change (Z.abs 0) with 0.
  assert ((0 >? tol) = false) as -> by lia. done.
Qed.

Lemma countColor_same r g b a n :
  countColor [(mkColor r g b a, n)] (Some r, Some g, Some b, Some a)
  = [(mkColor r g b a, n + 1)].
Proof.
  unfold countColor. cbn [bumpSimilar]. by rewrite colorsSimilar_self by lia.
Qed.

Lemma fold_countColor_uniform r g b a samples n :
  Forall (fun s => s = (Some r, Some g, Some b, Some a)) samples ->
  fold_left countColor samples [(mkColor r g b a, n)]
  = [(mkColor r g b a, n + Z.of_nat (length samples))].
Proof.
  revert n. induction samples as [|s samples IH]; intros n Hs; simpl.
  - by rewrite Z.add_0_r.
  - apply Forall_cons in Hs as [-> Hs].
    rewrite countColor_same, (IH _ Hs). do 2 f_equal. lia.
Qed.

Lemma pixelColor_sampleAt data w p c :
  pixelColor data w p = Some c ->
  sampleAt data (pixelIndex w p * 4) = (Some (cr c), Some (cg c), Some (cb c), Some (ca c)).
Proof.
  unfold pixelColor. destruct (sampleAt data _) as [[[[r|] [g|]] [b|]] [a|]]; try done.
  by intros [= <-].
Qed.

Lemma countExact_same (s : Sample) n :
  Worker.countExact [(s, n)] s = [(s, n + 1)].
Proof. simpl. by rewrite decide_True. Qed.

(** X5.  When every pixel of the first and last rows and columns has the
    color [c], [detectBackgroundColor] returns [c], and so does the copy
    of the estimator in the worker, which reads the four corners. *)
Theorem uniform_border_is_the_background data w h c :
  0 < w -> 0 < h ->
  (forall p, onBorder w h p -> pixelColor data w p = Some c) ->
  detectBackgroundColor data w h = Some c /\
  Worker.detectBackgroundColor data w h = Some c.
Proof.
  intros Hw Hh Hborder. destruct c as [r g b a].
  assert (forall p, onBorder w h p ->
            sampleAt data (pixelIndex w p * 4) = (Some r, Some g, Some b, Some a)) as Hs.
  { intros p Hp. by rewrite (pixelColor_sampleAt data w p _ (Hborder p Hp)). }
  split.
  - unfold detectBackgroundColor.
    assert (Forall (fun s => s = (Some r, Some g, Some b, Some a))
              (borderPixels data w h)) as Hall.
    { eapply Forall_impl; [by apply borderPixels_onBorder|].
      intros s (p & Hp & ->). by apply Hs. }
    destruct (borderPixels_first data w h Hw) as [rest Hrest].
    rewrite Hrest in Hall |- *. apply Forall_cons in Hall as [H0 Hall].
    cbn [fold_left]. rewrite H0.
    change (countColor [] (Some r, Some g, Some b, Some a))
      with [(mkColor r g b a, 1)].
    by rewrite (fold_countColor_uniform r g b a rest 1 Hall).
  - unfold Worker.detectBackgroundColor. cbn [map fst snd].
    assert (forall x y, onBorder w h (x, y) ->
              sampleAt data ((y * w + x) * 4) = (Some r, Some g, Some b, Some a)) as Hc.
    { intros x y Hp. apply (Hs (x, y) Hp). }
    rewrite !Hc by (unfold onBorder, inImage; simpl; lia).
    cbn [fold_left]. change (Worker.countExact [] ?s) with [(s, 1)].
    by rewrite !countExact_same.
Qed.

Lemma uniform_border_example :
  detectBackgroundColor (pixels speckExample) 3 3 = Some white /\
  Worker.detectBackgroundColor (pixels speckExample) 3 3 = Some white.
Proof.
  apply uniform_border_is_the_background; [lia|lia|].
  intros [x y] [[Hx Hy] Hedge]. cbn [fst snd] in *.
  assert (x = 0 \/ x = 1 \/ x = 2) as Hxs by lia.
  assert (y = 0 \/ y = 1 \/ y = 2) as Hys by lia.
  destruct Hxs as [-> | [-> | ->]], Hys as [-> | [-> | ->]];
    try (by vm_compute); lia.
Defined.

(** * The flood-fill algorithm on any image *)

Lemma forEachM_preserves {S A : Type} (body : S -> A -> option S) (P : S -> Prop) l :
  (forall s a s', P s -> body s a = Some s' -> P s') ->
  forall s s', P s -> forEachM body l s = Some s' -> P s'.
Proof.
  intros Hstep. induction l as [|a l IH]; intros s s' Hs Hr; simpl in Hr.
  - by inversion Hr; subst.
  - destruct (body s a) as [s1|] eqn:E; [|done]. eapply IH; [|exact Hr]. eauto.
Qed.

(** Every frame that the scan pushes has the name and the type that go
    with its identifier. *)
Lemma scanImage_frame_shape w h data bgColor config st :
  scanImage w h data bgColor config = Some st ->
  Forall (fun f => f = frameAt (frame_id f) (frame_rect f)) (sFrames st).
Proof.
  unfold scanImage.
  set (P := fun st : ScanState =>
              Forall (fun f => f = frameAt (frame_id f) (frame_rect f)) (sFrames st)).
  intros Hr. apply (forEachM_preserves _ P _) with (s' := st) in Hr;
    [done| |constructor].
  clear Hr st. intros s y s'. apply (forEachM_preserves _ P). clear s s'.
  intros s x s' Hs. unfold scanPixel.
  destruct (truthy _ || _); [by intros [= <-]|].
  destruct (floodFill _ _ _ _ _ _ _ _) as [[result vis]|]; [|done].
  intros [= <-]. cbn [sFrames].
  destruct (pixelCount result >=? minSpriteSize config); [|done].
  apply Forall_app. split; [done|]. by repeat constructor.
Qed.

(** What a run of the algorithm on an image with pixels comes down to. *)
Lemma floodFillAlgorithm_resolved img config frames :
  floodFillAlgorithm (ImageElement img) config = Resolved frames ->
  (frames = [] /\ (naturalWidth img = 0 \/ naturalHeight img = 0)) \/
  exists bgColor data' st,
    detectBackgroundColor (pixels img) (naturalWidth img) (naturalHeight img)
      = Some bgColor /\
    (if enableNoiseReduction (mergeConfig config)
     then applyNoiseReduction (pixels img) (naturalWidth img) (naturalHeight img)
            bgColor (mergeConfig config)
     else Some (pixels img)) = Some data' /\
    scanImage (naturalWidth img) (naturalHeight img) data' bgColor (mergeConfig config)
      = Some st /\
    frames = sFrames st.
Proof.
  unfold floodFillAlgorithm.
  destruct (validateInputs (ImageElement img) config) as [e|img'] eqn:Hv; [done|].
  apply validateInputs_image in Hv. injection Hv as <-. cbv zeta.
  destruct ((naturalWidth img =? 0) || (naturalHeight img =? 0)) eqn:Hz.
  - intros [= <-]. left. split; [done|]. apply orb_true_iff in Hz. lia.
  - destruct (getImageData img) as [data|] eqn:Hd; [|done].
    unfold getImageData in Hd. rewrite Hz in Hd. injection Hd as <-.
    destruct (detectBackgroundColor _ _ _) as [bgColor|] eqn:Hbg; [|done].
    destruct (if enableNoiseReduction _ then _ else _) as [data'|] eqn:Hn; [|done].
    destruct (scanImage _ _ _ _ _) as [st|] eqn:Hs; [|done].
    intros [= <-]. right. by exists bgColor, data', st.
Qed.

(** X6.  On a loaded image of at least one pixel whose buffer holds all
    of it, with a configuration that passes validation,
    [floodFillAlgorithm] resolves.  Against the estimated background
    color and the buffer that the noise filter leaves, every frame bounds
    a connected region of at least [minSpriteSize] foreground pixels, and
    every such region is bounded by a frame. *)
Theorem floodFillAlgorithm_sound_complete img config :
  let w := naturalWidth img in
  let h := naturalHeight img in
  let final := mergeConfig config in
  validateInputs (ImageElement img) config = inr img ->
  0 < w -> 0 < h ->
  (Z.to_nat (4 * (w * h)) <= length (pixels img))%nat ->
  exists bgColor data' frames,
    detectBackgroundColor (pixels img) w h = Some bgColor /\
    (if enableNoiseReduction final
     then applyNoiseReduction (pixels img) w h bgColor final
     else Some (pixels img)) = Some data' /\
    floodFillAlgorithm (ImageElement img) config = Resolved frames /\
    let fg := foreground w h (nonBackground data' w bgColor (tolerance final)) in
    Forall (frameOfRegion fg (neighborsOf final) (minSpriteSize final)) frames /\
    (forall p n,
       fg p = true -> regionSize fg (neighborsOf final) p n ->
       minSpriteSize final <= n ->
       exists f, f ∈ frames /\
                 boundingBox (connected fg (neighborsOf final) p) (frame_rect f)).
Proof.
  intros w h final Hv Hw Hh Hlen.
  destruct (detectBackgroundColor_some (pixels img) w h Hw) as [bgColor Hbg].
  assert (exists data',
            (if enableNoiseReduction final
             then applyNoiseReduction (pixels img) w h bgColor final
             else Some (pixels img)) = Some data') as [data' Hn].
  { destruct (enableNoiseReduction final) eqn:Hen; [|by eexists].
    destruct (applyNoiseReduction_spec (pixels img) w h bgColor final Hen Hlen)
      as (data' & M & Hr & _). by exists data'. }
  destruct (scanImage_sound w h data' bgColor final) as (st & Hs & Hfr & _ & Hall).
  exists bgColor, data', (sFrames st).
  split; [done|]. split; [done|]. split; [|by split].
  rewrite (floodFillAlgorithm_run img config bgColor Hv) by (done || lia).
  fold w h final. by rewrite Hn, Hs.
Qed.

Lemma floodFillAlgorithm_block_example :
  exists frames,
    floodFillAlgorithm (ImageElement blockExample) emptyConfig = Resolved frames /\
    frames <> [].
Proof.
  destruct (floodFillAlgorithm_sound_complete blockExample emptyConfig)
    as (bgColor & data' & frames & Hbg & Hn & Hrun & _);
    [reflexivity|simpl; lia|simpl; lia|vm_compute; lia|].
  exists frames. split; [done|].
  revert Hrun. vm_compute. by intros [= <-].
Defined.

(** A region of pixels of the image lies in the image, and so does its
    bounding box, which has as many pixels as the region at least. *)
Lemma frameOfRegion_in_image w h nonBg nbrs minSize f :
  frameOfRegion (foreground w h nonBg) nbrs minSize f ->
  0 <= rect_x (frame_rect f) /\ 0 <= rect_y (frame_rect f) /\
  1 <= rect_w (frame_rect f) /\ 1 <= rect_h (frame_rect f) /\
  rect_x (frame_rect f) + rect_w (frame_rect f) <= w /\
  rect_y (frame_rect f) + rect_h (frame_rect f) <= h /\
  minSize <= rectArea (frame_rect f).
Proof.
  intros (s & n & Hs & (l & Henum & <-) & Hmin & Hbox).
  destruct Hbox as (Hall & (q1 & R1 & E1) & (q2 & R2 & E2) & (q3 & R3 & E3)
                    & (q4 & R4 & E4)).
  pose proof (fun q R => region_in_image w h nonBg nbrs s q Hs R) as Hin.
  destruct (Hin q1 R1) as [X1 _], (Hin q2 R2) as [X2 _].
  destruct (Hin q3 R3) as [_ Y3], (Hin q4 R4) as [_ Y4].
  destruct (Hall s (connected_refl _ _ _)) as [Xs Ys].
  assert (Z.of_nat (length l) <= rectArea (frame_rect f)) as Harea.
  { assert (l ⊆+ rectPixels (frame_rect f)) as Hsub.
    { apply NoDup_submseteq; [apply Henum|]. intros q Hq.
      apply elem_of_rectPixels, Hall. by apply Henum. }
    apply submseteq_length in Hsub.
    pose proof (length_rectPixels (frame_rect f)). lia. }
  lia.
Qed.

(** X7.  The frames that [floodFillAlgorithm] resolves with are numbered
    from 0 in the order of the list, named [sprite_] followed by their
    number, of type [simple]; the rectangle of each lies in the image,
    is at least one pixel wide and high, and holds at least
    [minSpriteSize] pixels. *)
Theorem frames_are_well_formed img config frames i f :
  floodFillAlgorithm (ImageElement img) config = Resolved frames ->
  frames !! i = Some f ->
  f = frameAt i (frame_rect f) /\
  0 <= rect_x (frame_rect f) /\ 0 <= rect_y (frame_rect f) /\
  1 <= rect_w (frame_rect f) /\ 1 <= rect_h (frame_rect f) /\
  rect_x (frame_rect f) + rect_w (frame_rect f) <= naturalWidth img /\
  rect_y (frame_rect f) + rect_h (frame_rect f) <= naturalHeight img /\
  minSpriteSize (mergeConfig config) <= rectArea (frame_rect f).
Proof.
  intros Hrun Hi.
  destruct (floodFillAlgorithm_resolved img config frames Hrun)
    as [[-> _]|(bgColor & data' & st & _ & _ & Hs & ->)]; [done|].
  destruct (scanImage_sound (naturalWidth img) (naturalHeight img) data' bgColor
              (mergeConfig config)) as (st' & Hs' & Hfr & Hid & _).
  rewrite Hs in Hs'. injection Hs' as <-.
  pose proof (list_elem_of_lookup_2 _ _ _ Hi) as Hin.
  split.
  - pose proof (scanImage_frame_shape _ _ _ _ _ _ Hs) as Hshape.
    rewrite Forall_forall in Hshape. rewrite <- (Hid i f Hi) at 1. by apply Hshape.
  - rewrite Forall_forall in Hfr. by apply (frameOfRegion_in_image _ _ _ _ _ _ (Hfr f Hin)).
Qed.

Lemma frames_of_block_example :
  frameAt 0 (mkRect 2 2 3 3) = frameAt 0 (frame_rect (frameAt 0 (mkRect 2 2 3 3))) /\
  minSpriteSize (mergeConfig emptyConfig) <= rectArea (mkRect 2 2 3 3).
Proof.
  destruct (frames_are_well_formed blockExample emptyConfig
              [frameAt 0 (mkRect 2 2 3 3)] 0 (frameAt 0 (mkRect 2 2 3 3)))
    as (Hshape & _ & _ & _ & _ & _ & _ & Harea); [by vm_compute|done|].
  by split.
Defined.

(** * 4-connectivity against 8-connectivity *)

Lemma neighbors4_in_neighbors8 d : d ∈ neighbors4 -> d ∈ neighbors8.
Proof.
  intros Hd. apply list_elem_of_In in Hd. apply list_elem_of_In.
  simpl in *. intuition.
Qed.

Lemma connected_more_neighbors fg (n1 n2 : list (Z * Z)) s q :
  (forall d, d ∈ n1 -> d ∈ n2) ->
  connected fg n1 s q -> connected fg n2 s q.
Proof.
  intros Hsub. induction 1 as [|p q Hp IH (d & Hd & ->) Hq]; [constructor|].
  eapply connected_step; [exact IH| |exact Hq]. exists d. split; [by apply Hsub|done].
Qed.

(** Every region has a size: a fill from its pixel enumerates it. *)
Lemma regionSize_exists w h data bgColor config s :
  let fg := foreground w h (nonBackground data w bgColor (tolerance config)) in
  fg s = true -> exists n, regionSize fg (neighborsOf config) s n.
Proof.
  intros fg Hs. destruct s as [x y].
  destruct (floodFill_spec w h data bgColor x y (newUint8Array (w * h)) config)
    as (result & vis & deq & _ & Henum & _); [apply length_newUint8Array|done| |].
  - intros q _. apply marked_newUint8Array.
  - exists (Z.of_nat (length deq)). by exists deq.
Qed.

Lemma regionSize_mono fg (n1 n2 : list (Z * Z)) s a b :
  (forall d, d ∈ n1 -> d ∈ n2) ->
  regionSize fg n1 s a -> regionSize fg n2 s b -> a <= b.
Proof.
  intros Hsub (l1 & [Hnd1 H1] & <-) (l2 & [Hnd2 H2] & <-).
  assert (l1 ⊆+ l2) as Hl.
  { apply NoDup_submseteq; [done|]. intros q Hq. apply H2.
    apply (connected_more_neighbors fg n1 n2 s q Hsub). by apply H1. }
  apply submseteq_length in Hl. lia.
Qed.

(** X8.  The same image and configuration, once with 4-connectivity and
    once with 8-connectivity: the rectangle of every frame found with
    4-connectivity lies within the rectangle of a frame found with
    8-connectivity. *)
Theorem eight_way_frames_cover_four_way img config frames4 frames8 f :
  floodFillAlgorithm (ImageElement img) (setConnectivity false config)
    = Resolved frames4 ->
  floodFillAlgorithm (ImageElement img) (setConnectivity true config)
    = Resolved frames8 ->
  f ∈ frames4 ->
  exists f', f' ∈ frames8 /\ rectInside (frame_rect f) (frame_rect f').
Proof.
  intros H4 H8 Hf.
  destruct (floodFillAlgorithm_resolved img _ frames4 H4)
    as [[-> _]|(bgColor & data' & st4 & Hbg & Hn & Hs4 & ->)];
    [by apply elem_of_nil in Hf|].
  destruct (floodFillAlgorithm_resolved img _ frames8 H8)
    as [[_ Hz]|(bgColor' & data'' & st8 & Hbg' & Hn' & Hs8 & ->)].
  { exfalso. clear - Hz H4 Hf.
    unfold floodFillAlgorithm in H4.
    destruct (validateInputs _ _) as [e|img'] eqn:Hv; [done|].
    apply validateInputs_image in Hv. injection Hv as <-.
    revert H4. cbv zeta.
    replace ((naturalWidth img =? 0) || (naturalHeight img =? 0)) with true
      by (symmetry; apply orb_true_iff; lia).
    intros [= E]. rewrite <- E in Hf. by apply elem_of_nil in Hf. }
  rewrite Hbg in Hbg'. injection Hbg' as <-.
  assert (data'' = data') as ->.
  { change (enableNoiseReduction (mergeConfig (setConnectivity true config)))
      with (enableNoiseReduction (mergeConfig (setConnectivity false config))) in Hn'.
    assert (forall data w h, applyNoiseReduction data w h bgColor
                               (mergeConfig (setConnectivity true config))
                             = applyNoiseReduction data w h bgColor
                                 (mergeConfig (setConnectivity false config))) as E
        by done.
    rewrite E, Hn in Hn'. by injection Hn' as <-. }
  set (w := naturalWidth img) in *. set (h := naturalHeight img) in *.
  set (c4 := mergeConfig (setConnectivity false config)) in *.
  set (c8 := mergeConfig (setConnectivity true config)) in *.
  destruct (scanImage_sound w h data' bgColor c4) as (st & Hs & Hfr & _).
  rewrite Hs4 in Hs. injection Hs as <-.
  destruct (scanImage_sound w h data' bgColor c8) as (st & Hs & _ & _ & Hall).
  rewrite Hs8 in Hs. injection Hs as <-.
  rewrite Forall_forall in Hfr.
  destruct (Hfr f Hf) as (s & n & Hfg & Hsize & Hmin & Hbox).
  change (tolerance c4) with (tolerance c8) in *.
  change (minSpriteSize c4) with (minSpriteSize c8) in *.
  change (neighborsOf c4) with neighbors4 in *.
  destruct (regionSize_exists w h data' bgColor c8 s Hfg) as [n8 Hsize8].
  pose proof Hsize8 as Hsize8'. change (neighborsOf c8) with neighbors8 in Hsize8'.
  pose proof (regionSize_mono _ _ _ s n n8 neighbors4_in_neighbors8 Hsize Hsize8')
    as Hle.
  destruct (Hall s n8 Hfg Hsize8) as (f' & Hf' & Hbox'); [lia|].
  exists f'. split; [done|].
  change (neighborsOf c8) with neighbors8 in Hbox'.
  destruct Hbox as (_ & (q1 & R1 & E1) & (q2 & R2 & E2) & (q3 & R3 & E3)
                    & (q4 & R4 & E4)).
  destruct Hbox' as (Hin & _).
  pose proof (fun q R => Hin q (connected_more_neighbors _ _ _ s q
                                  neighbors4_in_neighbors8 R)) as Hin'.
  pose proof (Hin' q1 R1). pose proof (Hin' q2 R2).
  pose proof (Hin' q3 R3). pose proof (Hin' q4 R4).
  unfold rectInside. lia.
Qed.

Lemma diagonal_blocks_cover_example :
  exists f',
    f' ∈ [frameAt 0 (mkRect 1 1 4 4)] /\
    rectInside (mkRect 3 3 2 2) (frame_rect f').
Proof.
  apply (eight_way_frames_cover_four_way diagonalExample emptyConfig
           [frameAt 0 (mkRect 1 1 2 2); frameAt 1 (mkRect 3 3 2 2)]
           [frameAt 0 (mkRect 1 1 4 4)] (frameAt 1 (mkRect 3 3 2 2)));
    [by vm_compute|by vm_compute|].
  apply list_elem_of_In. simpl. tauto.
Defined.

(** * The cache over a session *)

Lemma cacheSet_NoDup cache key value :
  NoDup (map fst cache) -> NoDup (map fst (cacheSet cache key value)).
Proof.
  intros Hnd. destruct (decide (key ∈ map fst cache)) as [Hin|Hnot].
  - by rewrite cacheSet_keys.
  - rewrite cacheSet_fresh, map_app by done. apply NoDup_app. split; [done|].
    split; [|apply NoDup_singleton].
    intros k Hk Hk'. apply list_elem_of_singleton in Hk'. by subst.
Qed.

Lemma manageCacheSize_NoDup cache :
  NoDup (map fst cache) -> NoDup (map fst (manageCacheSize cache)).
Proof.
  intros Hnd. unfold manageCacheSize. destruct (_ >? _); [|done].
  destruct cache as [|e rest]; [done|]. simpl in Hnd. by apply NoDup_cons in Hnd as [_ ?].
Qed.

Lemma runCall_invariant st c :
  (length (detectionCache st) <= 10)%nat /\ NoDup (map fst (detectionCache st)) ->
  (length (detectionCache (runCall st c)) <= 10)%nat /\
  NoDup (map fst (detectionCache (runCall st c))).
Proof.
  intros [Hlen Hnd]. destruct c as [support imageElement config|]; simpl.
  - split; [by apply detect_cache_bounded|].
    destruct (detect_cache_step support st imageElement config)
      as [->|(img & result & _ & _ & ->)]; [done|].
    by apply manageCacheSize_NoDup, cacheSet_NoDup.
  - split; [lia|constructor].
Qed.

Lemma runCalls_invariant calls st :
  (length (detectionCache st) <= 10)%nat /\ NoDup (map fst (detectionCache st)) ->
  (length (detectionCache (runCalls calls st)) <= 10)%nat /\
  NoDup (map fst (detectionCache (runCalls calls st))).
Proof.
  unfold runCalls. revert st.
  induction calls as [|c calls IH]; intros st Hst; simpl; [done|].
  by apply IH, runCall_invariant.
Qed.

(** X9.  After any sequence of detections and cache clearings from the
    initial state, [getCacheInfo] reports a size between 0 and [maxSize],
    which is 10, and as many keys as the size, no key twice. *)
Theorem getCacheInfo_invariant calls :
  let info := getCacheInfo (runCalls calls freshOrchestrator) in
  0 <= info_size info <= info_maxSize info /\
  info_maxSize info = 10 /\
  info_size info = Z.of_nat (length (info_keys info)) /\
  NoDup (info_keys info).
Proof.
  cbv zeta. unfold getCacheInfo, CACHE_MAX_SIZE. cbn [info_size info_maxSize info_keys].
  destruct (runCalls_invariant calls freshOrchestrator) as [Hlen Hnd].
  { split; [simpl; lia|constructor]. }
  rewrite length_map. split; [lia|]. split; [done|]. by split.
Qed.

(** The outcome of a call and the cache it leaves depend on the state
    through the cache only. *)
Lemma detect_depends_on_cache support st st' imageElement config :
  detectionCache st = detectionCache st' ->
  fst (detectSpritesFromImage support st imageElement config)
  = fst (detectSpritesFromImage support st' imageElement config) /\
  detectionCache (snd (detectSpritesFromImage support st imageElement config))
  = detectionCache (snd (detectSpritesFromImage support st' imageElement config)).
Proof.
  intros Hc. unfold detectSpritesFromImage, processWithWebWorker.
  destruct (validateInputs imageElement config) as [e|img]; [done|].
  cbv zeta. rewrite Hc.
  destruct (if enableCache (mergeConfig config) && _ then _ else _); [done|].
  assert (forall result,
            detectionCache (cacheResult (mergeConfig config) img result (countRun st))
            = detectionCache (cacheResult (mergeConfig config) img result (countRun st')))
    as Hstore.
  { intros result. unfold cacheResult.
    destruct (enableCache (mergeConfig config)); cbn [detectionCache countRun];
      by rewrite Hc. }
  destruct (useWebWorker (mergeConfig config) && hasWorkerAPI support).
  - destruct support; cbn [fst snd]; try done.
    destruct (getImageData img); [|done].
    destruct (Worker.processImageData _ _ _ _) as [[frames stats]| |];
      cbn [fst snd]; [split; [done|apply Hstore]|done|done].
  - destruct (selectAlgorithm _ _ _); cbn [fst snd];
      [split; [done|apply Hstore]|done|done].
Qed.

(** X10.  After [clearDetectionCache] a call behaves as in the initial
    state: it resolves or rejects as the first call of a session would,
    and leaves the same cache. *)
Theorem cleared_cache_behaves_as_initial support st imageElement config :
  let cleared := detectSpritesFromImage support (clearDetectionCache st)
                   imageElement config in
  let initial := detectSpritesFromImage support freshOrchestrator
                   imageElement config in
  getCacheInfo (clearDetectionCache st) = getCacheInfo freshOrchestrator /\
  fst cleared = fst initial /\
  getCacheInfo (snd cleared) = getCacheInfo (snd initial).
Proof.
  cbv zeta. split; [done|].
  destruct (detect_depends_on_cache support (clearDetectionCache st) freshOrchestrator
              imageElement config eq_refl) as [Hout Hcache].
  split; [done|]. unfold getCacheInfo. by rewrite Hcache.
Qed.

(** X11.  With [enableCache] off a call neither reads nor writes the
    cache: the cache is left as it was, and what the call resolves with
    does not depend on what the cache holds. *)
Theorem disabled_cache_is_untouched support st st' imageElement config :
  enableCache (mergeConfig config) = false ->
  detectionCache (snd (detectSpritesFromImage support st imageElement config))
  = detectionCache st /\
  fst (detectSpritesFromImage support st imageElement config)
  = fst (detectSpritesFromImage support st' imageElement config).
Proof.
  intros Hoff. unfold detectSpritesFromImage, processWithWebWorker.
  destruct (validateInputs imageElement config) as [e|img]; [done|].
  cbv zeta. unfold cacheResult. rewrite Hoff. cbn [andb].
  destruct (useWebWorker (mergeConfig config) && hasWorkerAPI support).
  - destruct support; cbn [fst snd]; try done.
    destruct (getImageData img); [|done].
    by destruct (Worker.processImageData _ _ _ _) as [[frames stats]| |].
  - by destruct (selectAlgorithm _ _ _).
Qed.

Lemma disabled_cache_example :
  detectionCache
    (snd (detectSpritesFromImage NoWorkerAPI freshOrchestrator
            (ImageElement blockExample) withoutCache))
  = [] /\
  fst (detectSpritesFromImage NoWorkerAPI freshOrchestrator
         (ImageElement blockExample) withoutCache)
  = fst (detectSpritesFromImage NoWorkerAPI
           (snd (detectSpritesFromImage NoWorkerAPI freshOrchestrator
                   (ImageElement blankExample) emptyConfig))
           (ImageElement blockExample) withoutCache).
Proof.
  apply (disabled_cache_is_untouched NoWorkerAPI freshOrchestrator). reflexivity.
Defined.

(** The second of two calls on images of the same size. *)
Lemma stale_cache_example :
  detectSpritesFromImage WorkerStarts
    (snd (detectSpritesFromImage NoWorkerAPI freshOrchestrator
            (ImageElement blockExample) emptyConfig))
    (ImageElement blankExample) emptyConfig
  = (Resolved [frameAt 0 (mkRect 2 2 3 3)],
     snd (detectSpritesFromImage NoWorkerAPI freshOrchestrator
            (ImageElement blockExample) emptyConfig)).
Proof.
  apply (second_call_hits_cache NoWorkerAPI WorkerStarts freshOrchestrator
           blockExample blankExample emptyConfig emptyConfig);
    [by right|simpl; lia|done|done|done|done|done|by repeat split|done|].
  by vm_compute.
Defined.

Lemma forced_call_example :
  fillRuns
    (snd (detectSpritesFromImage NoWorkerAPI
            (snd (detectSpritesFromImage NoWorkerAPI freshOrchestrator
                    (ImageElement blockExample) emptyConfig))
            (ImageElement blockExample) (setForce true emptyConfig)))
  = 2%nat.
Proof.
  rewrite (forced_call_runs_again NoWorkerAPI _ blockExample (setForce true emptyConfig));
    [by vm_compute|done|done|simpl; lia|simpl; lia].
Defined.

Lemma zero_dimension_main_thread_example :
  fst (detectSpritesFromImage WorkerFailsToStart freshOrchestrator
         (ImageElement emptyImage) emptyConfig)
  = Resolved [].
Proof.
  apply zero_dimension_main_thread; [done|by left|by right|done].
Defined.

Lemma zero_dimension_worker_example :
  detectSpritesFromImage WorkerStarts freshOrchestrator
    (ImageElement emptyImage) emptyConfig
  = (Rejected (SpriteDetectionError IndexSizeError), freshOrchestrator).
Proof.
  apply zero_dimension_worker; [done|by left|done|done].
Defined.

(** X23.  What passes the validation of [detectSpritesFromImage] is a
    loaded image element, and the configuration merged with the defaults
    passes the validation that [floodFillAlgorithm] runs again: on the
    main thread the algorithm never rejects with its own validation
    error. *)
Theorem validated_config_passes_again imageElement config img :
  validateInputs imageElement config = inr img ->
  imageElement = ImageElement img /\
  complete img = true /\
  validateInputs imageElement (asPartial (mergeConfig config)) = inr img /\
  forall e, floodFillAlgorithm imageElement (asPartial (mergeConfig config))
            = Rejected (FloodFillError (InvalidInput e)) -> False.
Proof.
  intros Hv. pose proof (validateInputs_image _ _ _ Hv) as ->.
  pose proof (validateInputs_merged img config Hv) as Hagain.
  split; [done|]. split.
  - revert Hv. unfold validateInputs. by destruct (complete img).
  - split; [done|]. intros e. unfold floodFillAlgorithm. rewrite Hagain. cbv zeta.
    destruct (_ || _); [done|]. destruct (getImageData img); [|done].
    destruct (detectBackgroundColor _ _ _); [|done].
    destruct (if enableNoiseReduction _ then _ else _); [|done].
    by destruct (scanImage _ _ _ _ _).
Qed.

Lemma validated_config_example :
  validateInputs (ImageElement blockExample)
    (asPartial (mergeConfig (withMinSpriteSize 1))) = inr blockExample.
Proof.
  destruct (validated_config_passes_again (ImageElement blockExample)
              (withMinSpriteSize 1) blockExample) as (_ & _ & Hagain & _);
    [reflexivity|]. exact Hagain.
Defined.

(** * Processing in chunks *)

Lemma chunkLoop_spec rowsPerChunk h fuel startRow :
  1 <= rowsPerChunk -> (Z.to_nat (h - startRow) < fuel)%nat ->
  exists chunks,
    chunkLoop fuel startRow rowsPerChunk h = Some chunks /\
    flat_map chunkRows chunks = seqZ startRow (h - startRow) /\
    Forall (fun c => startRow <= fst c /\ fst c < snd c <= h /\
                     snd c - fst c <= rowsPerChunk) chunks.
Proof.
  intros Hr. revert startRow.
  induction fuel as [|fuel IH]; intros startRow Hfuel; [lia|]. simpl.
  destruct (startRow <? h) eqn:E.
  - apply Z.ltb_lt in E.
    destruct (IH (startRow + rowsPerChunk)) as (chunks & -> & Hrows & Hall); [lia|].
    eexists. split; [done|]. split.
    + cbn [flat_map]. rewrite Hrows. unfold chunkRows. cbn [fst snd].
      destruct (Z.le_gt_cases (startRow + rowsPerChunk) h) as [Hle|Hgt].
      * rewrite Z.min_l by lia.
        assert (seqZ startRow (h - startRow)
                = seqZ startRow rowsPerChunk
                  ++ seqZ (startRow + rowsPerChunk) (h - (startRow + rowsPerChunk)))
          as ->.
        { rewrite <- (seqZ_app startRow rowsPerChunk
                        (h - (startRow + rowsPerChunk))) by lia.
          f_equal. lia. }
        do 2 f_equal. lia.
      * rewrite Z.min_r by lia.
        rewrite (seqZ_nil _ (h - (startRow + rowsPerChunk))) by lia.
        by rewrite app_nil_r.
    + constructor; [cbn [fst snd]; lia|].
      eapply Forall_impl; [exact Hall|]. intros c Hc. simpl in *. lia.
  - apply Z.ltb_ge in E. exists []. split; [done|]. split; [|constructor].
    by rewrite seqZ_nil by lia.
Qed.

(** X12.  With at least one row to a chunk, the loop of
    [processImageInChunks] that lists the chunks ends within [h + 1]
    turns; the chunks hold the rows [0] to [h - 1], each once and in
    order, and each chunk has at least one row and at most
    [rowsPerChunk]. *)
Theorem chunks_partition_the_rows rowsPerChunk h :
  1 <= rowsPerChunk ->
  exists chunks,
    chunkLoop (S (Z.to_nat h)) 0 rowsPerChunk h = Some chunks /\
    flat_map chunkRows chunks = seqZ 0 h /\
    Forall (fun c => 0 <= fst c /\ fst c < snd c <= h /\
                     snd c - fst c <= rowsPerChunk) chunks.
Proof.
  intros Hr.
  destruct (chunkLoop_spec rowsPerChunk h (S (Z.to_nat h)) 0 Hr) as (chunks & H1 & H2 & H3);
    [lia|].
  exists chunks. split; [done|]. split; [|done]. by rewrite H2, Z.sub_0_r.
Qed.

Lemma chunks_of_ten_rows_example :
  exists chunks,
    chunkLoop 11 0 4 10 = Some chunks /\
    flat_map chunkRows chunks = seqZ 0 10.
Proof.
  destruct (chunks_partition_the_rows 4 10) as (chunks & H1 & H2 & _); [lia|].
  by exists chunks.
Defined.

(** ** The copy of a chunk *)

Lemma length_subarray_le arr begin n :
  0 <= n -> (length (subarray arr begin (begin + n)) <= Z.to_nat n)%nat.
Proof.
  intros Hn. unfold subarray, relativeIndex. cbv zeta. rewrite length_take.
  destruct (begin <? 0) eqn:E1, (begin + n <? 0) eqn:E2; lia.
Qed.

Lemma length_typedArraySet target source offset target' :
  typedArraySet target source offset = Some target' -> length target' = length target.
Proof.
  unfold typedArraySet. destruct (_ || _) eqn:E; [done|]. intros [= <-].
  apply orb_false_iff in E as [E1 E2].
  rewrite !length_app, length_take, length_drop. lia.
Qed.

Lemma typedArraySet_fits target source offset :
  0 <= offset -> Z.of_nat (length source) + offset <= Z.of_nat (length target) ->
  exists target', typedArraySet target source offset = Some target'.
Proof.
  intros H0 Hfit. unfold typedArraySet.
  replace (_ || _) with false; [by eexists|].
  symmetry. apply orb_false_iff. lia.
Qed.

Lemma copyRows_fit data startRow width len ys chunkData :
  0 <= width -> Z.of_nat (length chunkData) = len ->
  (forall y, y ∈ ys -> 0 <= y /\ (y + 1) * width * 4 <= len) ->
  exists chunkData',
    forEachM (copyRow data startRow width) ys chunkData = Some chunkData' /\
    Z.of_nat (length chunkData') = len.
Proof.
  intros Hw. revert chunkData.
  induction ys as [|y ys IH]; intros chunkData Hlen Hys; simpl; [by eexists|].
  destruct (Hys y) as [Hy Hfit]; [by left|].
  pose proof (length_subarray_le data ((startRow + y) * width * 4) (width * 4))
    as Hsrc.
  destruct (typedArraySet_fits chunkData
              (subarray data ((startRow + y) * width * 4)
                 ((startRow + y) * width * 4 + width * 4)) (y * width * 4))
    as [chunk1 Hset]; [nia|specialize (Hsrc ltac:(lia)); nia|].
  unfold copyRow at 1. cbv zeta. rewrite Hset.
  apply IH.
  - by rewrite (length_typedArraySet _ _ _ _ Hset).
  - intros y' Hy'. apply Hys. by right.
Qed.

Lemma processImageChunk_rows data startRow endRow width config :
  0 <= width -> startRow <= endRow ->
  processImageChunk data startRow endRow width config = inr [].
Proof.
  intros Hw Hrows. unfold processImageChunk, chunkCopy, newUint8ClampedArray.
  cbv zeta. replace (width * (endRow - startRow) * 4 <? 0) with false
    by (symmetry; apply Z.ltb_ge; nia).
  destruct (copyRows_fit data startRow width (width * (endRow - startRow) * 4)
              (seqZ 0 (endRow - startRow))
              (replicate (Z.to_nat (width * (endRow - startRow) * 4)) 0) Hw)
    as (chunkData & -> & _); [rewrite length_replicate; nia| |done].
  intros y Hy. apply elem_of_seqZ in Hy. nia.
Qed.

Lemma processChunksSequentially_empty data w config chunks :
  0 <= w -> Forall (fun c => fst c <= snd c) chunks ->
  processChunksSequentially data w config chunks [] = inr [].
Proof.
  intros Hw. induction chunks as [|[s e] chunks IH]; intros Hall; simpl; [done|].
  apply Forall_cons in Hall as [Hc Hall]. cbn [fst snd] in Hc.
  rewrite processImageChunk_rows by done. by apply IH.
Qed.

(** X13.  When a row of the image fits the chunk size,
    [processImageInChunks] resolves, whatever the pixels, and it resolves
    with the empty list: no frame is ever looked for in a chunk. *)
Theorem processImageInChunks_finds_no_frame imageData config :
  4 * Z.pos (image_width imageData) <= effectiveChunkSize config ->
  processImageInChunks (S (Pos.to_nat (image_height imageData))) imageData config
  = Some (inr []).
Proof.
  intros Hfit. unfold processImageInChunks. cbv zeta.
  set (w := Z.pos (image_width imageData)).
  set (h := Z.pos (image_height imageData)).
  set (r := effectiveChunkSize config / 4 / w).
  assert (1 <= r) as Hr.
  { unfold r. apply Z.div_le_lower_bound; [lia|].
    apply Z.div_le_lower_bound; lia. }
  destruct (r >=? h) eqn:E.
  - by rewrite processImageChunk_rows by lia.
  - destruct (chunkLoop_spec r h (S (Z.to_nat h)) 0 Hr) as (chunks & Hloop & _ & Hall);
      [lia|].
    replace (S (Pos.to_nat (image_height imageData))) with (S (Z.to_nat h)) by lia.
    rewrite Hloop. f_equal. apply processChunksSequentially_empty; [lia|].
    eapply Forall_impl; [exact Hall|]. intros c Hc. simpl in *. lia.
Qed.

Lemma chunks_of_block_example :
  processImageInChunks 11 blockImageData (withChunkSize 160) = Some (inr []).
Proof.
  apply (processImageInChunks_finds_no_frame blockImageData (withChunkSize 160)).
  vm_compute. discriminate.
Defined.

Lemma chunkLoop_stuck rowsPerChunk h fuel startRow :
  rowsPerChunk <= 0 -> startRow < h ->
  chunkLoop fuel startRow rowsPerChunk h = None.
Proof.
  intros Hr. revert startRow. induction fuel as [|fuel IH]; intros startRow Hs; [done|].
  simpl. replace (startRow <? h) with true by (symmetry; lia).
  by rewrite IH by lia.
Qed.

(** X14.  When a row of the image does not fit the chunk size,
    [rowsPerChunk] is 0 or less and the loop that lists the chunks adds
    it to [startRow] for ever: no number of turns takes
    [processImageInChunks] to a result. *)
Theorem processImageInChunks_never_ends imageData config fuel :
  effectiveChunkSize config < 4 * Z.pos (image_width imageData) ->
  processImageInChunks fuel imageData config = None.
Proof.
  intros Hsmall. unfold processImageInChunks. cbv zeta.
  set (w := Z.pos (image_width imageData)).
  set (h := Z.pos (image_height imageData)).
  set (r := effectiveChunkSize config / 4 / w).
  assert (r <= 0) as Hr.
  { unfold r. assert (effectiveChunkSize config / 4 < w) as Hq.
    { apply Z.div_lt_upper_bound; lia. }
    assert (effectiveChunkSize config / 4 / w < 1); [|lia].
    apply Z.div_lt_upper_bound; lia. }
  replace (r >=? h) with false by (symmetry; rewrite Z.geb_leb; apply Z.leb_gt; lia).
  by rewrite chunkLoop_stuck by lia.
Qed.

Lemma narrow_chunk_example :
  processImageInChunks 1000 blockImageData (withChunkSize 39) = None.
Proof.
  apply (processImageInChunks_never_ends blockImageData (withChunkSize 39)).
  vm_compute. reflexivity.
Defined.

(** ** What the copy loop leaves in [chunkData] *)

Lemma subarray_in_range arr begin n :
  0 <= begin -> 0 <= n -> begin + n <= Z.of_nat (length arr) ->
  subarray arr begin (begin + n) = take (Z.to_nat n) (drop (Z.to_nat begin) arr).
Proof.
  intros Hb Hn Hlen. unfold subarray, relativeIndex. cbv zeta.
  replace (begin <? 0) with false by (symmetry; lia).
  replace (begin + n <? 0) with false by (symmetry; lia).
  rewrite !Z.min_l by lia. do 2 f_equal. lia.
Qed.

Lemma copyRows_spec data startRow width chunkHeight (n : nat) :
  0 <= startRow -> 0 <= width ->
  (startRow + chunkHeight) * width * 4 <= Z.of_nat (length data) ->
  forall y0,
    0 <= y0 -> y0 + Z.of_nat n <= chunkHeight ->
    forEachM (copyRow data startRow width) (seqZ y0 (Z.of_nat n))
      (rowsOf data startRow (startRow + y0) width
       ++ replicate (Z.to_nat ((chunkHeight - y0) * width * 4)) 0)
    = Some (rowsOf data startRow (startRow + y0 + Z.of_nat n) width
            ++ replicate (Z.to_nat ((chunkHeight - y0 - Z.of_nat n) * width * 4)) 0).
Proof.
  intros Hs Hw Hlen. induction n as [|n IH]; intros y0 Hy0 Hfit.
  - simpl. do 3 f_equal; lia.
  - rewrite seqZ_cons by lia. cbn [forEachM]. unfold copyRow at 1. cbv zeta.
    rewrite subarray_in_range by nia.
    set (R := Z.to_nat (width * 4)).
    set (D := drop (Z.to_nat (startRow * width * 4)) data).
    assert (Z.to_nat (chunkHeight * width * 4) <= length D)%nat as HD.
    { unfold D. rewrite length_drop. nia. }
    assert (rowsOf data startRow (startRow + y0) width = take (Z.to_nat y0 * R) D) as E0.
    { unfold rowsOf. fold D. f_equal. unfold R. nia. }
    assert (length (take (Z.to_nat y0 * R) D) = (Z.to_nat y0 * R)%nat) as L0.
    { rewrite length_take. unfold R in *. nia. }
    assert (take R (drop (Z.to_nat ((startRow + y0) * width * 4)) data)
            = take R (drop (Z.to_nat y0 * R) D)) as Esrc.
    { unfold D. rewrite drop_drop. do 2 f_equal. unfold R. nia. }
    assert (length (take R (drop (Z.to_nat y0 * R) D)) = R) as Lsrc.
    { rewrite length_take, length_drop. unfold R in *. nia. }
    rewrite E0, Esrc. unfold typedArraySet.
    replace (_ || _) with false.
    2:{ symmetry. apply orb_false_iff. rewrite Lsrc, length_app, L0, length_replicate.
        assert (Z.of_nat R = width * 4) as HR by (unfold R; lia).
        assert (Z.of_nat (Z.to_nat y0 * R) = y0 * width * 4) as HA by nia.
        assert (0 <= (chunkHeight - y0) * width * 4) as HB by nia.
        assert (width * 4 <= (chunkHeight - y0) * width * 4) as HC by nia.
        split; [apply Z.ltb_ge; nia|].
        rewrite Z.gtb_ltb. apply Z.ltb_ge. rewrite Nat2Z.inj_add, HA, Z2Nat.id, HR by done.
        lia. }
    replace (Z.to_nat (y0 * width * 4)) with (Z.to_nat y0 * R)%nat by (unfold R; nia).
    rewrite Lsrc, take_app_length' by done.
    rewrite drop_app_ge by lia. rewrite L0.
    replace (Z.to_nat y0 * R + R - Z.to_nat y0 * R)%nat with R by lia.
    rewrite drop_replicate, app_assoc, take_take_drop.
    replace (Z.succ y0) with (y0 + 1) by lia. replace (Z.pred (Z.of_nat (S n))) with (Z.of_nat n) by lia.
    specialize (IH (y0 + 1) ltac:(lia) ltac:(lia)).
    assert (rowsOf data startRow (startRow + (y0 + 1)) width
            = take (Z.to_nat y0 * R + R) D) as E1.
    { unfold rowsOf. fold D. f_equal. unfold R. nia. }
    rewrite E1 in IH.
    replace (Z.to_nat ((chunkHeight - (y0 + 1)) * width * 4))
      with (Z.to_nat ((chunkHeight - y0) * width * 4) - R)%nat in IH by (unfold R; nia).
    rewrite IH. do 3 f_equal; lia.
Qed.

(** X18.  For rows that the buffer holds, the copy loop of
    [processImageChunk] leaves in [chunkData] the bytes of the rows
    [startRow] to [endRow - 1], in order, and nothing else. *)
Theorem chunkCopy_copies_the_rows data startRow endRow width :
  0 <= startRow <= endRow -> 0 <= width ->
  endRow * width * 4 <= Z.of_nat (length data) ->
  chunkCopy data startRow endRow width = Some (rowsOf data startRow endRow width).
Proof.
  intros [Hs He] Hw Hlen. unfold chunkCopy, newUint8ClampedArray. cbv zeta.
  replace (width * (endRow - startRow) * 4 <? 0) with false by (symmetry; nia).
  pose proof (copyRows_spec data startRow width (endRow - startRow)
                (Z.to_nat (endRow - startRow)) Hs Hw ltac:(nia) 0 ltac:(lia) ltac:(lia))
    as Hcopy.
  rewrite Z2Nat.id in Hcopy by lia.
  assert (rowsOf data startRow (startRow + 0) width = []) as E0.
  { unfold rowsOf. replace ((startRow + 0 - startRow) * width * 4) with 0 by lia.
    done. }
  rewrite E0 in Hcopy. cbn [app] in Hcopy.
  replace (Z.to_nat ((endRow - startRow - 0) * width * 4))
    with (Z.to_nat (width * (endRow - startRow) * 4)) in Hcopy by (f_equal; lia).
  rewrite Hcopy.
  replace ((endRow - startRow - 0 - (endRow - startRow)) * width * 4) with 0 by lia.
  cbn [Z.to_nat replicate]. rewrite app_nil_r. do 2 f_equal. lia.
Qed.

Lemma chunkCopy_example :
  chunkCopy (pixels blockExample) 2 5 10 = Some (rowsOf (pixels blockExample) 2 5 10).
Proof.
  apply chunkCopy_copies_the_rows; [lia|lia|vm_compute; discriminate].
Defined.

(** * The grid guess *)

Lemma roundedTo_cons k v arr :
  roundedTo k (v :: arr) = (if roundTo4 v =? k then 1 else 0) + roundedTo k arr.
Proof.
  unfold roundedTo. rewrite filter_cons.
  destruct (decide (roundTo4 v = k)) as [->|Hne]; simpl.
  - rewrite Z.eqb_refl. lia.
  - apply Z.eqb_neq in Hne. rewrite Hne. lia.
Qed.

Lemma roundedTo_positive k arr :
  0 < roundedTo k arr <-> exists v, v ∈ arr /\ roundTo4 v = k.
Proof.
  unfold roundedTo. split.
  - intros H. destruct (filter _ arr) as [|v l] eqn:E; [simpl in H; lia|].
    assert (v ∈ filter (fun val => roundTo4 val = k) arr) as Hv by (rewrite E; by left).
    apply list_elem_of_filter in Hv as [Hk Hv]. by exists v.
  - intros (v & Hv & Hk).
    assert (v ∈ filter (fun val => roundTo4 val = k) arr) as Hin
        by (by apply list_elem_of_filter).
    destruct (filter _ arr); [by apply elem_of_nil in Hin|simpl; lia].
Qed.

Lemma roundedTo_nonneg_aux k arr : 0 <= roundedTo k arr.
Proof. unfold roundedTo. lia. Qed.

(** ** The counting object *)

Lemma countOf_bumpCount acc val k :
  countOf (bumpCount acc val) k = countOf acc k + (if k =? val then 1 else 0).
Proof.
  induction acc as [|[key n] rest IH]; simpl.
  - destruct (k =? val); lia.
  - destruct (val =? key) eqn:E1; [|destruct (val <? key) eqn:E2]; simpl.
    + apply Z.eqb_eq in E1. subst. destruct (k =? key); lia.
    + destruct (k =? val), (k =? key); lia.
    + rewrite IH. destruct (k =? val), (k =? key); lia.
Qed.

Lemma bumpCount_keys acc val k :
  k ∈ map fst (bumpCount acc val) <-> k = val \/ k ∈ map fst acc.
Proof.
  induction acc as [|[key n] rest IH]; simpl.
  - rewrite list_elem_of_singleton. split; [by left|].
    intros [?|H]; [done|by apply elem_of_nil in H].
  - destruct (val =? key) eqn:E1; [|destruct (val <? key) eqn:E2]; simpl.
    + apply Z.eqb_eq in E1. subst. rewrite !elem_of_cons. tauto.
    + rewrite !elem_of_cons. tauto.
    + rewrite !elem_of_cons, IH. tauto.
Qed.

Lemma bumpCount_sorted acc val :
  StronglySorted Z.lt (map fst acc) -> StronglySorted Z.lt (map fst (bumpCount acc val)).
Proof.
  induction acc as [|[key n] rest IH]; intros Hs; simpl.
  - repeat constructor.
  - simpl in Hs. apply StronglySorted_inv in Hs as [Hrest Hkey].
    destruct (val =? key) eqn:E1; [|destruct (val <? key) eqn:E2]; simpl.
    + by constructor.
    + apply Z.ltb_lt in E2. constructor; [by constructor|].
      constructor; [done|]. eapply Forall_impl; [exact Hkey|]. intros; lia.
    + apply Z.eqb_neq in E1. apply Z.ltb_ge in E2.
      constructor; [by apply IH|]. apply Forall_forall. intros k Hk.
      apply bumpCount_keys in Hk as [->|Hk]; [lia|].
      rewrite Forall_forall in Hkey. by apply Hkey.
Qed.

Lemma bumpCount_counts acc val :
  Forall (fun e => 1 <= snd e) acc -> Forall (fun e => 1 <= snd e) (bumpCount acc val).
Proof.
  induction acc as [|[key n] rest IH]; intros Hs; simpl.
  - by repeat constructor.
  - apply Forall_cons in Hs as [Hn Hrest]. simpl in Hn.
    destruct (val =? key); [|destruct (val <? key)].
    + constructor; [simpl; lia|done].
    + constructor; [done|]. by constructor.
    + constructor; [done|]. by apply IH.
Qed.

(** In an object with ascending keys an entry holds the count of its key. *)
Lemma countOf_entry acc k n :
  StronglySorted Z.lt (map fst acc) -> (k, n) ∈ acc -> countOf acc k = n.
Proof.
  induction acc as [|[key m] rest IH]; intros Hs Hin; [by apply elem_of_nil in Hin|].
  simpl in Hs. apply StronglySorted_inv in Hs as [Hrest Hkey].
  rewrite Forall_forall in Hkey. simpl.
  assert (forall k', key <= k' -> k' <= key -> countOf rest k' = 0) as Hzero.
  { intros k' H1 H2. clear IH Hin Hrest.
    induction rest as [|[k2 n2] rest IH2]; simpl; [done|].
    assert (key < k2) by (apply Hkey; simpl; by left).
    replace (k' =? k2) with false by (symmetry; lia).
    rewrite IH2; [done|]. intros x Hx. apply Hkey. simpl. by right. }
  apply elem_of_cons in Hin as [[= -> ->]|Hin].
  - rewrite Z.eqb_refl, Hzero; lia.
  - assert (key < k) as Hlt.
    { apply Hkey. apply list_elem_of_fmap. by exists (k, n). }
    replace (k =? key) with false by (symmetry; lia). by rewrite IH.
Qed.

(** The object of [findMode] after the sides of [arr]. *)
Lemma counts_of_sides arr acc :
  StronglySorted Z.lt (map fst acc) ->
  Forall (fun e => 1 <= snd e) acc ->
  Forall (fun e => 0 < fst e) acc ->
  let counts :=
    fold_left (fun acc val => if val >? 0 then bumpCount acc val else acc)
              (map (fun val => (val + 2) / 4 * 4) arr) acc in
  StronglySorted Z.lt (map fst counts) /\
  Forall (fun e => 1 <= snd e) counts /\
  Forall (fun e => 0 < fst e) counts /\
  forall k, 0 < k -> countOf counts k = countOf acc k + roundedTo k arr.
Proof.
  revert acc. induction arr as [|v arr IH]; intros acc Hs Hc Hp; simpl.
  - split; [done|]. split; [done|]. split; [done|]. intros k _.
    unfold roundedTo. simpl. lia.
  - fold (roundTo4 v). destruct (roundTo4 v >? 0) eqn:E.
    + destruct (IH (bumpCount acc (roundTo4 v))) as (H1 & H2 & H3 & H4).
      * by apply bumpCount_sorted.
      * by apply bumpCount_counts.
      * apply Forall_forall. intros [k n] Hk.
        assert (k ∈ map fst (bumpCount acc (roundTo4 v))) as Hk'.
        { apply list_elem_of_fmap. by exists (k, n). }
        apply bumpCount_keys in Hk' as [->|Hk']; [simpl; lia|].
        apply list_elem_of_fmap in Hk' as ([k' n'] & -> & Hk').
        rewrite Forall_forall in Hp. by apply (Hp (k', n')).
      * split; [done|]. split; [done|]. split; [done|]. intros k Hk.
        rewrite (H4 k Hk), countOf_bumpCount, roundedTo_cons.
        rewrite (Z.eqb_sym k). lia.
    + destruct (IH acc Hs Hc Hp) as (H1 & H2 & H3 & H4).
      split; [done|]. split; [done|]. split; [done|]. intros k Hk.
      rewrite (H4 k Hk), roundedTo_cons.
      replace (roundTo4 v =? k) with false by (symmetry; lia). lia.
Qed.

(** ** The most frequent key *)

(** The [reduce] keeps an entry only against a strictly smaller count:
    over ascending keys it returns the largest key of the highest count. *)
Lemma mostCommon_ascending (counts : list (Z * Z)) m :
  StronglySorted Z.lt (map fst counts) ->
  mostCommon counts = Some m ->
  exists n, (m, n) ∈ counts /\
            forall k c, (k, c) ∈ counts -> c < n \/ (c = n /\ k <= m).
Proof.
  unfold mostCommon. destruct counts as [|first rest]; [done|].
  intros Hs [= <-].
  assert (forall l a (seen : list (Z * Z)),
            StronglySorted Z.lt (map fst l) ->
            a ∈ seen ->
            (forall e, e ∈ seen -> snd e < snd a \/ (snd e = snd a /\ fst e <= fst a)) ->
            (forall e e', e ∈ seen -> e' ∈ l -> fst e < fst e') ->
            let r := fold_left (fun a b : Z * Z => if snd a >? snd b then a else b) l a in
            r ∈ seen ++ l /\
            forall e, e ∈ seen ++ l ->
                      snd e < snd r \/ (snd e = snd r /\ fst e <= fst r)) as Hfold.
  { induction l as [|b l IH]; intros a seen Hl Ha Hmax Hord; simpl.
    - rewrite app_nil_r. by split.
    - simpl in Hl. apply StronglySorted_inv in Hl as [Hl Hb].
      rewrite Forall_forall in Hb.
      assert ((seen ++ b :: l) = (seen ++ [b]) ++ l) as -> by (by rewrite <- app_assoc).
      apply IH; [done| | |].
      + destruct (snd a >? snd b); apply elem_of_app; [by left|right; by left].
      + intros e He. apply elem_of_app in He as [He|He].
        * specialize (Hmax e He).
          pose proof (Hord e b He ltac:(by left)) as Heb.
          pose proof (Hord a b Ha ltac:(by left)) as Hab.
          destruct (snd a >? snd b) eqn:E; [done|]. lia.
        * apply list_elem_of_singleton in He. subst e.
          destruct (snd a >? snd b) eqn:E; lia.
      + intros e e' He He'. apply elem_of_app in He as [He|He].
        * apply Hord; [done|by right].
        * apply list_elem_of_singleton in He. subst e. apply Hb.
          apply list_elem_of_fmap. by exists e'. }
  simpl in Hs. apply StronglySorted_inv in Hs as [Hrest Hfirst].
  rewrite Forall_forall in Hfirst.
  destruct (Hfold rest first [first] Hrest) as [Hin Hmax].
  - by left.
  - intros e He. apply list_elem_of_singleton in He. subst. lia.
  - intros e e' He He'. apply list_elem_of_singleton in He. subst.
    apply Hfirst. apply list_elem_of_fmap. by exists e'.
  - set (r := fold_left _ rest first) in *. exists (snd r). split.
    + by destruct r.
    + intros k c Hk. apply (Hmax (k, c) Hk).
Qed.

(** X15.  On sides below [2^32 - 3] (the keys of the counting object are
    then array indices, enumerated in ascending order), [findMode]
    returns a positive multiple of 4 to which some side of the array
    rounds, within 2 of that side, and no multiple of 4 has more sides
    rounding to it; of two with as many sides, it returns the larger.  It
    returns [null] when no side is 2 or more. *)
Theorem findMode_is_the_mode arr :
  (forall v, v ∈ arr -> v < 4294967293) ->
  match findMode arr with
  | Some m =>
      0 < m /\ m mod 4 = 0 /\
      (exists v, v ∈ arr /\ roundTo4 v = m /\ -2 < m - v <= 2) /\
      (forall k, 0 < k ->
         roundedTo k arr < roundedTo m arr \/
         (roundedTo k arr = roundedTo m arr /\ k <= m))
  | None => forall v, v ∈ arr -> v < 2
  end.
Proof.
  intros _.
  destruct arr as [|v0 arr0]; [intros v Hv; by apply elem_of_nil in Hv|].
  set (arr := v0 :: arr0). unfold findMode.
  change (match arr with [] => None | _ => ?x end) with x. cbv zeta.
  destruct (counts_of_sides arr []) as (Hs & Hc & Hp & Hcount);
    [constructor|constructor|constructor|].
  cbv zeta in Hs, Hc, Hp, Hcount. set (counts := fold_left _ _ []) in *.
  destruct (mostCommon counts) as [m|] eqn:Hm.
  - destruct (mostCommon_ascending counts m Hs Hm) as (n & Hin & Hmax).
    rewrite Forall_forall in Hc, Hp.
    pose proof (Hc _ Hin) as Hn. pose proof (Hp _ Hin) as Hpos. simpl in Hn, Hpos.
    pose proof (countOf_entry counts m n Hs Hin) as Hmn.
    rewrite (Hcount m Hpos) in Hmn. simpl in Hmn.
    destruct (proj1 (roundedTo_positive m arr)) as (v & Hv & Hr); [lia|].
    split; [done|]. split; [rewrite <- Hr; unfold roundTo4; by apply Z.mod_mul|].
    split.
    + exists v. split; [done|]. split; [done|]. rewrite <- Hr. unfold roundTo4.
      pose proof (Z.div_mod (v + 2) 4 ltac:(lia)).
      pose proof (Z.mod_pos_bound (v + 2) 4 ltac:(lia)). lia.
    + intros k Hk.
      destruct (decide (0 < roundedTo k arr)) as [Hsome|Hnone].
      * assert (exists c, (k, c) ∈ counts) as [c Hkc].
        { pose proof (Hcount k Hk) as Hck. simpl in Hck.
          clear - Hck Hsome. induction counts as [|[k' c'] rest IH]; simpl in Hck; [lia|].
          destruct (k =? k') eqn:E.
          - apply Z.eqb_eq in E. subst. exists c'. by left.
          - destruct IH as [c Hc]; [lia|]. exists c. by right. }
        pose proof (countOf_entry counts k c Hs Hkc) as Hc'.
        rewrite (Hcount k Hk) in Hc'. simpl in Hc'.
        specialize (Hmax k c Hkc). lia.
      * pose proof (roundedTo_nonneg_aux k arr). lia.
  - unfold mostCommon in Hm. destruct counts as [|first rest] eqn:Ec; [|done].
    intros v Hv. destruct (Z.lt_ge_cases v 2) as [?|Hge]; [done|exfalso].
    assert (0 < roundTo4 v) as Hpos.
    { unfold roundTo4. pose proof (Z.div_le_lower_bound (v + 2) 4 1). lia. }
    pose proof (Hcount (roundTo4 v) Hpos) as Hk. simpl in Hk.
    assert (0 < roundedTo (roundTo4 v) arr) by (apply roundedTo_positive; eauto).
    lia.
Qed.

Lemma findMode_example :
  findMode [30; 33; 17; 15; 31] = Some 32 /\ 0 < 32 /\ 32 mod 4 = 0.
Proof.
  pose proof (findMode_is_the_mode [30; 33; 17; 15; 31]) as Hmode.
  change (findMode [30; 33; 17; 15; 31]) with (Some 32) in Hmode.
  destruct Hmode as (Hpos & Hmul & _).
  - intros v Hv. apply list_elem_of_In in Hv. simpl in Hv.
    destruct Hv as [<-|[<-|[<-|[<-|[<-|[]]]]]]; lia.
  - split; [reflexivity|]. by split.
Defined.

(** * The worker's copy of the scan *)

Lemma NoDup_scanOrder w h : NoDup (scanOrder w h).
Proof. apply (NoDup_rectPixels (mkRect 0 0 w h)). Qed.

Section Processed.

Variables (w h : Z) (data : list Z) (bgColor : Color) (config : DetectionConfig).

Local Notation "'fg'" :=
  (foreground w h (nonBackground data w bgColor (tolerance config))).
Local Notation "'nbrs'" := (neighborsOf config).
Local Notation "'minSize'" := (minSpriteSize config).

(** A fill adds the pixels of its region to the marked ones. *)
Lemma markedPixels_fill vis vis' (l : list Pixel) (region : Pixel -> Prop) :
  enumerates l region ->
  (forall q, region q -> inImage w h q) ->
  (forall q, region q -> marked vis w q = false) ->
  (forall p, inImage w h p ->
     (marked vis' w p = true <-> marked vis w p = true \/ region p)) ->
  length (markedPixels w h vis') = (length (markedPixels w h vis) + length l)%nat.
Proof.
  intros [Hnd Hl] Hin Hfresh Hmk. rewrite <- length_app.
  apply Permutation_length, NoDup_Permutation.
  - apply NoDup_filter, NoDup_scanOrder.
  - apply NoDup_app. split; [apply NoDup_filter, NoDup_scanOrder|]. split; [|done].
    intros p Hp Hp'. apply list_elem_of_filter in Hp as [Hm _].
    apply Hl in Hp'. rewrite (Hfresh p Hp') in Hm. done.
  - intros p. unfold markedPixels.
    rewrite elem_of_app, !list_elem_of_filter, !elem_of_scanOrder, Hl. split.
    + intros [Hm Hp]. apply (Hmk p Hp) in Hm as [Hm|Hr]; [left; by split|by right].
    + intros [[Hm Hp]|Hr].
      * split; [|done]. apply (Hmk p Hp). by left.
      * pose proof (Hin p Hr) as Hp. split; [|done]. apply (Hmk p Hp). by right.
Qed.

Lemma countInv_weaken (P Q : Pixel -> Prop) st :
  (forall p, Q p -> P p) ->
  countInv w h fg nbrs minSize P st -> countInv w h fg nbrs minSize Q st.
Proof. intros HPQ [HI Hc]. split; [by eapply scanInv_weaken|done]. Qed.

Lemma scanPixel_count Sc st x y :
  countInv w h fg nbrs minSize Sc st -> inImage w h (x, y) ->
  exists st',
    scanPixel w h data bgColor config y st x = Some st' /\
    countInv w h fg nbrs minSize (fun p => Sc p \/ p = (x, y)) st'.
Proof.
  intros [HI Hc] Hin.
  destruct (scanPixel_inv w h data bgColor config Sc st x y HI Hin) as (st' & Hr & HI').
  exists st'. split; [done|]. split; [done|].
  destruct HI as (Hlen & Hmfg & Hcl & _).
  destruct (marked (sVisited st) w (x, y)) eqn:Hm;
    [|destruct (fg (x, y)) eqn:Hfg].
  1,3: (rewrite scanPixel_skip in Hr by auto; by injection Hr as <-).
  destruct (scanPixel_fill w h data bgColor config x y st Hlen Hm Hfg)
    as (result & vis & Hr' & [(l & Henum & Hcount) _] & _ & Hmk).
  { intros q Hq. destruct (marked (sVisited st) w q) eqn:E; [|done].
    assert (inImage w h q) as Hqin.
    { eapply foreground_inImage. eapply connected_holds; [exact Hfg|exact Hq]. }
    rewrite <- Hm. symmetry. apply (Hcl q); [done|done|].
    apply connected_sym; [apply neighborsOf_symmetric|done|done]. }
  rewrite Hr' in Hr. injection Hr as <-. cbn [sProcessed sVisited].
  rewrite (markedPixels_fill (sVisited st) vis l _ Henum).
  - lia.
  - intros q Hq. eapply foreground_inImage. eapply connected_holds; [exact Hfg|exact Hq].
  - intros q Hq. destruct (marked (sVisited st) w q) eqn:E; [|done].
    assert (inImage w h q) as Hqin.
    { eapply foreground_inImage. eapply connected_holds; [exact Hfg|exact Hq]. }
    rewrite <- Hm. symmetry. apply (Hcl q); [done|done|].
    apply connected_sym; [apply neighborsOf_symmetric|done|done].
  - done.
Qed.

(** At the end of the scan [processedPixels] is the number of foreground
    pixels. *)
Lemma scanImage_processed :
  exists st,
    scanImage w h data bgColor config = Some st /\
    sProcessed st = Z.of_nat (length (foregroundPixels w h fg)).
Proof.
  unfold scanImage. rewrite forEachM_rows. fold (scanOrder w h).
  destruct (forEachM_covers
              (fun st (p : Pixel) => scanPixel w h data bgColor config (snd p) st (fst p))
              (countInv w h fg nbrs minSize) (inImage w h))
    with (l := scanOrder w h) (P := fun _ : Pixel => False)
         (s := {| sVisited := newUint8Array (w * h); sFrames := []; sProcessed := 0 |})
    as (st & Hr & [HI Hc]).
  - intros P Q s HPQ. by apply countInv_weaken.
  - intros P s [x y] HI Hin. by apply scanPixel_count.
  - split.
    + unfold scanInv. cbn [sVisited sFrames]. split; [apply length_newUint8Array|].
      split; [intros p _; by rewrite marked_newUint8Array|].
      split; [intros p q _; by rewrite marked_newUint8Array|].
      split; [tauto|]. split; [constructor|].
      split; [intros i f Hif; by rewrite lookup_nil in Hif|].
      intros p n _. by rewrite marked_newUint8Array.
    + cbn [sProcessed sVisited]. unfold markedPixels.
      assert (filter (fun p => marked (newUint8Array (w * h)) w p = true)
                     (scanOrder w h) = []) as ->; [|done].
      induction (scanOrder w h) as [|p l IH]; [done|].
      rewrite filter_cons, marked_newUint8Array.
      destruct (decide (false = true)); done.
  - intros p. apply elem_of_scanOrder.
  - exists st. split; [done|]. rewrite Hc. f_equal.
    destruct HI as (Hlen & Hmfg & _ & Hsc & _).
    apply Permutation_length, NoDup_Permutation;
      [apply NoDup_filter, NoDup_scanOrder..|].
    intros p. unfold markedPixels, foregroundPixels.
    rewrite !list_elem_of_filter, elem_of_scanOrder. split.
    + intros [Hm Hp]. split; [by apply Hmfg|done].
    + intros [Hf Hp]. split; [|done]. apply Hsc; [|done]. right.
      by apply elem_of_scanOrder.
Qed.

End Processed.

Lemma countExact_nonempty l (s : Sample) : Worker.countExact l s <> [].
Proof. destruct l as [|[k n] l]; simpl; [done|]. by destruct (decide (k = s)). Qed.

Lemma worker_detectBackgroundColor_some data w h :
  exists bgColor, Worker.detectBackgroundColor data w h = Some bgColor.
Proof.
  unfold Worker.detectBackgroundColor. cbn [map fold_left].
  match goal with
  | |- context [mostCommon (Worker.countExact ?l ?s)] =>
      pose proof (countExact_nonempty l s) as Hne;
      destruct (Worker.countExact l s) as [|first rest]; [done|]
  end.
  simpl. eauto.
Qed.

(** X16.  The worker's [processImageData] resolves on every buffer.  It
    takes the background color from the four corners and filters no
    noise: against that color and the buffer as it is, every frame bounds
    a connected region of at least [minSpriteSize] foreground pixels and
    every such region is bounded by a frame; [totalPixels] is [w * h] and
    [processedPixels] is the number of foreground pixels of the image. *)
Theorem worker_processImageData_resolves data w h config :
  exists bgColor frames stats,
    Worker.detectBackgroundColor data w h = Some bgColor /\
    Worker.processImageData data w h config = Resolved (frames, stats) /\
    let fg := foreground w h (nonBackground data w bgColor (tolerance config)) in
    Forall (frameOfRegion fg (neighborsOf config) (minSpriteSize config)) frames /\
    (forall p n,
       fg p = true -> regionSize fg (neighborsOf config) p n ->
       minSpriteSize config <= n ->
       exists f, f ∈ frames /\
                 boundingBox (connected fg (neighborsOf config) p) (frame_rect f)) /\
    Worker.totalPixels stats = w * h /\
    Worker.processedPixels stats = Z.of_nat (length (foregroundPixels w h fg)) /\
    Worker.processedPixels stats <= Z.max 0 w * Z.max 0 h.
Proof.
  destruct (worker_detectBackgroundColor_some data w h) as [bgColor Hbg].
  destruct (scanImage_sound w h data bgColor config) as (st & Hs & Hfr & _ & Hall).
  destruct (scanImage_processed w h data bgColor config) as (st' & Hs' & Hcount).
  rewrite Hs in Hs'. injection Hs' as <-.
  exists bgColor, (sFrames st), (Worker.mkStats (sProcessed st) (w * h)).
  split; [done|]. split; [unfold Worker.processImageData; by rewrite Hbg, Hs|].
  cbv zeta. split; [done|]. split; [done|]. split; [done|]. split; [done|].
  cbn [Worker.processedPixels]. rewrite Hcount. unfold foregroundPixels.
  pose proof (length_filter (fun p => foreground w h
                  (nonBackground data w bgColor (tolerance config)) p = true)
                (scanOrder w h)) as Hle.
  assert (Z.of_nat (length (scanOrder w h)) = Z.max 0 w * Z.max 0 h) as Hlen.
  { unfold scanOrder.
    rewrite (length_rows _ _ (Z.to_nat w)) by (intros; apply length_seqZ).
    rewrite length_seqZ. lia. }
  lia.
Qed.

(** X17.  Noise reduction off, and the two estimators agreeing on the
    background color of an image with pixels: a call resolves with the
    same frames and leaves the same state whether the fill runs in the
    worker or on the main thread; where the worker fails to start, the
    frames are the same again. *)
Theorem worker_and_main_thread_agree st img config bgColor :
  let w := naturalWidth img in
  let h := naturalHeight img in
  validateInputs (ImageElement img) config = inr img ->
  w <> 0 -> h <> 0 ->
  enableNoiseReduction (mergeConfig config) = false ->
  detectBackgroundColor (pixels img) w h = Some bgColor ->
  Worker.detectBackgroundColor (pixels img) w h = Some bgColor ->
  detectSpritesFromImage WorkerStarts st (ImageElement img) config
  = detectSpritesFromImage NoWorkerAPI st (ImageElement img) config /\
  fst (detectSpritesFromImage WorkerFailsToStart st (ImageElement img) config)
  = fst (detectSpritesFromImage NoWorkerAPI st (ImageElement img) config).
Proof.
  intros w h Hv Hw Hh Hnoise Hbg Hbg'.
  assert (floodFillAlgorithm (ImageElement img) (asPartial (mergeConfig config))
          = match scanImage w h (pixels img) bgColor (mergeConfig config) with
            | Some s => Resolved (sFrames s)
            | None => OutOfFuel
            end) as Hmain.
  { rewrite (floodFillAlgorithm_run img _ bgColor (validateInputs_merged img config Hv))
      by done.
    by rewrite mergeConfig_asPartial, Hnoise. }
  unfold detectSpritesFromImage. rewrite Hv. cbv zeta.
  destruct (if enableCache (mergeConfig config) && _ then _ else _); [done|].
  rewrite selectAlgorithm_floodFill, Hmain.
  unfold processWithWebWorker. rewrite selectAlgorithm_floodFill, Hmain.
  unfold getImageData, Worker.processImageData.
  replace ((naturalWidth img =? 0) || (naturalHeight img =? 0)) with false
    by (symmetry; apply orb_false_iff; fold w h; lia).
  fold w h. rewrite Hbg'.
  destruct (useWebWorker (mergeConfig config)); cbn [andb hasWorkerAPI];
    by destruct (scanImage w h (pixels img) bgColor (mergeConfig config)).
Qed.

Lemma worker_and_main_thread_example :
  detectSpritesFromImage WorkerStarts freshOrchestrator (ImageElement blockExample)
    withoutNoiseReduction
  = detectSpritesFromImage NoWorkerAPI freshOrchestrator (ImageElement blockExample)
      withoutNoiseReduction.
Proof.
  apply (worker_and_main_thread_agree freshOrchestrator blockExample _ white);
    [done|done|done|done|by vm_compute|by vm_compute].
Defined.

(** * The noise filter and the size filter *)

(** A small region is small as a whole. *)
Lemma smallRegion_region fg thr p q :
  smallRegion fg thr p -> connected fg neighbors4 p q -> smallRegion fg thr q.
Proof.
  intros (Hp & n & (l & Henum & Hlen) & Hn) Hq.
  split; [by eapply connected_holds|]. exists n. split; [|done].
  exists l. split; [|done]. eapply enumerates_ext; [|exact Henum].
  intros r. symmetry. by apply connected_same_region; [apply neighbors4_symmetric|..].
Qed.

(** X24.  When a pixel painted with the background color is itself
    background (an opaque or a transparent background color), the noise
    filter is idempotent: run on its own result, it changes nothing. *)
Theorem applyNoiseReduction_idempotent data w h bgColor config data' :
  enableNoiseReduction config = true ->
  (Z.to_nat (4 * (w * h)) <= length data)%nat ->
  selfBackground bgColor (tolerance config) = true ->
  applyNoiseReduction data w h bgColor config = Some data' ->
  applyNoiseReduction data' w h bgColor config = Some data'.
Proof.
  intros Hen Hlen Hself Hrun.
  destruct (applyNoiseReduction_spec data w h bgColor config Hen Hlen)
    as (data1 & M & Hr & Hd & HM).
  rewrite Hrun in Hr. injection Hr as <-.
  set (fg0 := foreground w h (nonBackground data w bgColor (tolerance config))) in *.
  set (thr := effectiveNoiseThreshold config) in *.
  assert (forall q, q ∈ M -> inImage w h q) as HMin.
  { intros q Hq. apply HM in Hq as [Hq _]. by eapply foreground_inImage. }
  set (fg1 := foreground w h (nonBackground data' w bgColor (tolerance config))).
  assert (forall p, fg1 p = if decide (p ∈ M) then false else fg0 p) as Hfg.
  { intros p. unfold fg1. rewrite Hd, (foreground_after_noise w h _ _ _ M p Hlen HMin).
    by rewrite Hself. }
  pose proof (applyNoiseReduction_id data' w h bgColor config) as Hid.
  rewrite Hen in Hid. apply Hid.
  - rewrite Hd, length_paintAll. done.
  - intros p (Hp & n & (l & Henum & Hl) & Hn). fold fg1 in Hp, Henum.
    rewrite Hfg in Hp. destruct (decide (p ∈ M)) as [|HpM]; [done|].
    apply HpM, HM. split; [done|]. exists n. split; [|done].
    exists l. split; [|done]. eapply enumerates_ext; [|exact Henum].
    intros q. apply connected_ext. intros r s Hr Hstep.
    rewrite Hfg. destruct (decide (s ∈ M)) as [HsM|]; [|done].
    destruct (fg0 s) eqn:Hs; [|done]. exfalso. apply HpM, HM.
    apply (smallRegion_region fg0 thr s p); [by apply HM|].
    apply connected_sym; [apply neighbors4_symmetric|done|].
    eapply connected_step; [exact Hr|exact Hstep|exact Hs].
Qed.

Lemma applyNoiseReduction_twice_example :
  exists data',
    applyNoiseReduction (pixels speckExample) 3 3 white DEFAULT_CONFIG = Some data' /\
    applyNoiseReduction data' 3 3 white DEFAULT_CONFIG = Some data'.
Proof.
  destruct (applyNoiseReduction (pixels speckExample) 3 3 white DEFAULT_CONFIG)
    as [data'|] eqn:E; [|by vm_compute in E].
  exists data'. split; [done|].
  apply (applyNoiseReduction_idempotent (pixels speckExample) 3 3 white DEFAULT_CONFIG);
    [done|vm_compute; lia|by vm_compute|done].
Defined.

(** X25.  The same image and configuration with two minimum sprite
    sizes: every rectangle found with the larger minimum is found with
    the smaller one. *)
Theorem larger_minimum_finds_fewer_frames img config m1 m2 frames1 frames2 f :
  m1 <= m2 ->
  floodFillAlgorithm (ImageElement img) (setMinSpriteSize m1 config) = Resolved frames1 ->
  floodFillAlgorithm (ImageElement img) (setMinSpriteSize m2 config) = Resolved frames2 ->
  f ∈ frames2 ->
  exists f', f' ∈ frames1 /\ frame_rect f' = frame_rect f.
Proof.
  intros Hm H1 H2 Hf.
  destruct (floodFillAlgorithm_resolved img _ frames2 H2)
    as [[-> _]|(bgColor & data' & st2 & Hbg & Hn & Hs2 & ->)];
    [by apply elem_of_nil in Hf|].
  destruct (floodFillAlgorithm_resolved img _ frames1 H1)
    as [[_ Hz]|(bgColor' & data'' & st1 & Hbg' & Hn' & Hs1 & ->)].
  { exfalso. clear - Hz H2 Hf.
    unfold floodFillAlgorithm in H2.
    destruct (validateInputs _ _) as [e|img'] eqn:Hv; [done|].
    apply validateInputs_image in Hv. injection Hv as <-.
    revert H2. cbv zeta.
    replace ((naturalWidth img =? 0) || (naturalHeight img =? 0)) with true
      by (symmetry; apply orb_true_iff; lia).
    intros [= E]. rewrite <- E in Hf. by apply elem_of_nil in Hf. }
  rewrite Hbg in Hbg'. injection Hbg' as <-.
  assert (data'' = data') as ->.
  { change (enableNoiseReduction (mergeConfig (setMinSpriteSize m1 config)))
      with (enableNoiseReduction (mergeConfig (setMinSpriteSize m2 config))) in Hn'.
    assert (forall data w h, applyNoiseReduction data w h bgColor
                               (mergeConfig (setMinSpriteSize m1 config))
                             = applyNoiseReduction data w h bgColor
                                 (mergeConfig (setMinSpriteSize m2 config))) as E
        by done.
    rewrite E, Hn in Hn'. by injection Hn' as <-. }
  set (w := naturalWidth img) in *. set (h := naturalHeight img) in *.
  set (c1 := mergeConfig (setMinSpriteSize m1 config)) in *.
  set (c2 := mergeConfig (setMinSpriteSize m2 config)) in *.
  destruct (scanImage_sound w h data' bgColor c2) as (st & Hs & Hfr & _).
  rewrite Hs2 in Hs. injection Hs as <-.
  destruct (scanImage_sound w h data' bgColor c1) as (st & Hs & _ & _ & Hall).
  rewrite Hs1 in Hs. injection Hs as <-.
  rewrite Forall_forall in Hfr.
  destruct (Hfr f Hf) as (s & n & Hfg & Hsize & Hmin & Hbox).
  change (tolerance c2) with (tolerance c1) in *.
  change (neighborsOf c2) with (neighborsOf c1) in *.
  change (minSpriteSize c2) with m2 in Hmin.
  destruct (Hall s n Hfg Hsize) as (f' & Hf' & Hbox'); [change (minSpriteSize c1) with m1; lia|].
  exists f'. split; [done|]. by eapply boundingBox_unique.
Qed.

Lemma larger_minimum_example :
  exists f',
    f' ∈ [frameAt 0 (mkRect 1 1 2 2); frameAt 1 (mkRect 3 3 2 2)] /\
    frame_rect f' = mkRect 3 3 2 2.
Proof.
  apply (larger_minimum_finds_fewer_frames diagonalExample emptyConfig 3 4
           [frameAt 0 (mkRect 1 1 2 2); frameAt 1 (mkRect 3 3 2 2)]
           [frameAt 0 (mkRect 1 1 2 2); frameAt 1 (mkRect 3 3 2 2)]
           (frameAt 1 (mkRect 3 3 2 2)));
    [lia|by vm_compute|by vm_compute|].
  apply list_elem_of_In. simpl. tauto.
Defined.

